(** * tendril-wiki: markup codec and save coordinator

    A shallow embedding of [static/mods/parsing.js] (the markup codec:
    [parseWikiLinks], [parseURLs], [parseEmails], [textToHtml],
    [htmlToText], [isSpecialtyUrl], [parseSpecialtyUrl]) and of the
    [ComponentRegister] class with its [stateChart] (the save coordinator),
    and of the page shortcuts of [static/script.js].

    JavaScript strings are sequences of UTF-16 code units, regular
    expressions are run by a backtracking matcher with the priorities of
    the language (greedy quantifiers, ordered alternation), plain objects
    used as maps keep their own-property order and are read through
    their prototype. *)

From Stdlib Require Import String Ascii.
From Stdlib Require Import List NArith Bool Arith Lia.
From Stdlib Require ZArith Zify.
Import ListNotations.

(** ** Strings *)

Module JsString.

Definition jsstr := list N.

(** An ASCII literal as a JavaScript string. *)
Definition lit (s : string) : jsstr :=
  List.map N_of_ascii (list_ascii_of_string s).

(** The double quote, which no literal of this file contains. *)
Definition dq : jsstr := [34%N].

Fixpoint str_eqb (a b : jsstr) : bool :=
  match a, b with
  | [], [] => true
  | c :: a', d :: b' => N.eqb c d && str_eqb a' b'
  | _, _ => false
  end.

Fixpoint starts_with (p s : jsstr) : bool :=
  match p, s with
  | [], _ => true
  | c :: p', d :: s' => N.eqb c d && starts_with p' s'
  | _ :: _, [] => false
  end.

(** [s.includes(p)] *)
Fixpoint includes (p s : jsstr) : bool :=
  starts_with p s ||
  match s with
  | [] => false
  | _ :: s' => includes p s'
  end.

(** [s.endsWith(p)], used on the specification side only. *)
Definition ends_with (p s : jsstr) : bool :=
  starts_with (rev p) (rev s).

(** [s.split("\n")]: never empty, one more piece than separators. *)
Fixpoint split_lines (s : jsstr) : list jsstr :=
  match s with
  | [] => [[]]
  | c :: s' =>
      if N.eqb c 10 then [] :: split_lines s'
      else match split_lines s' with
           | l :: ls => (c :: l) :: ls
           | [] => [[c]]
           end
  end.

(** [a.join(sep)] on an array of strings. *)
Fixpoint join (sep : jsstr) (l : list jsstr) : jsstr :=
  match l with
  | [] => []
  | [x] => x
  | x :: rest => x ++ sep ++ join sep rest
  end.

(** GetSubstitution for a string pattern (no captures): in the
    replacement text [$$] is a dollar, [$&] the matched text, [$`] the
    text before the match and [$'] the text after it; any other dollar
    stands for itself. *)
Fixpoint get_substitution (matched before after repl : jsstr) : jsstr :=
  match repl with
  | [] => []
  | c :: r =>
      if N.eqb c 36 then
        match r with
        | [] => [c]
        | d :: r' =>
            if N.eqb d 36 then 36%N :: get_substitution matched before after r'
            else if N.eqb d 38 then matched ++ get_substitution matched before after r'
            else if N.eqb d 96 then before ++ get_substitution matched before after r'
            else if N.eqb d 39 then after ++ get_substitution matched before after r'
            else c :: get_substitution matched before after r
        end
      else c :: get_substitution matched before after r
  end.

(** [s.replace(pat, repl)] with a string pattern: the first occurrence
    only.  [before] is the text already passed over. *)
Fixpoint replace_from (pat repl before s : jsstr) : jsstr :=
  if starts_with pat s then
    get_substitution pat before (skipn (length pat) s) repl
      ++ skipn (length pat) s
  else
    match s with
    | [] => []
    | c :: s' => c :: replace_from pat repl (before ++ [c]) s'
    end.

Definition replace (pat repl s : jsstr) : jsstr :=
  replace_from pat repl [] s.

(** [s.replaceAll(pat, repl)] with a string pattern: every occurrence,
    left to right, without overlap; [skip] counts the code units of the
    occurrence just replaced that are still to be passed over. *)
Fixpoint replaceAll_from (pat repl before s : jsstr) (skip : nat) : jsstr :=
  match s with
  | [] =>
      match pat, skip with
      | [], O => get_substitution pat before [] repl
      | _, _ => []
      end
  | c :: s' =>
      match skip with
      | S k => replaceAll_from pat repl (before ++ [c]) s' k
      | O =>
          if starts_with pat s then
            get_substitution pat before (skipn (length pat) s) repl ++
            match pat with
            | [] => c :: replaceAll_from pat repl (before ++ [c]) s' 0
            | _ :: p' => replaceAll_from pat repl (before ++ [c]) s' (length p')
            end
          else c :: replaceAll_from pat repl (before ++ [c]) s' 0
      end
  end.

Definition replaceAll (pat repl s : jsstr) : jsstr :=
  replaceAll_from pat repl [] s 0.

(** [s.slice(1)] *)
Definition slice1 (s : jsstr) : jsstr := tl s.

End JsString.
Export JsString.

(** ** Regular expressions *)

Module Regex.

(** The constructs the four patterns of the codec use. *)
Inductive regex : Type :=
| Cls (p : N -> bool)          (* one code unit of a class *)
| Eps
| Seq (a b : regex)
| Alt (a b : regex)            (* a|b, left first *)
| Star (a : regex)             (* a*, greedy *)
| Rep (n : nat) (a : regex)    (* a{0,n}, greedy *)
| Eoi.                         (* $ without the m flag *)

Definition chr (c : N) : regex := Cls (N.eqb c).
Definition plus (a : regex) : regex := Seq a (Star a).
Definition opt (a : regex) : regex := Rep 1 a.

Fixpoint str (s : jsstr) : regex :=
  match s with
  | [] => Eps
  | c :: s' => Seq (chr c) (str s')
  end.

Definition in_range (lo hi c : N) : bool := N.leb lo c && N.leb c hi.
Definition one_of (l : list N) (c : N) : bool := existsb (N.eqb c) l.

Definition is_lower (c : N) : bool := in_range 97 122 c.
Definition is_upper (c : N) : bool := in_range 65 90 c.
Definition is_digit (c : N) : bool := in_range 48 57 c.
Definition is_alnum (c : N) : bool := is_lower c || is_upper c || is_digit c.

Definition ascii_upper (c : N) : N := if is_lower c then (c - 32)%N else c.
Definition ascii_lower (c : N) : N := if is_upper c then (c + 32)%N else c.

(** The [i] flag on a class of ASCII members: a code unit matches when
    its canonical form is that of a member.  Canonicalize never maps a
    code unit above 127 to one below 128, so only ASCII code units can
    match, and they do when either of their cases is a member. *)
Definition ci (p : N -> bool) (c : N) : bool :=
  N.ltb c 128 && (p (ascii_upper c) || p (ascii_lower c)).

Definition chr_i (c : N) : regex := Cls (ci (N.eqb c)).

Fixpoint str_i (s : jsstr) : regex :=
  match s with
  | [] => Eps
  | c :: s' => Seq (chr_i c) (str_i s')
  end.

(** [\s]: WhiteSpace and LineTerminator. *)
Definition is_space (c : N) : bool :=
  in_range 9 13 c
  || one_of [32; 160; 5760; 8232; 8233; 8239; 8287; 12288; 65279]%N c
  || in_range 8192 8202 c.

(** [.] without the s flag: anything but a LineTerminator. *)
Definition is_dot (c : N) : bool := negb (one_of [10; 13; 8232; 8233]%N c).

Section Matcher.
Variable A : Type.

(** RepeatMatcher: at most [n] further iterations of [step], greedily,
    then the continuation [k].  An iteration that consumes nothing is
    rejected. *)
Fixpoint repeat_loop (step : jsstr -> (jsstr -> option A) -> option A)
         (k : jsstr -> option A) (n : nat) (s : jsstr) {struct n}
  : option A :=
  match n with
  | O => k s
  | S n' =>
      match step s (fun s' =>
                      if Nat.ltb (length s') (length s)
                      then repeat_loop step k n' s' else None) with
      | Some x => Some x
      | None => k s
      end
  end.

(** Backtracking matcher in continuation style: [k] receives what is
    left of the input.  Since an iteration must consume something, the
    length of the input bounds the iterations of [Star]. *)
Fixpoint rmatch (r : regex) (s : jsstr) (k : jsstr -> option A)
  {struct r} : option A :=
  match r with
  | Cls p =>
      match s with
      | c :: s' => if p c then k s' else None
      | [] => None
      end
  | Eps => k s
  | Seq a b => rmatch a s (fun s' => rmatch b s' k)
  | Alt a b =>
      match rmatch a s k with
      | Some x => Some x
      | None => rmatch b s k
      end
  | Star a => repeat_loop (rmatch a) k (length s) s
  | Rep n a => repeat_loop (rmatch a) k n s
  | Eoi =>
      match s with
      | [] => k s
      | _ :: _ => None
      end
  end.

End Matcher.

Arguments repeat_loop {A} step k n s.
Arguments rmatch {A} r s k.

(** A match that starts at the head of [s]: the text left after it. *)
Definition match_here (r : regex) (s : jsstr) : option jsstr :=
  rmatch r s (fun rest => Some rest).

(** The matched text, given what is left. *)
Definition matched_text (s rest : jsstr) : jsstr :=
  firstn (length s - length rest) s.

(** The leftmost match in [s]: the number of code units before it, the
    matched text and the text after it. *)
Fixpoint search (r : regex) (s : jsstr) : option (nat * jsstr * jsstr) :=
  match match_here r s with
  | Some rest => Some (O, matched_text s rest, rest)
  | None =>
      match s with
      | [] => None
      | _ :: s' =>
          match search r s' with
          | Some (i, m, rest) => Some (S i, m, rest)
          | None => None
          end
      end
  end.

(** [r.test(s)] for a pattern without the g flag. *)
Definition test (r : regex) (s : jsstr) : bool :=
  match search r s with Some _ => true | None => false end.

(** [r.test(s)] for a pattern with the g flag: the search starts at
    [lastIndex], which the call leaves at the end of the match, or at 0
    when there is none.  Returns the result and the new [lastIndex]. *)
Definition test_g (r : regex) (lastIndex : nat) (s : jsstr) : bool * nat :=
  if Nat.ltb (length s) lastIndex then (false, O)
  else
    match search r (skipn lastIndex s) with
    | Some (i, m, _) => (true, lastIndex + i + length m)
    | None => (false, O)
    end.

(** The successive matches of a g pattern in [s]; after an empty match
    the search moves on by one code unit. *)
Fixpoint matches_from (fuel : nat) (r : regex) (s : jsstr) : list jsstr :=
  match fuel with
  | O => []
  | S fuel' =>
      match search r s with
      | None => []
      | Some (_, m, rest) =>
          m :: match m, rest with
               | [], [] => []
               | [], _ :: rest' => matches_from fuel' r rest'
               | _ :: _, _ => matches_from fuel' r rest
               end
      end
  end.

(** [s.matchAll(r)], every [match[0]] in order: the iterator works on a
    copy of [r] that starts at the [lastIndex] [r] has at the call. *)
Definition matchAll (r : regex) (lastIndex : nat) (s : jsstr) : list jsstr :=
  if Nat.ltb (length s) lastIndex then []
  else matches_from (S (length s)) r (skipn lastIndex s).

(** The code units a pattern can take from the input. *)
Fixpoint may_consume (r : regex) (c : N) : bool :=
  match r with
  | Cls p => p c
  | Seq a b | Alt a b => may_consume a c || may_consume b c
  | Star a | Rep _ a => may_consume a c
  | Eps | Eoi => false
  end.

(** A pattern that takes at least one code unit whenever it matches. *)
Fixpoint never_empty (r : regex) : bool :=
  match r with
  | Cls _ => true
  | Seq a b => never_empty a || never_empty b
  | Alt a b => never_empty a && never_empty b
  | Star _ | Rep _ _ | Eps | Eoi => false
  end.

End Regex.
Export Regex.

(** ** URI component coding *)

Module Uri.

Local Open Scope N_scope.

(** The characters [encodeURIComponent] leaves alone. *)
Definition uri_unreserved (c : N) : bool :=
  is_alnum c || one_of (lit "-_.!~*'()") c.

Definition hex_digit (n : N) : N := if n <? 10 then 48 + n else 55 + n.

Definition pct (b : N) : jsstr := [37; hex_digit (b / 16); hex_digit (b mod 16)].

Definition utf8 (cp : N) : list N :=
  if cp <? 128 then [cp]
  else if cp <? 2048 then [192 + cp / 64; 128 + cp mod 64]
  else if cp <? 65536 then
    [224 + cp / 4096; 128 + (cp / 64) mod 64; 128 + cp mod 64]
  else
    [240 + cp / 262144; 128 + (cp / 4096) mod 64;
     128 + (cp / 64) mod 64; 128 + cp mod 64].

Definition is_lead_surrogate (c : N) : bool := in_range 55296 56319 c.
Definition is_trail_surrogate (c : N) : bool := in_range 56320 57343 c.

(** [encodeURIComponent(s)]; [None] is the URIError of a lone surrogate. *)
Fixpoint encodeURIComponent (s : jsstr) : option jsstr :=
  match s with
  | [] => Some []
  | c :: s' =>
      if uri_unreserved c then option_map (cons c) (encodeURIComponent s')
      else if is_trail_surrogate c then None
      else if is_lead_surrogate c then
        match s' with
        | d :: s'' =>
            if is_trail_surrogate d then
              option_map
                (app (flat_map pct
                        (utf8 (65536 + (c - 55296) * 1024 + (d - 56320)))))
                (encodeURIComponent s'')
            else None
        | [] => None
        end
      else option_map (app (flat_map pct (utf8 c))) (encodeURIComponent s')
  end.

Definition hex_val (c : N) : option N :=
  if is_digit c then Some (c - 48)
  else if in_range 65 70 c then Some (c - 55)
  else if in_range 97 102 c then Some (c - 87)
  else None.

(** One [%XY] at the head of [s]: the byte and the rest. *)
Definition read_pct (s : jsstr) : option (N * jsstr) :=
  match s with
  | p :: h :: l :: rest =>
      if p =? 37 then
        match hex_val h, hex_val l with
        | Some a, Some b => Some (16 * a + b, rest)
        | _, _ => None
        end
      else None
  | _ => None
  end.

(** [n] continuation bytes [%XY], each 10xxxxxx, added to [acc]. *)
Fixpoint read_cont (n : nat) (acc : N) (s : jsstr) : option N :=
  match n with
  | O => Some acc
  | S n' =>
      match read_pct s with
      | Some (b, rest) =>
          if in_range 128 191 b then read_cont n' (acc * 64 + (b - 128)) rest
          else None
      | None => None
      end
  end.

Definition utf16 (cp : N) : jsstr :=
  if cp <? 65536 then [cp]
  else [55296 + (cp - 65536) / 1024; 56320 + (cp - 65536) mod 1024].

(** The escape sequence at the head of [s] (which starts with a percent
    sign): its code units and how many code units of [s] it takes.
    [None] is a URIError: a truncated or non-hexadecimal escape, or
    bytes that are not the UTF-8 encoding of a code point. *)
Definition decode_escape (s : jsstr) : option (jsstr * nat) :=
  match read_pct s with
  | None => None
  | Some (b, rest) =>
      if b <? 128 then Some ([b], 3%nat)
      else if in_range 192 223 b then
        match read_cont 1 (b - 192) rest with
        | Some cp => if 128 <=? cp then Some (utf16 cp, 6%nat) else None
        | None => None
        end
      else if in_range 224 239 b then
        match read_cont 2 (b - 224) rest with
        | Some cp =>
            if (2048 <=? cp) && negb (in_range 55296 57343 cp)
            then Some (utf16 cp, 9%nat) else None
        | None => None
        end
      else if in_range 240 247 b then
        match read_cont 3 (b - 240) rest with
        | Some cp =>
            if in_range 65536 1114111 cp then Some (utf16 cp, 12%nat) else None
        | None => None
        end
      else None
  end.

(** [skip] counts the code units of the escape just decoded that are
    still to be passed over. *)
Fixpoint decodeURIComponent_from (s : jsstr) (skip : nat) : option jsstr :=
  match s with
  | [] => Some []
  | c :: s' =>
      match skip with
      | S k => decodeURIComponent_from s' k
      | O =>
          if c =? 37 then
            match decode_escape s with
            | Some (units, used) =>
                option_map (app units) (decodeURIComponent_from s' (used - 1))
            | None => None
            end
          else option_map (cons c) (decodeURIComponent_from s' 0)
      end
  end.

(** [decodeURIComponent(s)]; [None] is a URIError. *)
Definition decodeURIComponent (s : jsstr) : option jsstr :=
  decodeURIComponent_from s 0.

End Uri.
Export Uri.

(** ** The markup codec (static/mods/parsing.js) *)

Module Codec.

(** [[a-zA-Z0-9\s?\-?'?:?_?’?(\|)?]]: inside the brackets the question
    marks, the parentheses and the bar are members like the others; the
    apostrophe-like member is U+2019. *)
Definition wiki_char (c : N) : bool :=
  is_alnum c || is_space c || one_of (lit "?-':_(|)") c || N.eqb c 8217.

(** [/\[\[([a-zA-Z0-9\s?\-?'?:?_?’?(\|)?]+)\]\]/g] *)
Definition WIKI_LINK_REGEXP : regex :=
  Seq (str (lit "[[")) (Seq (plus (Cls wiki_char)) (str (lit "]]"))).

(** [[-A-Z0-9+&@#\/%=~_|$?!:.]] under the i flag. *)
Definition url_char (c : N) : bool :=
  ci (fun c => is_upper c || is_digit c || one_of (lit "-+&@#/%=~_|$?!:.") c) c.

(** [[A-Z0-9+&@#\/%=~_|$]] under the i flag. *)
Definition url_last_char (c : N) : bool :=
  ci (fun c => is_upper c || is_digit c || one_of (lit "+&@#/%=~_|$") c) c.

(** [\([-A-Z0-9+&@#\/%=~_|$?!:.]*\)] *)
Definition url_paren : regex :=
  Seq (chr 40) (Seq (Star (Cls url_char)) (chr 41)).

(** [/(?:(?:https?|ftp|file):\/\/|www\.|ftp\.)(?:\(...*\)|[...])*(?:\(...*\)|[...])/ig] *)
Definition URL_REGEXP : regex :=
  Seq (Alt (Seq (Alt (Seq (str_i (lit "http")) (opt (chr_i 115)))
                     (Alt (str_i (lit "ftp")) (str_i (lit "file"))))
                (str (lit "://")))
           (Alt (str_i (lit "www.")) (str_i (lit "ftp."))))
      (Seq (Star (Alt url_paren (Cls url_char)))
           (Alt url_paren (Cls url_last_char))).

(** [[a-zA-Z0-9.!#$%&'*+/=?^_`{|}~-]] under the i flag. *)
Definition email_local_char (c : N) : bool :=
  ci (fun c => is_alnum c || one_of (lit ".!#$%&'*+/=?^_`{|}~-") c) c.

Definition email_alnum (c : N) : bool := ci is_alnum c.
Definition email_alnum_hyphen (c : N) : bool :=
  ci (fun c => is_alnum c || N.eqb c 45) c.

(** [[a-zA-Z0-9](?:[a-zA-Z0-9-]{0,61}[a-zA-Z0-9])?] *)
Definition email_label : regex :=
  Seq (Cls email_alnum)
      (opt (Seq (Rep 61 (Cls email_alnum_hyphen)) (Cls email_alnum))).

(** [/[...]+@label(?:\.label)*/igm] *)
Definition EMAIL_REGEXP : regex :=
  Seq (plus (Cls email_local_char))
      (Seq (chr 64)
           (Seq email_label (Star (Seq (chr 46) email_label)))).

Definition image_extensions : list jsstr :=
  List.map lit ["jpg"; "jpeg"; "png"; "gif"; "webp"; "apng"; "avif"; "jfif";
                "pjpeg"; "pjp"]%string.

(** [(jpg|jpeg|png|gif|webp|apng|avif|jfif|pjpeg|pjp)], left first. *)
Fixpoint alternatives_i (l : list jsstr) : regex :=
  match l with
  | [] => Cls (fun _ => false)
  | [x] => str_i x
  | x :: rest => Alt (str_i x) (alternatives_i rest)
  end.

(** [/.*\.(jpg|jpeg|png|gif|webp|apng|avif|jfif|pjpeg|pjp)$/i] *)
Definition IMAGE_REGEXP : regex :=
  Seq (Star (Cls is_dot))
      (Seq (chr 46) (Seq (alternatives_i image_extensions) Eoi)).

(** [s.split(sep)] for a one-unit separator. *)
Fixpoint split_on (sep : N) (s : jsstr) : list jsstr :=
  match s with
  | [] => [[]]
  | c :: s' =>
      if N.eqb c sep then [] :: split_on sep s'
      else match split_on sep s' with
           | l :: ls => (c :: l) :: ls
           | [] => [[c]]
           end
  end.

(** [match[1]] of a wiki-link match: the group spans all of the match
    but the two brackets on either side. *)
Definition group1 (m0 : jsstr) : jsstr :=
  removelast (removelast (skipn 2 m0)).

(** [`<a href="${href}">${text}</a>`] *)
Definition anchor_html (href text : jsstr) : jsstr :=
  lit "<a href=" ++ dq ++ href ++ dq ++ lit ">" ++ text ++ lit "</a>".

(** One turn of the loop of [parseWikiLinks]; [None] is the URIError
    of [encodeURIComponent]. *)
Definition wiki_step (finalString : option jsstr) (m0 : jsstr)
  : option jsstr :=
  match finalString with
  | None => None
  | Some fs =>
      match split_on 124 (group1 m0) with
      | a0 :: a1 :: _ =>
          match encodeURIComponent a1 with
          | Some e => Some (replaceAll m0 (anchor_html (lit "/" ++ e) a0) fs)
          | None => None
          end
      | _ =>
          match encodeURIComponent (group1 m0) with
          | Some e =>
              Some (replaceAll m0 (anchor_html (lit "/" ++ e) (group1 m0)) fs)
          | None => None
          end
      end
  end.

Definition parseWikiLinks (text : jsstr) : option jsstr :=
  fold_left wiki_step (matchAll WIKI_LINK_REGEXP 0 text) (Some text).

Definition isSpecialtyUrl (url : jsstr) : bool := test IMAGE_REGEXP url.

Definition parseSpecialtyUrl (url : jsstr) : jsstr :=
  if test IMAGE_REGEXP url then lit "<img src=" ++ dq ++ url ++ dq ++ lit ">"
  else [].

(** One turn of the loop of [parseURLs]. *)
Definition url_step (text url : jsstr) : jsstr :=
  if isSpecialtyUrl url then replace url (parseSpecialtyUrl url) text
  else replace url (anchor_html url url) text.

(** [parseURLs(text)]; [lastIndex] is that of [URL_REGEXP] at the call,
    which [htmlToText] may have left anywhere. *)
Definition parseURLs (lastIndex : nat) (text : jsstr) : jsstr :=
  fold_left url_step (matchAll URL_REGEXP lastIndex text) text.

Definition email_step (text email : jsstr) : jsstr :=
  replace email (anchor_html (lit "mailto:" ++ email) email) text.

Definition parseEmails (text : jsstr) : jsstr :=
  fold_left email_step (matchAll EMAIL_REGEXP 0 text) text.

(** The encoding of one line. *)
Definition encodeLine (lastIndex : nat) (line : jsstr) : option jsstr :=
  option_map (fun t => parseEmails (parseURLs lastIndex t))
             (parseWikiLinks line).

Fixpoint sequence (l : list (option jsstr)) : option (list jsstr) :=
  match l with
  | [] => Some []
  | None :: _ => None
  | Some x :: rest => option_map (cons x) (sequence rest)
  end.

Definition textToHtml (lastIndex : nat) (text : jsstr) : option jsstr :=
  option_map (join (lit "<br>"))
             (sequence (List.map (encodeLine lastIndex) (split_lines text))).

End Codec.
Export Codec.

(** ** The presentation tree and [htmlToText] *)

Module Dom.

(** The tree the host hands to [htmlToText], with the properties the
    function reads: of an anchor its resolved [href], its [pathname] and
    its [innerText]; of an image its [src].  An anchor is a leaf: the
    function reads nothing below it and replaces it whole. *)
#[warnings="-register-all"]
Inductive node : Type :=
| Text (data : jsstr)
| Anchor (href pathname innerText : jsstr)
| Img (src : jsstr)
| Elem (tag : jsstr) (children : list node).

(** How one turn of the anchor loop ends. *)
Inductive flow : Type :=
| Next        (* on to the next anchor *)
| Return      (* the function returns *)
| Throw.      (* URIError of decodeURIComponent *)

(** The body of the anchor loop: what replaces the anchor, the
    [lastIndex] of [URL_REGEXP] afterwards, and how the turn ends. *)
Definition anchor_turn (lastIndex : nat) (href pathname innerText : jsstr)
  : node * (nat * flow) :=
  if includes (lit "mailto:") href then (Text innerText, (lastIndex, Next))
  else
    match decodeURIComponent pathname with
    | None => (Anchor href pathname innerText, (lastIndex, Throw))
    | Some decoded =>
        let path := slice1 decoded in
        let linkedPage := innerText in
        let (isUrl, lastIndex') := test_g URL_REGEXP lastIndex linkedPage in
        if isUrl then (Text linkedPage, (lastIndex', Return))
        else if str_eqb path linkedPage then
          (Text (lit "[[" ++ linkedPage ++ lit "]]"), (lastIndex', Return))
        else
          (Text (lit "[[" ++ linkedPage ++ lit "|" ++ path ++ lit "]]"),
           (lastIndex', Next))
    end.

(** [for (const anchor of el.querySelectorAll("a"))], in document
    order, until a turn returns or throws. *)
Fixpoint anchors_node (n : node) (st : nat * flow) : node * (nat * flow) :=
  match n with
  | Anchor href pathname innerText =>
      match snd st with
      | Next => anchor_turn (fst st) href pathname innerText
      | _ => (n, st)
      end
  | Elem tag children =>
      let (children', st') :=
        (fix go (l : list node) (st : nat * flow) : list node * (nat * flow) :=
           match l with
           | [] => ([], st)
           | x :: rest =>
               let (x', st1) := anchors_node x st in
               let (rest', st2) := go rest st1 in
               (x' :: rest', st2)
           end) children st in
      (Elem tag children', st')
  | _ => (n, st)
  end.

Fixpoint anchors (l : list node) (st : nat * flow) : list node * (nat * flow) :=
  match l with
  | [] => ([], st)
  | x :: rest =>
      let (x', st1) := anchors_node x st in
      let (rest', st2) := anchors rest st1 in
      (x' :: rest', st2)
  end.

(** [for (const image of el.querySelectorAll("img")) image.replaceWith(image.src)] *)
Fixpoint images_node (n : node) : node :=
  match n with
  | Img src => Text src
  | Elem tag children => Elem tag (List.map images_node children)
  | _ => n
  end.

Definition images (l : list node) : list node := List.map images_node l.

Inductive ending : Type :=
| Normal
| URIError.

(** [htmlToText(el)] on the children of [el]: the tree it leaves, the
    [lastIndex] of [URL_REGEXP] afterwards and how the call completes. *)
Definition htmlToText (lastIndex : nat) (el : list node)
  : list node * nat * ending :=
  let (el1, st) := anchors el (lastIndex, Next) in
  match snd st with
  | Next => (images el1, fst st, Normal)
  | Return => (el1, fst st, Normal)
  | Throw => (el1, fst st, URIError)
  end.

(** The text of a tree: a line break element reads as a newline. *)
Fixpoint node_text (n : node) : jsstr :=
  match n with
  | Text data => data
  | Anchor _ _ innerText => innerText
  | Img _ => []
  | Elem tag children =>
      if str_eqb tag (lit "br") then [10%N]
      else flat_map node_text children
  end.

Definition tree_text (l : list node) : jsstr := flat_map node_text l.

End Dom.
Export Dom.

(** ** Values and plain objects *)

Module Value.

(** The values a message carries and the registry holds.  An object is
    a plain object as a message delivers it: its own properties are
    data properties, none is a function, and its prototype is
    [Object.prototype].  An object is written out where it stands,
    except for the objects that have been made the [content] of
    [Object.prototype]: such an object is shared between
    [Object.prototype] and whoever has read a [content] that it
    inherits, so it is kept in a store and referred to by its place
    there.  No message holds such a reference. *)
#[warnings="-register-all"]
Inductive jsval : Type :=
| VUndefined
| VNull
| VStr (s : jsstr)
| VObj (props : list (jsstr * jsval))
| VRef (place : nat).

(** The own properties of a plain object, in the order [Object.keys]
    lists them: array indices first, ascending, then the other keys in
    the order they were created. *)
Definition props := list (jsstr * jsval).

(** The shared objects. *)
Definition store := list props.

Definition cell (st : store) (place : nat) : props := nth place st [].

Fixpoint update (place : nat) (o : props) (st : store) : store :=
  match st, place with
  | [], _ => []
  | _ :: rest, O => o :: rest
  | x :: rest, S n => x :: update n o rest
  end.

Definition nullish (v : jsval) : bool :=
  match v with
  | VUndefined | VNull => true
  | _ => false
  end.

(** ToBoolean *)
Definition truthy (v : jsval) : bool :=
  match v with
  | VUndefined | VNull | VStr [] => false
  | _ => true
  end.

Fixpoint lookup (k : jsstr) (o : props) : option jsval :=
  match o with
  | [] => None
  | (k', v) :: rest => if str_eqb k k' then Some v else lookup k rest
  end.

Definition has_own (k : jsstr) (o : props) : bool :=
  match lookup k o with
  | Some _ => true
  | None => false
  end.

(** ToString.  For an object it goes through ToPrimitive: an own
    [toString] property, which is no function, hides
    [Object.prototype.toString], and the [valueOf] that is then tried
    gives no primitive, so the conversion throws a TypeError ([None]);
    without it [Object.prototype.toString] answers. *)
Definition to_string (st : store) (v : jsval) : option jsstr :=
  let of_object (o : props) :=
    if has_own (lit "toString") o then None
    else Some (lit "[object Object]") in
  match v with
  | VUndefined => Some (lit "undefined")
  | VNull => Some (lit "null")
  | VStr s => Some s
  | VObj o => of_object o
  | VRef n => of_object (cell st n)
  end.

(** ToPropertyKey *)
Definition to_key (st : store) (v : jsval) : option jsstr := to_string st v.

(** What [Array.prototype.join] makes of an element. *)
Definition join_text (st : store) (v : jsval) : option jsstr :=
  match v with
  | VUndefined | VNull => Some []
  | _ => to_string st v
  end.

(** [o[k]] on own properties: a missing one reads as undefined. *)
Definition obj_get (k : jsstr) (o : props) : jsval :=
  match lookup k o with
  | Some v => v
  | None => VUndefined
  end.

(** [v.name] for a name that no prototype has ([id]); [None] is the
    TypeError of reading from undefined or null. *)
Definition get_prop (st : store) (name : jsstr) (v : jsval) : option jsval :=
  match v with
  | VUndefined | VNull => None
  | VStr _ => Some VUndefined
  | VObj o => Some (obj_get name o)
  | VRef n => Some (obj_get name (cell st n))
  end.

Fixpoint digits_value (acc : N) (s : jsstr) : option N :=
  match s with
  | [] => Some acc
  | c :: s' =>
      if is_digit c then digits_value (acc * 10 + (c - 48)) s' else None
  end.

(** The array index a key denotes, if any: a canonical numeric string
    for an integer below 2^32 - 1. *)
Definition array_index (k : jsstr) : option N :=
  match k with
  | [] => None
  | c :: rest =>
      if N.eqb c 48 && negb (match rest with [] => true | _ => false end)
      then None
      else match digits_value 0 k with
           | Some n => if N.ltb n 4294967295 then Some n else None
           | None => None
           end
  end.

Fixpoint replace_value (k : jsstr) (v : jsval) (o : props) : props :=
  match o with
  | [] => []
  | (k', v') :: rest =>
      if str_eqb k k' then (k', v) :: rest
      else (k', v') :: replace_value k v rest
  end.

(** A new array-index key goes before the first key that is a larger
    index or no index. *)
Fixpoint insert_index (n : N) (k : jsstr) (v : jsval) (o : props) : props :=
  match o with
  | [] => [(k, v)]
  | (k', v') :: rest =>
      match array_index k' with
      | Some m =>
          if N.ltb m n then (k', v') :: insert_index n k v rest
          else (k, v) :: o
      | None => (k, v) :: o
      end
  end.

(** [o[k] = v] when the assignment lands on [o] itself: the own
    property [k] takes the value, or is created. *)
Definition obj_set (k : jsstr) (v : jsval) (o : props) : props :=
  match lookup k o with
  | Some _ => replace_value k v o
  | None =>
      match array_index k with
      | Some n => insert_index n k v o
      | None => o ++ [(k, v)]
      end
  end.

(** [delete o[k]] *)
Definition obj_delete (k : jsstr) (o : props) : props :=
  filter (fun kv => negb (str_eqb k (fst kv))) o.

(** [Object.keys(o)] *)
Definition obj_keys (o : props) : list jsstr := List.map fst o.

(** [v.content = c] in module (strict) code: a TypeError ([None])
    unless [v] is an object; on an object the assignment lands on the
    object itself, whether or not a prototype has a [content].  The
    object is changed in place: what comes back is the object written
    out anew, or the store with the shared object changed. *)
Definition set_content (c v : jsval) (st : store) : option (jsval * store) :=
  match v with
  | VObj o => Some (VObj (obj_set (lit "content") c o), st)
  | VRef n => Some (VRef n, update n (obj_set (lit "content") c (cell st n)) st)
  | _ => None
  end.

(** The value as [JSON.stringify] walks it, every shared object written
    out where it is referred to; [None] is the TypeError of a value
    that leads back into itself.  Each reference followed uses up one
    of [hops]: with as many as the store has objects, they run out only
    on a path that enters some object twice. *)
Fixpoint resolve (hops : nat) (st : store) (v : jsval) {struct hops}
  : option jsval :=
  let fix tree (v : jsval) {struct v} : option jsval :=
    match v with
    | VObj o =>
        option_map VObj
          ((fix each (l : list (jsstr * jsval))
              : option (list (jsstr * jsval)) :=
              match l with
              | [] => Some []
              | (k, x) :: rest =>
                  match tree x, each rest with
                  | Some x', Some rest' => Some ((k, x') :: rest')
                  | _, _ => None
                  end
              end) o)
    | VRef n =>
        match hops with
        | O => None
        | S h => resolve h st (VObj (cell st n))
        end
    | _ => Some v
    end in
  tree v.

Definition written_out (st : store) (v : jsval) : option jsval :=
  resolve (length st) st v.

End Value.
Export Value.

(** ** The save coordinator (ComponentRegister) *)

Module Coordinator.

Inductive mstate : Type := idle | submitting | error.

Inductive mevent : Type := SUBMITTING | COMPLETE | ERROR | RESET.

Definition mstate_eqb (a b : mstate) : bool :=
  match a, b with
  | idle, idle | submitting, submitting | error, error => true
  | _, _ => false
  end.

Definition mevent_eqb (a b : mevent) : bool :=
  match a, b with
  | SUBMITTING, SUBMITTING | COMPLETE, COMPLETE
  | ERROR, ERROR | RESET, RESET => true
  | _, _ => false
  end.

(** [stateChart]: the initial state and, per state, its [on] table. *)
Record chart : Type := {
  initial : mstate;
  on : mstate -> list (mevent * mstate)
}.

Definition stateChart : chart := {|
  initial := idle;
  on := fun st =>
    match st with
    | idle => [(SUBMITTING, submitting)]
    | submitting => [(COMPLETE, idle); (ERROR, error)]
    | error => [(RESET, idle)]
    end
|}.

Fixpoint target (e : mevent) (l : list (mevent * mstate)) : option mstate :=
  match l with
  | [] => None
  | (e', st) :: rest => if mevent_eqb e e' then Some st else target e rest
  end.

(** Modelled from the spec: [StateMachine.send] of utils.js, which is
    not among the sources.  The machine starts in the chart's initial
    state; an event listed for the current state moves it to the listed
    state, and an event not listed for the current state leaves it
    where it is. *)
Definition send (c : chart) (e : mevent) (st : mstate) : mstate :=
  match target e (on c st) with
  | Some st' => st'
  | None => st
  end.

(** What lies behind the registry object [this.components]: its
    prototype, which is [Object.prototype] ([None]) until an assignment
    to the key [__proto__] puts a component object in its place; the
    property [content] of [Object.prototype], which is absent ([None])
    until an assignment puts it there; and the store of the objects
    that have been put there. *)
Record lineage : Type := {
  prototype : option props;
  object_content : option jsval;
  shared : store
}.

Definition plain : lineage :=
  {| prototype := None; object_content := None; shared := [] |}.

(** The instance: the own properties of the registry object, what lies
    behind it, and the private machine. *)
Record ComponentRegister : Type := {
  components : props;
  behind : lineage;
  machine : mstate
}.

(** [new ComponentRegister()] on a page that has not touched
    [Object.prototype]. *)
Definition new_register : ComponentRegister :=
  {| components := []; behind := plain; machine := initial stateChart |}.

Definition with_components (cs : props) (s : ComponentRegister)
  : ComponentRegister :=
  {| components := cs; behind := behind s; machine := machine s |}.

Definition with_prototype (c : props) (s : ComponentRegister)
  : ComponentRegister :=
  {| components := components s;
     behind := {| prototype := Some c;
                  object_content := object_content (behind s);
                  shared := shared (behind s) |};
     machine := machine s |}.

Definition with_shared (st : store) (s : ComponentRegister)
  : ComponentRegister :=
  {| components := components s;
     behind := {| prototype := prototype (behind s);
                  object_content := object_content (behind s);
                  shared := st |};
     machine := machine s |}.

(** [Object.prototype.content = v]: an object that is written out
    becomes a shared object from here on. *)
Definition with_object_content (v : jsval) (s : ComponentRegister)
  : ComponentRegister :=
  {| components := components s;
     behind :=
       match v with
       | VObj o =>
           {| prototype := prototype (behind s);
              object_content := Some (VRef (length (shared (behind s))));
              shared := shared (behind s) ++ [o] |}
       | _ =>
           {| prototype := prototype (behind s);
              object_content := Some v;
              shared := shared (behind s) |}
       end;
     machine := machine s |}.

Definition with_machine (st : mstate) (s : ComponentRegister)
  : ComponentRegister :=
  {| components := components s; behind := behind s; machine := st |}.

(** The body of the POST to /edit. *)
Record snapshot : Type := {
  body : jsstr;
  title : jsval;
  old_title : jsval;
  tags : jsval;
  metadata : jsval
}.

(** A message by what the handler makes of its payload [m.data]: one
    of the three types it tells apart, with the [data] of the payload;
    a payload of any other type or of none; or a payload that is
    undefined or null. *)
Inductive message : Type :=
| SAVE (data : jsval)
| REGISTER (data : jsval)
| UNREGISTER (data : jsval)
| OTHER (data : jsval)
| EMPTY.

Inductive completion : Type :=
| Returned
| TypeError.

(** What a call of the handler leaves: the instance, the writes it
    issued and how it completed. *)
Record outcome : Type := {
  after : ComponentRegister;
  writes : list snapshot;
  result : completion
}.

(** How the promise of [fetch] settles. *)
Inductive response : Type :=
| Resolved (status : N)
| Rejected.

(** The properties of [Object.prototype] that are functions. *)
Definition object_prototype_methods : list jsstr :=
  List.map lit
    ["constructor"; "__defineGetter__"; "__defineSetter__";
     "hasOwnProperty"; "__lookupGetter__"; "__lookupSetter__";
     "isPrototypeOf"; "propertyIsEnumerable"; "toString"; "valueOf";
     "toLocaleString"]%string.

(** What [this.components[key]] finds, and where: an own property; a
    property of the prototype object [c], if the registry has been
    given one; at [Object.prototype] the accessor [__proto__], whose
    getter returns the prototype of the registry (the object [c], or
    [Object.prototype] itself), one of the functions, or the [content]
    that an assignment has put there; or nothing. *)
Inductive found : Type :=
| Own (v : jsval)
| Inherited (c : props) (v : jsval)
| ThePrototype (c : option props)
| Method
| ObjectContent (v : jsval)
| Missing.

Definition find (key : jsstr) (s : ComponentRegister) : found :=
  let at_object_prototype :=
    if str_eqb key (lit "__proto__") then ThePrototype (prototype (behind s))
    else if existsb (str_eqb key) object_prototype_methods then Method
    else if str_eqb key (lit "content") then
           match object_content (behind s) with
           | Some v => ObjectContent v
           | None => Missing
           end
    else Missing in
  match lookup key (components s) with
  | Some v => Own v
  | None =>
      match prototype (behind s) with
      | Some c =>
          match lookup key c with
          | Some v => Inherited c v
          | None => at_object_prototype
          end
      | None => at_object_prototype
      end
  end.

(** [this.components[key]] for a key that [Object.prototype] has no
    property for ([title], [tag], [metadata]). *)
Definition chain_get (key : jsstr) (s : ComponentRegister) : jsval :=
  match lookup key (components s) with
  | Some v => v
  | None =>
      match prototype (behind s) with
      | Some c => obj_get key c
      | None => VUndefined
      end
  end.

(** [v.content]: an own property, or else the [content] of
    [Object.prototype] if there is one; [None] is the TypeError of
    reading from undefined or null. *)
Definition get_content (b : lineage) (v : jsval) : option jsval :=
  let inherited := match object_content b with
                   | Some x => x
                   | None => VUndefined
                   end in
  let of_object (o : props) :=
    match lookup (lit "content") o with
    | Some x => x
    | None => inherited
    end in
  match v with
  | VUndefined | VNull => None
  | VStr _ => Some inherited
  | VObj o => Some (of_object o)
  | VRef n => Some (of_object (cell (shared b) n))
  end.

(** Whether [this.components[key] = v] lands on the registry object:
    it does unless it reaches the setter of [__proto__] at
    [Object.prototype], that is, unless the key is [__proto__] and
    neither the registry nor its prototype object has such a property
    of its own. *)
Definition lands (key : jsstr) (s : ComponentRegister) : bool :=
  negb (str_eqb key (lit "__proto__"))
  || has_own key (components s)
  || match prototype (behind s) with
     | Some c => has_own key c
     | None => false
     end.

(** [this.components[key] = component] for a component that is an
    object or a string: the setter of [__proto__] makes an object the
    prototype of the registry and ignores a string. *)
Definition assign (key : jsstr) (component : jsval) (s : ComponentRegister)
  : ComponentRegister :=
  if lands key s then with_components (obj_set key component (components s)) s
  else match component with
       | VObj o => with_prototype o s
       | _ => s
       end.

(** [register]: [const { id } = component; this.components[id] = component];
    [None] is the TypeError of destructuring undefined or null, or of
    an id that cannot be made a key. *)
Definition register (component : jsval) (s : ComponentRegister)
  : option ComponentRegister :=
  match get_prop (shared (behind s)) (lit "id") component with
  | Some id =>
      match to_key (shared (behind s)) id with
      | Some key => Some (assign key component s)
      | None => None
      end
  | None => None
  end.

(** [unregister]: [delete this.components[id]]; [None] is the TypeError
    of an id that cannot be made a key. *)
Definition unregister (id : jsval) (s : ComponentRegister)
  : option ComponentRegister :=
  match to_key (shared (behind s)) id with
  | Some key => Some (with_components (obj_delete key (components s)) s)
  | None => None
  end.

(** [getType]: the reduce over [Object.keys(this.components)]. *)
Definition getType (type : jsstr) (cs : props) : list jsval :=
  fold_left
    (fun arr key => if includes type key then arr ++ [obj_get key cs] else arr)
    (obj_keys cs) [].

(** [dump] *)
Definition dump (cs : props) : props := cs.

(** [if (messageData) this.components[messageData.id].content = messageData.content]:
    the object that the lookup finds is changed in place, be it a
    registered component, a property of the prototype object, the
    prototype object, [Object.prototype], one of its functions (whose
    properties nothing here reads) or a shared object. *)
Definition merge (messageData : jsval) (s : ComponentRegister)
  : option ComponentRegister :=
  let st := shared (behind s) in
  if truthy messageData then
    match get_prop st (lit "id") messageData,
          get_content (behind s) messageData with
    | Some id, Some content =>
        match to_key st id with
        | None => None
        | Some key =>
            match find key s with
            | Own v =>
                match set_content content v st with
                | Some (v', st') =>
                    Some (with_shared st'
                            (with_components
                               (replace_value key v' (components s)) s))
                | None => None
                end
            | Inherited c v =>
                match set_content content v st with
                | Some (v', st') =>
                    Some (with_shared st'
                            (with_prototype (replace_value key v' c) s))
                | None => None
                end
            | ThePrototype (Some c) =>
                Some (with_prototype (obj_set (lit "content") content c) s)
            | ThePrototype None => Some (with_object_content content s)
            | Method => Some s
            | ObjectContent v =>
                match set_content content v st with
                | Some (v', st') =>
                    Some {| components := components s;
                            behind := {| prototype := prototype (behind s);
                                         object_content := Some v';
                                         shared := st' |};
                            machine := machine s |}
                | None => None
                end
            | Missing => None
            end
        end
    | _, _ => None
    end
  else Some s.

(** [.map((b) => b.content)] *)
Fixpoint contents (b : lineage) (l : list jsval) : option (list jsval) :=
  match l with
  | [] => Some []
  | x :: rest =>
      match get_content b x, contents b rest with
      | Some c, Some cs => Some (c :: cs)
      | _, _ => None
      end
  end.

(** [.join("\n")] *)
Definition join_lines (st : store) (l : list jsval) : option jsstr :=
  option_map (join [10%N]) (sequence (List.map (join_text st) l)).

Section Host.

(** The globals of the page and of dom.js, which are not among the
    sources: the title the page was loaded with, and whether
    [updateMRU] returns rather than throws on a title. *)
Variable CURRENT_TITLE : jsval.
Variable updateMRU : jsval -> bool.

(** The middle of [savePage]: the constructed body, as
    [JSON.stringify] writes it out. *)
Definition assemble (s : ComponentRegister) : option snapshot :=
  let b := behind s in
  match get_content b (chain_get (lit "title") s) with
  | None => None
  | Some title =>
      match contents b (getType (lit "block") (components s)) with
      | None => None
      | Some blocks =>
          match join_lines (shared b) blocks with
          | None => None
          | Some body =>
              match get_content b (chain_get (lit "tag") s) with
              | None => None
              | Some tags =>
                  match get_content b (chain_get (lit "metadata") s) with
                  | None => None
                  | Some metadata =>
                      match written_out (shared b) title,
                            written_out (shared b) tags,
                            written_out (shared b) metadata with
                      | Some title', Some tags', Some metadata' =>
                          Some {| body := body;
                                  title := title';
                                  old_title := CURRENT_TITLE;
                                  tags := tags';
                                  metadata := metadata' |}
                      | _, _, _ => None
                      end
                  end
              end
          end
      end
  end.

(** [savePage], up to and including the call of [fetch]. *)
Definition savePage (messageData : jsval) (s : ComponentRegister) : outcome :=
  let s0 := with_machine (send stateChart SUBMITTING (machine s)) s in
  match merge messageData s0 with
  | None => {| after := s0; writes := []; result := TypeError |}
  | Some s1 =>
      match assemble s1 with
      | None => {| after := s1; writes := []; result := TypeError |}
      | Some snap => {| after := s1; writes := [snap]; result := Returned |}
      end
  end.

(** [handleMessage]: destructuring a payload that is undefined or null
    throws; the UNREGISTER case has no break and runs on into the
    REGISTER case. *)
Definition handleMessage (m : message) (s : ComponentRegister) : outcome :=
  match m with
  | SAVE messageData =>
      if mstate_eqb (machine s) idle then savePage messageData s
      else {| after := s; writes := []; result := Returned |}
  | UNREGISTER messageData =>
      match unregister messageData s with
      | None => {| after := s; writes := []; result := TypeError |}
      | Some s1 =>
          match register messageData s1 with
          | Some s2 => {| after := s2; writes := []; result := Returned |}
          | None => {| after := s1; writes := []; result := TypeError |}
          end
      end
  | REGISTER messageData =>
      match register messageData s with
      | Some s1 => {| after := s1; writes := []; result := Returned |}
      | None => {| after := s; writes := []; result := TypeError |}
      end
  | OTHER _ => {| after := s; writes := []; result := Returned |}
  | EMPTY => {| after := s; writes := []; result := TypeError |}
  end.

(** The [.then] and [.catch] callbacks of the write of [snap]: an
    exception of [updateMRU] lands in the [.catch] like a rejection. *)
Definition settle (snap : snapshot) (r : response) (s : ComponentRegister)
  : ComponentRegister :=
  match r with
  | Resolved status =>
      if N.ltb status 400 then
        if updateMRU (title snap) then
          with_machine (send stateChart COMPLETE (machine s)) s
        else
          with_machine (send stateChart ERROR (machine s)) s
      else s
  | Rejected => with_machine (send stateChart ERROR (machine s)) s
  end.

(** Messages handled one after the other with no write settling in
    between: the instance at the end and the writes issued on the way. *)
Fixpoint deliver (ms : list message) (s : ComponentRegister)
  : ComponentRegister * list snapshot :=
  match ms with
  | [] => (s, [])
  | m :: rest =>
      let o := handleMessage m s in
      let (s', ws) := deliver rest (after o) in
      (s', writes o ++ ws)
  end.

(** One browser context: the instance, the writes in flight and all
    the writes issued so far. *)
Record world : Type := {
  coordinator : ComponentRegister;
  inflight : list snapshot;
  issued : list snapshot
}.

Definition init_world : world :=
  {| coordinator := new_register; inflight := []; issued := [] |}.

(** What happens in a context, one at a time: a message is delivered,
    the oldest write in flight settles, or RESET is sent from outside. *)
Inductive step : world -> world -> Prop :=
| step_deliver w m :
    step w {| coordinator := after (handleMessage m (coordinator w));
              inflight := inflight w ++ writes (handleMessage m (coordinator w));
              issued := issued w ++ writes (handleMessage m (coordinator w)) |}
| step_settle w snap rest r :
    inflight w = snap :: rest ->
    step w {| coordinator := settle snap r (coordinator w);
              inflight := rest;
              issued := issued w |}
| step_reset w :
    step w {| coordinator :=
                with_machine (send stateChart RESET (machine (coordinator w)))
                             (coordinator w);
              inflight := inflight w;
              issued := issued w |}.

Inductive reachable : world -> Prop :=
| reach_init : reachable init_world
| reach_step w w' : reachable w -> step w w' -> reachable w'.

End Host.

End Coordinator.
Export Coordinator.

(** ** The specification's side *)

Module Spec.

(** The registry as the specification describes it: the ids in the
    order of their first insertion, alongside the mapping from id to
    component. *)
Record registry : Type := {
  order : list jsstr;
  entry : jsstr -> option jsval
}.

Definition empty : registry := {| order := []; entry := fun _ => None |}.

Definition mem (k : jsstr) (l : list jsstr) : bool := existsb (str_eqb k) l.

(** register(component): inserts or overwrites by id, keeping the
    position of the first insertion. *)
Definition spec_register (k : jsstr) (v : jsval) (r : registry) : registry :=
  {| order := if mem k (order r) then order r else order r ++ [k];
     entry := fun k' => if str_eqb k' k then Some v else entry r k' |}.

(** unregister(id): removes by id; nothing happens if it is absent. *)
Definition spec_unregister (k : jsstr) (r : registry) : registry :=
  {| order := filter (fun k' => negb (str_eqb k k')) (order r);
     entry := fun k' => if str_eqb k' k then None else entry r k' |}.

(** getByPrefix(typePrefix): the components whose id contains the
    prefix, in registry order. *)
Definition spec_getByPrefix (t : jsstr) (r : registry) : list jsval :=
  flat_map (fun k => match entry r k with Some v => [v] | None => [] end)
           (filter (includes t) (order r)).

(** The calls made on a registry. *)
Inductive call : Type :=
| Register (component : jsval)
| Unregister (id : jsstr).

(** The key under which [register] files a component; there is none
    when the component is undefined or null, or when its id cannot be
    made a key. *)
Definition id_of (st : store) (component : jsval) : option jsstr :=
  match get_prop st (lit "id") component with
  | Some id => to_key st id
  | None => None
  end.

Fixpoint spec_run (cs : list call) (r : registry) : registry :=
  match cs with
  | [] => r
  | Register c :: rest =>
      match id_of [] c with
      | Some k => spec_run rest (spec_register k c r)
      | None => spec_run rest r
      end
  | Unregister k :: rest => spec_run rest (spec_unregister k r)
  end.

(** The same calls on the instance of the code; [None] when one of
    them throws. *)
Fixpoint run (cs : list call) (s : ComponentRegister)
  : option ComponentRegister :=
  match cs with
  | [] => Some s
  | Register c :: rest =>
      match register c s with
      | Some s' => run rest s'
      | None => None
      end
  | Unregister k :: rest =>
      match unregister (VStr k) s with
      | Some s' => run rest s'
      | None => None
      end
  end.

(** The object of the code holds what the registry of the specification
    holds, in the same order. *)
Definition refines (o : props) (r : registry) : Prop :=
  obj_keys o = order r /\ forall k, lookup k o = entry r k.

(** A call the statement about ordering covers: a component filed
    under a key that is no array index and not [__proto__]. *)
Definition ordinary (c : call) : bool :=
  match c with
  | Register v =>
      match id_of [] v with
      | Some k =>
          match array_index k with Some _ => false | None => true end
          && negb (str_eqb k (lit "__proto__"))
      | None => false
      end
  | Unregister _ => true
  end.

(** The registry holds a component object of its own under [k]. *)
Definition holds_object (k : jsstr) (cs : props) : bool :=
  match lookup k cs with
  | Some (VObj _) => true
  | _ => false
  end.

Definition no_nullish_entry (cs : props) : bool :=
  forallb (fun kv => negb (nullish (snd kv))) cs.

(** A value that can be turned into a string: anything but an object
    with a [toString] property of its own. *)
Definition has_text (st : store) (v : jsval) : bool :=
  match to_string st v with
  | Some _ => true
  | None => false
  end.

(** A value that [JSON.stringify] can write out: one that does not
    lead back into itself. *)
Definition can_be_written (st : store) (v : jsval) : bool :=
  match written_out st v with
  | Some _ => true
  | None => false
  end.

(** [v.content] can be read and turned into a string. *)
Definition content_has_text (b : lineage) (v : jsval) : bool :=
  match get_content b v with
  | Some c => has_text (shared b) c
  | None => false
  end.

(** [v.content] can be read and written out. *)
Definition content_can_be_written (b : lineage) (v : jsval) : bool :=
  match get_content b v with
  | Some c => can_be_written (shared b) c
  | None => false
  end.

(** The body can be assembled: the content of title, tag and metadata
    can be read and written out, and the content of every block can be
    read and turned into a string. *)
Definition ready (s : ComponentRegister) : bool :=
  content_can_be_written (behind s) (chain_get (lit "title") s)
  && content_can_be_written (behind s) (chain_get (lit "tag") s)
  && content_can_be_written (behind s) (chain_get (lit "metadata") s)
  && forallb (content_has_text (behind s))
             (getType (lit "block") (components s)).

(** A partial that can be merged without reaching past the registry:
    it names a component object that the registry holds as its own,
    and its content can be turned into a string and written out. *)
Definition mergeable (d : jsval) (s : ComponentRegister) : bool :=
  match id_of (shared (behind s)) d with
  | Some k => holds_object k (components s)
  | None => false
  end
  && content_has_text (behind s) d
  && content_can_be_written (behind s) d.

(** The messages for which the handler is stated to return normally:
    REGISTER with data that has a key to be filed under, UNREGISTER
    with data that can be made a key and has a key to be filed under,
    a payload of any other type, any SAVE outside idle, and in idle a
    SAVE whose partial is absent or mergeable, on a registry that is
    ready. *)
Definition quiet (m : message) (s : ComponentRegister) : bool :=
  match m with
  | REGISTER d =>
      match id_of (shared (behind s)) d with
      | Some _ => true
      | None => false
      end
  | UNREGISTER d =>
      match to_key (shared (behind s)) d, id_of (shared (behind s)) d with
      | Some _, Some _ => true
      | _, _ => false
      end
  | OTHER _ => true
  | EMPTY => false
  | SAVE d =>
      negb (mstate_eqb (machine s) idle)
      || ((negb (truthy d) || mergeable d s) && ready s)
  end.

(** [s.split(m)] for a non-empty [m]: the pieces between the
    successive occurrences of [m], left to right and without overlap;
    [skip] counts the code units of the occurrence just found that are
    still to be passed over. *)
Fixpoint cut_from (m s : jsstr) (skip : nat) : list jsstr :=
  match s with
  | [] => [[]]
  | c :: s' =>
      match skip with
      | S k => cut_from m s' k
      | O =>
          if starts_with m s then [] :: cut_from m s' (length m - 1)
          else match cut_from m s' 0 with
               | p :: ps => (c :: p) :: ps
               | [] => [[c]]
               end
      end
  end.

Definition cut (m s : jsstr) : list jsstr := cut_from m s 0.

(** The text one turn of [parseWikiLinks] puts in place of the match. *)
Definition wiki_anchor (m0 : jsstr) : option jsstr :=
  match split_on 124 (group1 m0) with
  | a0 :: a1 :: _ =>
      option_map (fun e => anchor_html (lit "/" ++ e) a0)
                 (encodeURIComponent a1)
  | _ =>
      option_map (fun e => anchor_html (lit "/" ++ e) (group1 m0))
                 (encodeURIComponent (group1 m0))
  end.

(** The text one turn of [parseURLs] puts in place of the match. *)
Definition url_anchor (url : jsstr) : jsstr :=
  if isSpecialtyUrl url then parseSpecialtyUrl url else anchor_html url url.

(** The text one turn of [parseEmails] puts in place of the match. *)
Definition email_anchor (email : jsstr) : jsstr :=
  anchor_html (lit "mailto:" ++ email) email.

(** Only the first occurrence of [m] replaced, by [repl] with its
    dollar patterns filled in. *)
Definition first_replaced (m repl text : jsstr) : jsstr :=
  match cut m text with
  | p0 :: p1 :: rest =>
      p0 ++ get_substitution m p0 (join m (p1 :: rest)) repl
         ++ join m (p1 :: rest)
  | _ => text
  end.

(** Every occurrence of [m] replaced by [repl]. *)
Definition all_replaced (m repl text : jsstr) : jsstr :=
  join repl (cut m text).

(** Equal to a member of a class under the i flag, unit by unit. *)
Definition same_nocase (x t : jsstr) : Prop :=
  Forall2 (fun c d => ci (N.eqb c) d = true) x t.

(** Ends with, letter case of ASCII letters aside. *)
Definition ends_with_nocase (suffix s : jsstr) : bool :=
  ends_with (List.map ascii_lower suffix) (List.map ascii_lower s).

(** The text ends with a dot and one of the image extensions. *)
Definition has_image_extension (s : jsstr) : bool :=
  existsb (fun e => ends_with_nocase (46%N :: e) s) image_extensions.

Fixpoint before_any (stops : list N) (s : jsstr) : jsstr :=
  match s with
  | [] => []
  | c :: s' => if one_of stops c then [] else c :: before_any stops s'
  end.

Fixpoint after_first (p s : jsstr) : option jsstr :=
  if starts_with p s then Some (skipn (length p) s)
  else match s with
       | [] => None
       | _ :: s' => after_first p s'
       end.

Fixpoint from_first (c : N) (s : jsstr) : jsstr :=
  match s with
  | [] => []
  | d :: s' => if N.eqb c d then s else from_first c s'
  end.

(** The path of a URL: what follows the scheme and the authority, up
    to the query string or the fragment. *)
Definition url_path (url : jsstr) : jsstr :=
  let u := before_any (lit "?#") url in
  match after_first (lit "://") u with
  | Some rest => from_first 47 rest
  | None => from_first 47 u
  end.

(** isImageUrl as the specification words it. *)
Definition path_is_image (url : jsstr) : bool :=
  has_image_extension (url_path url).

End Spec.
Export Spec.

(** ** Sample data *)

Module Sample.

Definition component (id content : string) : jsval :=
  VObj [(lit "id", VStr (lit id)); (lit "content", VStr (lit content))].

(** A page with a title, two blocks, a tag line and metadata. *)
Definition page : props :=
  [(lit "title", component "title" "Home");
   (lit "block-1", component "block-1" "first");
   (lit "block-2", component "block-2" "second");
   (lit "tag", component "tag" "wiki");
   (lit "metadata", component "metadata" "draft")].

Definition page_snapshot (CURRENT_TITLE : jsval) : snapshot :=
  {| body := lit "first" ++ [10%N] ++ lit "second";
     title := VStr (lit "Home");
     old_title := CURRENT_TITLE;
     tags := VStr (lit "wiki");
     metadata := VStr (lit "draft") |}.

(** What the host's parser makes of [<a href="/A">A</a> <a href="/B">B</a>]
    on a page of https://wiki.example. *)
Definition two_links : list node :=
  [Anchor (lit "https://wiki.example/A") (lit "/A") (lit "A");
   Text (lit " ");
   Anchor (lit "https://wiki.example/B") (lit "/B") (lit "B")].

End Sample.

(** ** Vocabulary of the further properties *)

(** A unit that none of the three patterns needs: no opening bracket,
    colon, dot or at sign. *)
Definition plain_unit (c : N) : bool := negb (one_of (lit "[:.@") c).

(** A unit of a link's alias or target: one the wiki-link pattern takes
    between the brackets, the colon and the bar apart. *)
Definition link_unit (c : N) : bool :=
  wiki_char c && negb (N.eqb c 58) && negb (N.eqb c 124).

(** The wiki-link [[content]]. *)
Definition wiki_link (content : jsstr) : jsstr :=
  lit "[[" ++ content ++ lit "]]".

(** The units the URL and email patterns need: dot, colon, at sign. *)
Definition span_unit (x : N) : Prop := x = 46%N \/ x = 58%N \/ x = 64%N.

(** A tree whose anchors are all mailto links. *)
Fixpoint only_mailto (n : node) : bool :=
  match n with
  | Anchor href _ _ => includes (lit "mailto:") href
  | Elem _ children => forallb only_mailto children
  | _ => true
  end.

(** The tree with every anchor replaced by its text. *)
Fixpoint mail_text (n : node) : node :=
  match n with
  | Anchor _ _ innerText => Text innerText
  | Elem tag children => Elem tag (List.map mail_text children)
  | _ => n
  end.

(** A registry without a repeated key and without an undefined or null
    entry. *)
Definition sound_registry (cs : props) : Prop :=
  NoDup (obj_keys cs) /\ no_nullish_entry cs = true.

(** Any number of steps of the world. *)
Inductive steps (CURRENT_TITLE : jsval) (updateMRU : jsval -> bool)
  : world -> world -> Prop :=
| steps_refl w : steps CURRENT_TITLE updateMRU w w
| steps_step w w1 w2 :
    step CURRENT_TITLE updateMRU w w1 ->
    steps CURRENT_TITLE updateMRU w1 w2 ->
    steps CURRENT_TITLE updateMRU w w2.

Definition is_save (m : message) : bool :=
  match m with SAVE _ => true | _ => false end.

Section Arrive.
Variable CURRENT_TITLE : jsval.

(** The world after a message has been delivered. *)
Definition arrive1 (m : message) (w : world) : world :=
  {| coordinator := after (handleMessage CURRENT_TITLE m (coordinator w));
     inflight :=
       inflight w ++ writes (handleMessage CURRENT_TITLE m (coordinator w));
     issued :=
       issued w ++ writes (handleMessage CURRENT_TITLE m (coordinator w)) |}.

Definition arrive (ms : list message) (w : world) : world :=
  fold_left (fun w m => arrive1 m w) ms w.

End Arrive.

(** The messages that register the components of the sample page. *)
Definition sample_registrations : list message :=
  List.map (fun kv => REGISTER (snd kv)) Sample.page.

(** The sample page once registered, and once a SAVE has been sent. *)
Definition registered_world : world :=
  arrive VUndefined sample_registrations init_world.

Definition saving_world : world :=
  arrive VUndefined (sample_registrations ++ [SAVE VUndefined]) init_world.

(** ** Page shortcuts (static/script.js) *)

Module Script.

Section Page.

(** A control that has no numeric [selectionStart] but has
    [createTextRange] is known by a state of the host's own; what
    [el.focus(); range = el.createTextRange(); range.collapse(false);
    range.select()] makes of it is the host's. *)
Context {ranged : Type}.
Variable collapse_and_select : ranged -> ranged.

(** An element as the two caret functions tell it apart. *)
Inductive control : Type :=
| Numeric (value : jsstr) (selectionStart selectionEnd : nat)
| Ranged (r : ranged)
| Bare.

(** [moveCaretToEnd] *)
Definition moveCaretToEnd (el : control) : control :=
  match el with
  | Numeric value _ _ => Numeric value (length value) (length value)
  | Ranged r => Ranged (collapse_and_select r)
  | Bare => Bare
  end.

(** [moveCaretToStart] *)
Definition moveCaretToStart (el : control) : control :=
  match el with
  | Numeric value _ _ => Numeric value 0 0
  | Ranged r => Ranged (collapse_and_select r)
  | Bare => Bare
  end.

(** What the script reads and writes of the page: the textarea #body,
    the checkbox #edit with its [checked], the link #linkto with its
    [href], and [window.location.pathname]. *)
Record page : Type := {
  body_field : option control;
  edit_box : option bool;
  linkto : option jsstr;
  pathname : jsstr
}.

(** [edit] *)
Definition edit (p : page) : page :=
  match edit_box p with
  | Some _ =>
      {| body_field := body_field p; edit_box := Some true;
         linkto := linkto p; pathname := pathname p |}
  | None => p
  end.

(** [search]: the assignment to [window.location.pathname]; the page
    load that follows it is not modelled. *)
Definition search (p : page) : page :=
  {| body_field := body_field p; edit_box := edit_box p;
     linkto := linkto p; pathname := lit "/search" |}.

(** [jumpNew] *)
Definition jumpNew (p : page) : page :=
  {| body_field := body_field p; edit_box := edit_box p;
     linkto := linkto p; pathname := lit "/new" |}.

(** Where a key event is aimed. *)
Inductive target : Type :=
| OnBody          (* e.target === document.body *)
| OnField         (* the textarea #body *)
| Elsewhere.

(** [textarea.onkeydown], set only when the textarea exists. *)
Definition field_onkeydown (key : jsstr) (p : page) : page :=
  match body_field p with
  | Some el =>
      if str_eqb key (lit "Home") then
        {| body_field := Some (moveCaretToStart el); edit_box := edit_box p;
           linkto := linkto p; pathname := pathname p |}
      else if str_eqb key (lit "End") then
        {| body_field := Some (moveCaretToEnd el); edit_box := edit_box p;
           linkto := linkto p; pathname := pathname p |}
      else p
  | None => p
  end.

(** [document.onkeydown] *)
Definition document_onkeydown (t : target) (key : jsstr) (p : page) : page :=
  match t with
  | OnBody =>
      if str_eqb key (lit "e") then edit p
      else if str_eqb key (lit "/") then search p
      else if str_eqb key (lit "n") then jumpNew p
      else p
  | _ => p
  end.

(** A key pressed: the handler of the field when the event is aimed at
    it, then, the event bubbling, the handler of the document. *)
Definition keydown (ev : target * jsstr) (p : page) : page :=
  let p1 := match fst ev with
            | OnField => field_onkeydown (snd ev) p
            | _ => p
            end in
  document_onkeydown (fst ev) (snd ev) p1.

Definition keys (evs : list (target * jsstr)) (p : page) : page :=
  fold_left (fun p ev => keydown ev p) evs p.

(** [replaceLinkTo]: with the page it leaves, whether it returned
    ([true]) or threw a TypeError on the missing element ([false]). *)
Definition replaceLinkTo (p : page) : page * bool :=
  match linkto p with
  | Some _ => (p, true)
  | None => (p, false)
  end.

End Page.

Arguments control ranged : clear implicits.
Arguments page ranged : clear implicits.

End Script.

(** * Properties *)

(** ** Strings and objects *)

Lemma str_eqb_refl (a : jsstr) : str_eqb a a = true.
Proof.
  induction a as [|c a IH]; simpl; [reflexivity|].
  now rewrite N.eqb_refl, IH.
Qed.

Lemma str_eqb_eq (a b : jsstr) : str_eqb a b = true <-> a = b.
Proof.
  split.
  - revert b; induction a as [|c a IH]; intros [|d b]; simpl; try discriminate.
    + reflexivity.
    + intros H. apply andb_true_iff in H as [Hc Hr].
      apply N.eqb_eq in Hc. now rewrite Hc, (IH b Hr).
  - intros ->. apply str_eqb_refl.
Qed.

Lemma str_eqb_neq (a b : jsstr) : str_eqb a b = false <-> a <> b.
Proof.
  split.
  - intros H E. apply str_eqb_eq in E. congruence.
  - intros H. destruct (str_eqb a b) eqn:E; [|reflexivity].
    apply str_eqb_eq in E. contradiction.
Qed.

Lemma str_eqb_sym (a b : jsstr) : str_eqb a b = str_eqb b a.
Proof.
  destruct (str_eqb a b) eqn:E1, (str_eqb b a) eqn:E2; try reflexivity.
  - apply str_eqb_eq in E1. subst. now rewrite str_eqb_refl in E2.
  - apply str_eqb_eq in E2. subst. now rewrite str_eqb_refl in E1.
Qed.

Lemma keys_replace_value k v (o : props) :
  obj_keys (replace_value k v o) = obj_keys o.
Proof.
  unfold obj_keys.
  induction o as [|[k' v'] o IH]; simpl; [reflexivity|].
  destruct (str_eqb k k'); simpl; [reflexivity|].
  f_equal. exact IH.
Qed.

Lemma lookup_replace_value k v k' (o : props) :
  lookup k' (replace_value k v o) =
  if str_eqb k' k then option_map (fun _ => v) (lookup k o) else lookup k' o.
Proof.
  induction o as [|[k0 v0] o IH]; simpl.
  - now destruct (str_eqb k' k).
  - destruct (str_eqb k k0) eqn:E; simpl.
    + apply str_eqb_eq in E. subst k0.
      now destruct (str_eqb k' k).
    + rewrite IH. destruct (str_eqb k' k) eqn:E'; [|reflexivity].
      apply str_eqb_eq in E'. subst k'. now rewrite E.
Qed.

Lemma lookup_In k v (o : props) :
  lookup k o = Some v -> In (k, v) o.
Proof.
  induction o as [|[k' v'] o IH]; simpl; [discriminate|].
  destruct (str_eqb k k') eqn:E.
  - apply str_eqb_eq in E. subst. intros [= ->]. now left.
  - intros H. right. now apply IH.
Qed.

Lemma lookup_key k (o : props) :
  In k (obj_keys o) -> exists v, lookup k o = Some v.
Proof.
  induction o as [|[k' v'] o IH]; simpl; [contradiction|].
  intros [E|H].
  - subst. rewrite str_eqb_refl. eauto.
  - destruct (str_eqb k k'); eauto.
Qed.

Lemma mem_keys_lookup k (o : props) :
  mem k (obj_keys o) = match lookup k o with Some _ => true | None => false end.
Proof.
  unfold mem, obj_keys.
  induction o as [|[k' v'] o IH]; simpl; [reflexivity|].
  destruct (str_eqb k k'); simpl; [reflexivity|exact IH].
Qed.

Lemma lookup_app k (o o' : props) :
  lookup k (o ++ o') =
  match lookup k o with Some v => Some v | None => lookup k o' end.
Proof.
  induction o as [|[k' v'] o IH]; simpl; [reflexivity|].
  destruct (str_eqb k k'); [reflexivity|exact IH].
Qed.

Lemma keys_delete k (o : props) :
  obj_keys (obj_delete k o) =
  filter (fun k' => negb (str_eqb k k')) (obj_keys o).
Proof.
  unfold obj_keys, obj_delete.
  induction o as [|[k' v'] o IH]; simpl; [reflexivity|].
  destruct (str_eqb k k'); simpl; [exact IH|f_equal; exact IH].
Qed.

Lemma lookup_delete k k' (o : props) :
  lookup k' (obj_delete k o) = if str_eqb k' k then None else lookup k' o.
Proof.
  unfold obj_delete.
  induction o as [|[k0 v0] o IH]; simpl.
  - now destruct (str_eqb k' k).
  - destruct (str_eqb k k0) eqn:E; simpl.
    + apply str_eqb_eq in E. subst k0. rewrite IH.
      now destruct (str_eqb k' k).
    + rewrite IH. destruct (str_eqb k' k) eqn:E'; [|reflexivity].
      apply str_eqb_eq in E'. subst k'. now rewrite E.
Qed.

Lemma flat_map_filter {A B : Type} (p : A -> bool) (f : A -> list B)
      (l : list A) :
  flat_map f (filter p l) = flat_map (fun x => if p x then f x else []) l.
Proof.
  induction l as [|x l IH]; simpl; [reflexivity|].
  destruct (p x); simpl; now rewrite IH.
Qed.

Lemma flat_map_ext_on {A B : Type} (f g : A -> list B) (l : list A) :
  (forall x, In x l -> f x = g x) -> flat_map f l = flat_map g l.
Proof.
  induction l as [|x l IH]; simpl; intros H; [reflexivity|].
  rewrite (H x) by now left.
  rewrite IH; [reflexivity|]. intros y Hy. apply H. now right.
Qed.

(** Filing under a key that is present keeps every key where it is. *)
Lemma obj_set_present k v (o : props) :
  In k (obj_keys o) ->
  obj_keys (obj_set k v o) = obj_keys o /\ lookup k (obj_set k v o) = Some v.
Proof.
  intros Hin. destruct (lookup_key k o Hin) as [v0 L].
  unfold obj_set. rewrite L. split.
  - apply keys_replace_value.
  - now rewrite lookup_replace_value, str_eqb_refl, L.
Qed.

Lemma lookup_insert_index (n : N) (k k' : jsstr) (v : jsval) (o : props) :
  lookup k o = None ->
  lookup k' (insert_index n k v o) =
  if str_eqb k' k then Some v else lookup k' o.
Proof.
  induction o as [|[k0 v0] o IH]; intros H; simpl.
  - reflexivity.
  - simpl in H. destruct (str_eqb k k0) eqn:E0; [discriminate|].
    assert (G : lookup k' ((k, v) :: (k0, v0) :: o) =
                if str_eqb k' k then Some v
                else if str_eqb k' k0 then Some v0 else lookup k' o)
      by reflexivity.
    destruct (array_index k0) as [m|]; [|exact G].
    destruct (N.ltb m n); [|exact G].
    simpl. rewrite (IH H).
    destruct (str_eqb k' k0) eqn:E1; [|reflexivity].
    destruct (str_eqb k' k) eqn:E2; [|reflexivity].
    apply str_eqb_eq in E1, E2. subst. now rewrite str_eqb_refl in E0.
Qed.

(** What is filed under a key is read back, and no other key is
    disturbed. *)
Lemma lookup_obj_set (k k' : jsstr) (v : jsval) (o : props) :
  lookup k' (obj_set k v o) = if str_eqb k' k then Some v else lookup k' o.
Proof.
  unfold obj_set. destruct (lookup k o) as [v0|] eqn:L.
  - rewrite lookup_replace_value, L. reflexivity.
  - destruct (array_index k).
    + now apply lookup_insert_index.
    + rewrite lookup_app. simpl.
      destruct (str_eqb k' k) eqn:E.
      * apply str_eqb_eq in E. subst. now rewrite L.
      * now destruct (lookup k' o).
Qed.

Lemma In_keys_insert_index (n : N) (k k' : jsstr) (v : jsval) (o : props) :
  In k' (obj_keys (insert_index n k v o)) <-> k' = k \/ In k' (obj_keys o).
Proof.
  unfold obj_keys. induction o as [|[k0 v0] o IH]; simpl.
  - intuition.
  - destruct (array_index k0) as [m|]; [|simpl; intuition].
    destruct (N.ltb m n); simpl; [|intuition].
    rewrite IH. intuition.
Qed.

Lemma NoDup_insert_index (n : N) (k : jsstr) (v : jsval) (o : props) :
  ~ In k (obj_keys o) -> NoDup (obj_keys o) ->
  NoDup (obj_keys (insert_index n k v o)).
Proof.
  induction o as [|[k0 v0] o IH]; intros Hk Hn.
  - simpl. constructor; [auto|constructor].
  - assert (G : NoDup (obj_keys ((k, v) :: (k0, v0) :: o)))
      by (constructor; assumption).
    cbn [insert_index]. destruct (array_index k0) as [m|]; [|exact G].
    destruct (N.ltb m n); [|exact G].
    unfold obj_keys in *. simpl in *. inversion Hn as [|? ? H1 H2]; subst.
    constructor.
    + intros Hin. apply (In_keys_insert_index n k k0 v o) in Hin.
      destruct Hin as [->|Hin]; [apply Hk; now left|contradiction].
    + apply IH; [|assumption]. intros Hin. apply Hk. now right.
Qed.

Lemma lookup_none_keys (k : jsstr) (o : props) :
  lookup k o = None <-> ~ In k (obj_keys o).
Proof.
  split.
  - intros H Hin. apply lookup_key in Hin as [v Hv]. congruence.
  - intros H. destruct (lookup k o) eqn:L; [|reflexivity].
    exfalso. apply H. apply lookup_In in L.
    unfold obj_keys. apply in_map_iff. exists (k, j). auto.
Qed.

Lemma NoDup_obj_set (k : jsstr) (v : jsval) (o : props) :
  NoDup (obj_keys o) -> NoDup (obj_keys (obj_set k v o)).
Proof.
  intros H. unfold obj_set. destruct (lookup k o) eqn:L.
  - now rewrite keys_replace_value.
  - apply lookup_none_keys in L. destruct (array_index k).
    + now apply NoDup_insert_index.
    + unfold obj_keys in *. rewrite map_app. simpl.
      apply NoDup_app; [assumption|constructor; [auto|constructor]|].
      intros x Hx [<-|[]]. contradiction.
Qed.

Lemma NoDup_obj_delete (k : jsstr) (o : props) :
  NoDup (obj_keys o) -> NoDup (obj_keys (obj_delete k o)).
Proof. intros H. rewrite keys_delete. now apply NoDup_filter. Qed.

Lemma no_nullish_replace_value k v (cs : props) :
  nullish v = false -> no_nullish_entry cs = true ->
  no_nullish_entry (replace_value k v cs) = true.
Proof.
  unfold no_nullish_entry. intros Hv.
  induction cs as [|[k' v'] cs IH]; simpl; [reflexivity|].
  intros H. apply andb_true_iff in H as [H1 H2].
  destruct (str_eqb k k'); simpl.
  - now rewrite Hv, H2.
  - now rewrite H1, IH.
Qed.

Lemma no_nullish_insert_index (n : N) (k : jsstr) (v : jsval) (o : props) :
  nullish v = false -> no_nullish_entry o = true ->
  no_nullish_entry (insert_index n k v o) = true.
Proof.
  unfold no_nullish_entry. intros Hv.
  induction o as [|[k0 v0] o IH]; intros H; simpl in *.
  - now rewrite Hv.
  - apply andb_true_iff in H as [H1 H2].
    destruct (array_index k0) as [m|]; [destruct (N.ltb m n)|]; simpl;
      rewrite ?Hv, ?H1, ?H2, ?IH; auto.
Qed.

Lemma no_nullish_obj_set (k : jsstr) (v : jsval) (o : props) :
  nullish v = false -> no_nullish_entry o = true ->
  no_nullish_entry (obj_set k v o) = true.
Proof.
  intros Hv H. unfold obj_set. destruct (lookup k o).
  - now apply no_nullish_replace_value.
  - destruct (array_index k).
    + now apply no_nullish_insert_index.
    + unfold no_nullish_entry in *. rewrite forallb_app, H. simpl.
      now rewrite Hv.
Qed.

Lemma no_nullish_obj_delete (k : jsstr) (o : props) :
  no_nullish_entry o = true -> no_nullish_entry (obj_delete k o) = true.
Proof.
  unfold no_nullish_entry, obj_delete. intros H.
  apply forallb_forall. intros x Hx. apply filter_In in Hx as [Hx _].
  rewrite forallb_forall in H. now apply H.
Qed.

Lemma obj_delete_absent (k : jsstr) (o : props) :
  lookup k o = None -> obj_delete k o = o.
Proof.
  unfold obj_delete. induction o as [|[k0 v0] o IH]; simpl; [reflexivity|].
  destruct (str_eqb k k0); [discriminate|]. simpl.
  intros H. now rewrite IH.
Qed.

Lemma NoDup_lookup (cs : props) k v :
  NoDup (obj_keys cs) -> In (k, v) cs -> lookup k cs = Some v.
Proof.
  unfold obj_keys. induction cs as [|[k0 v0] cs IH]; intros Hn Hin;
    [contradiction|].
  simpl in *. inversion Hn as [|? ? H1 H2]; subst.
  destruct Hin as [[= -> ->]|Hin].
  - now rewrite str_eqb_refl.
  - destruct (str_eqb k k0) eqn:E.
    + apply str_eqb_eq in E. subst. exfalso. apply H1.
      apply in_map_iff. exists (k0, v). auto.
    + now apply IH.
Qed.

(** The reduce of [getType] as a filter over the keys. *)
Lemma getType_flat_map (t : jsstr) (cs : props) :
  getType t cs =
  flat_map (fun k => if includes t k then [obj_get k cs] else [])
           (obj_keys cs).
Proof.
  unfold getType.
  assert (G : forall keys acc,
             fold_left
               (fun arr key =>
                  if includes t key then arr ++ [obj_get key cs] else arr)
               keys acc =
             acc ++ flat_map
                      (fun k => if includes t k then [obj_get k cs] else [])
                      keys).
  { induction keys as [|k keys IH]; intros acc; simpl.
    - now rewrite app_nil_r.
    - rewrite IH. destruct (includes t k); simpl; [|reflexivity].
      now rewrite <- app_assoc. }
  apply (G (obj_keys cs) []).
Qed.

Lemma no_nullish_lookup (cs : props) k v :
  no_nullish_entry cs = true -> lookup k cs = Some v -> nullish v = false.
Proof.
  unfold no_nullish_entry. intros H L.
  apply lookup_In in L.
  rewrite forallb_forall in H. specialize (H _ L). simpl in H.
  now destruct (nullish v).
Qed.

Lemma no_nullish_getType (t : jsstr) (cs : props) :
  no_nullish_entry cs = true ->
  Forall (fun v => nullish v = false) (getType t cs).
Proof.
  intros H. rewrite getType_flat_map.
  apply Forall_flat_map, Forall_forall. intros k Hk.
  destruct (includes t k); [|constructor].
  constructor; [|constructor].
  destruct (lookup_key k cs Hk) as [v L].
  unfold obj_get. rewrite L. eapply no_nullish_lookup; eauto.
Qed.

(** ** The state machine *)

Lemma send_submitting_idle : send stateChart SUBMITTING idle = submitting.
Proof. reflexivity. Qed.

Lemma send_keeps_submitting (e : mevent) :
  e <> COMPLETE -> e <> ERROR -> send stateChart e submitting = submitting.
Proof. destruct e; intros; try reflexivity; congruence. Qed.

(** Every transition of the chart, and no other. *)
Lemma send_table (e : mevent) (st : mstate) :
  send stateChart e st =
  match st, e with
  | idle, SUBMITTING => submitting
  | submitting, COMPLETE => idle
  | submitting, ERROR => error
  | error, RESET => idle
  | _, _ => st
  end.
Proof. destruct st, e; reflexivity. Qed.

(** ** The coordinator *)

Lemma register_frame (d : jsval) (s s' : ComponentRegister) :
  register d s = Some s' ->
  machine s' = machine s /\
  object_content (behind s') = object_content (behind s) /\
  shared (behind s') = shared (behind s).
Proof.
  unfold register.
  destruct (get_prop _ (lit "id") d) as [id|]; [|discriminate].
  destruct (to_key _ id) as [key|]; [|discriminate].
  intros [= <-]. unfold assign.
  destruct (lands key s); [now repeat split|].
  destruct d; now repeat split.
Qed.

Lemma unregister_frame (d : jsval) (s s' : ComponentRegister) :
  unregister d s = Some s' ->
  machine s' = machine s /\ behind s' = behind s.
Proof.
  unfold unregister. destruct (to_key _ d); [|discriminate].
  intros [= <-]. now split.
Qed.

Lemma merge_machine (d : jsval) (s s' : ComponentRegister) :
  merge d s = Some s' -> machine s' = machine s.
Proof.
  unfold merge. destruct (truthy d); [|now intros [= <-]].
  destruct (get_prop _ (lit "id") d) as [id|]; [|discriminate].
  destruct (get_content (behind s) d) as [c|]; [|discriminate].
  destruct (to_key _ id) as [key|]; [|discriminate].
  destruct (find key s) as [v|p v|[p|]| |v|];
    try discriminate;
    try (destruct (set_content c v _) as [[v' st']|]; [|discriminate]);
    now intros [= <-].
Qed.

Lemma merge_keys (d : jsval) (s s' : ComponentRegister) :
  merge d s = Some s' ->
  obj_keys (components s') = obj_keys (components s).
Proof.
  unfold merge. destruct (truthy d); [|now intros [= <-]].
  destruct (get_prop _ (lit "id") d) as [id|]; [|discriminate].
  destruct (get_content (behind s) d) as [c|]; [|discriminate].
  destruct (to_key _ id) as [key|]; [|discriminate].
  destruct (find key s) as [v|p v|[p|]| |v|];
    try discriminate;
    try (destruct (set_content c v _) as [[v' st']|]; [|discriminate]);
    intros [= <-]; try reflexivity.
  apply keys_replace_value.
Qed.

Section CoordinatorFacts.

Variable CURRENT_TITLE : jsval.
Variable updateMRU : jsval -> bool.

Abbreviation handle := (handleMessage CURRENT_TITLE).

Lemma save_outside_idle (d : jsval) (s : ComponentRegister) :
  machine s <> idle ->
  handle (SAVE d) s = {| after := s; writes := []; result := Returned |}.
Proof.
  intros H. unfold handleMessage.
  destruct (machine s); simpl; [congruence| |]; reflexivity.
Qed.

Lemma save_in_idle (d : jsval) (s : ComponentRegister) :
  machine s = idle -> handle (SAVE d) s = savePage CURRENT_TITLE d s.
Proof. intros H. unfold handleMessage. now rewrite H. Qed.

Lemma savePage_machine (d : jsval) (s : ComponentRegister) :
  machine (after (savePage CURRENT_TITLE d s)) =
  send stateChart SUBMITTING (machine s).
Proof.
  unfold savePage.
  destruct (merge d _) as [s1|] eqn:M; [|reflexivity].
  apply merge_machine in M.
  destruct (assemble CURRENT_TITLE s1); exact M.
Qed.

Lemma savePage_writes (d : jsval) (s : ComponentRegister) :
  (result (savePage CURRENT_TITLE d s) = Returned /\
   exists snap, writes (savePage CURRENT_TITLE d s) = [snap]) \/
  (result (savePage CURRENT_TITLE d s) = TypeError /\
   writes (savePage CURRENT_TITLE d s) = []).
Proof.
  unfold savePage.
  destruct (merge d _) as [s1|]; [|right; split; reflexivity].
  destruct (assemble CURRENT_TITLE s1) as [snap|]; simpl.
  - left. split; [reflexivity|]. now exists snap.
  - right. split; reflexivity.
Qed.

(** Messages other than SAVE leave the machine alone and issue nothing. *)
Lemma other_messages_machine (m : message) (s : ComponentRegister) :
  is_save m = false ->
  machine (after (handle m s)) = machine s /\ writes (handle m s) = [].
Proof.
  destruct m as [d|d|d|d|]; simpl; try discriminate; intros _.
  - destruct (register d s) as [s1|] eqn:R; [|now split].
    apply register_frame in R. now split.
  - destruct (unregister d s) as [s1|] eqn:U; [|now split].
    apply unregister_frame in U as [U _].
    destruct (register d s1) as [s2|] eqn:R; [|now split].
    apply register_frame in R as [R _]. split; [simpl; congruence|reflexivity].
  - now split.
  - now split.
Qed.

Lemma handle_machine (m : message) (s : ComponentRegister) :
  machine s <> idle -> machine (after (handle m s)) = machine s.
Proof.
  intros H. destruct m as [d|d|d|d|];
    try (now apply other_messages_machine).
  now rewrite save_outside_idle.
Qed.

Lemma handle_writes_outside_idle (m : message) (s : ComponentRegister) :
  machine s <> idle -> writes (handle m s) = [].
Proof.
  intros H. destruct m as [d|d|d|d|];
    try (now apply other_messages_machine).
  now rewrite save_outside_idle.
Qed.

Lemma deliver_submitting (ms : list message) (s : ComponentRegister) :
  machine s = submitting ->
  machine (fst (deliver CURRENT_TITLE ms s)) = submitting /\
  snd (deliver CURRENT_TITLE ms s) = [].
Proof.
  revert s. induction ms as [|m ms IH]; intros s H; simpl; [auto|].
  assert (Hn : machine s <> idle) by congruence.
  pose proof (handle_machine m s Hn) as Hm.
  pose proof (handle_writes_outside_idle m s Hn) as Hw.
  destruct (IH (after (handle m s))) as [IH1 IH2]; [congruence|].
  destruct (deliver CURRENT_TITLE ms (after (handle m s))) as [s' ws].
  simpl in *. now rewrite Hw, IH2.
Qed.

Lemma deliver_app (a b : list message) (s : ComponentRegister) :
  deliver CURRENT_TITLE (a ++ b) s =
  (fst (deliver CURRENT_TITLE b (fst (deliver CURRENT_TITLE a s))),
   snd (deliver CURRENT_TITLE a s)
     ++ snd (deliver CURRENT_TITLE b (fst (deliver CURRENT_TITLE a s)))).
Proof.
  revert s. induction a as [|m a IH]; intros s; simpl.
  - now destruct (deliver CURRENT_TITLE b s).
  - rewrite IH.
    destruct (deliver CURRENT_TITLE a (after (handle m s))) as [s1 w1].
    simpl. now rewrite app_assoc.
Qed.

(** The callbacks of a write only move the machine. *)
Lemma settle_components (snap : snapshot) (r : response)
      (s : ComponentRegister) :
  components (settle updateMRU snap r s) = components s /\
  behind (settle updateMRU snap r s) = behind s.
Proof.
  destruct r as [status|]; simpl; [|now split].
  destruct (N.ltb status 400); [|now split].
  now destruct (updateMRU (title snap)).
Qed.

(** A write answered with a failing status changes nothing at all. *)
Lemma settle_failing_status (snap : snapshot) (status : N)
      (s : ComponentRegister) :
  (400 <= status)%N -> settle updateMRU snap (Resolved status) s = s.
Proof.
  intros H. simpl. destruct (N.ltb_spec status 400); [lia|reflexivity].
Qed.

(** A rejected write moves a machine in submitting to error. *)
Lemma settle_rejected (snap : snapshot) (s : ComponentRegister) :
  machine s = submitting ->
  machine (settle updateMRU snap Rejected s) = error.
Proof. intros H. simpl. now rewrite H. Qed.

(** In every reachable world no write is in flight, or exactly one is
    and the machine is in submitting. *)
Lemma at_most_one_in_flight (w : world) :
  reachable CURRENT_TITLE updateMRU w ->
  inflight w = [] \/
  (exists snap, inflight w = [snap]) /\ machine (coordinator w) = submitting.
Proof.
  induction 1 as [|w w' Hr IH Hs]; [now left|].
  destruct Hs as [w m|w snap rest r Hin|w]; simpl.
  - destruct IH as [E|[[snap E] Hm]]; rewrite E; simpl.
    + destruct (is_save m) eqn:Sm.
      * destruct m as [d|d|d|d|]; try discriminate. simpl.
        destruct (mstate_eqb (machine (coordinator w)) idle) eqn:Hi;
          [|now left].
        destruct (machine (coordinator w)) eqn:Hst; try discriminate.
        destruct (savePage_writes d (coordinator w)) as [[_ [sn Hw]]|[_ Hw]];
          rewrite Hw; [right|now left].
        split; [eauto|]. now rewrite savePage_machine, Hst.
      * destruct (other_messages_machine m (coordinator w) Sm) as [_ ->].
        now left.
    + assert (Hn : machine (coordinator w) <> idle) by congruence.
      rewrite (handle_writes_outside_idle m _ Hn), (handle_machine m _ Hn).
      right. split; [eauto|assumption].
  - destruct IH as [E|[[sn E] Hm]]; [congruence|].
    rewrite E in Hin. injection Hin as _ <-. now left.
  - destruct IH as [E|[[sn E] Hm]]; [now left|right].
    split; [eauto|]. now rewrite Hm.
Qed.

End CoordinatorFacts.

(** ** Assembling the body *)

Lemma join_text_has_text (st : store) (v : jsval) :
  has_text st v = true -> exists t, join_text st v = Some t.
Proof.
  unfold has_text. intros H.
  destruct v as [| |x|o|n]; cbn [join_text]; eauto.
  - destruct (to_string st (VStr x)); [eauto|discriminate].
  - destruct (to_string st (VObj o)); [eauto|discriminate].
  - destruct (to_string st (VRef n)); [eauto|discriminate].
Qed.

Lemma join_lines_total (st : store) (l : list jsval) :
  forallb (has_text st) l = true -> exists t, join_lines st l = Some t.
Proof.
  unfold join_lines.
  assert (G : forallb (has_text st) l = true ->
              exists ts, sequence (List.map (join_text st) l) = Some ts).
  { induction l as [|v l IH]; simpl; [eauto|].
    intros H. apply andb_true_iff in H as [H1 H2].
    destruct (join_text_has_text st v H1) as [t ->].
    destruct (IH H2) as [ts ->]. simpl. eauto. }
  intros H. destruct (G H) as [ts ->]. simpl. eauto.
Qed.

Lemma contents_have_text (b : lineage) (l : list jsval) :
  forallb (content_has_text b) l = true ->
  exists cs, contents b l = Some cs /\
             forallb (has_text (shared b)) cs = true.
Proof.
  induction l as [|v l IH]; simpl; [eauto|].
  intros H. apply andb_true_iff in H as [H1 H2].
  unfold content_has_text in H1.
  destruct (get_content b v) as [c|]; [|discriminate].
  destruct (IH H2) as (cs & -> & Hcs).
  exists (c :: cs). split; [reflexivity|]. simpl. now rewrite H1, Hcs.
Qed.

Lemma content_written_out (b : lineage) (v : jsval) :
  content_can_be_written b v = true ->
  exists c c', get_content b v = Some c /\
               written_out (shared b) c = Some c'.
Proof.
  unfold content_can_be_written, can_be_written.
  destruct (get_content b v) as [c|]; [|discriminate].
  destruct (written_out (shared b) c) as [c'|] eqn:E; [|discriminate].
  intros _. exists c, c'. now split.
Qed.

Lemma get_prop_some_not_nullish (st : store) (name : jsstr) (v x : jsval) :
  get_prop st name v = Some x -> nullish v = false.
Proof. destruct v; simpl; intros H; try discriminate; reflexivity. Qed.

Lemma id_of_not_nullish (st : store) (v : jsval) (k : jsstr) :
  id_of st v = Some k -> nullish v = false.
Proof.
  unfold id_of. destruct (get_prop st (lit "id") v) as [id|] eqn:E;
    [|discriminate].
  intros _. eapply get_prop_some_not_nullish; eauto.
Qed.

(** Filing a value under a key that is there changes what [getType]
    returns only at that key. *)
Lemma getType_replace_value (P : jsval -> bool) (t k : jsstr) (v : jsval)
      (cs : props) :
  P v = true ->
  forallb P (getType t cs) = true ->
  forallb P (getType t (replace_value k v cs)) = true.
Proof.
  intros Hv. rewrite !getType_flat_map, keys_replace_value.
  rewrite !forallb_forall. intros H x Hx.
  apply in_flat_map in Hx as (key & Hk & Hx).
  destruct (includes t key) eqn:I; [|contradiction].
  destruct Hx as [<-|[]].
  unfold obj_get. rewrite lookup_replace_value.
  destruct (str_eqb key k) eqn:E.
  - destruct (lookup k cs) eqn:L; [exact Hv|].
    apply str_eqb_eq in E. subst key.
    destruct (lookup_key k cs Hk) as [v0 L0]. congruence.
  - apply H. apply in_flat_map. exists key. split; [exact Hk|].
    rewrite I. now left.
Qed.

(** Filing an object under a key of the registry keeps what was
    there for the content of title, tag and metadata, or puts the
    object there. *)
Lemma chain_get_replace_value (P : jsval -> bool) (key k : jsstr) (v : jsval)
      (s : ComponentRegister) :
  P v = true ->
  P (chain_get key s) = true ->
  P (chain_get key (with_components
                      (replace_value k v (components s)) s)) = true.
Proof.
  unfold chain_get. cbn [components behind with_components].
  intros Hv. rewrite lookup_replace_value.
  destruct (str_eqb key k) eqn:E; [|auto].
  apply str_eqb_eq in E. subst key.
  destruct (lookup k (components s)); auto.
Qed.

Section SavePageFacts.

Variable CURRENT_TITLE : jsval.

Lemma assemble_total (s : ComponentRegister) :
  ready s = true -> exists snap, assemble CURRENT_TITLE s = Some snap.
Proof.
  unfold ready. intros H.
  apply andb_true_iff in H as [H Hb].
  apply andb_true_iff in H as [H Hm].
  apply andb_true_iff in H as [Ht Hg].
  unfold assemble.
  destruct (content_written_out _ _ Ht) as (x & x' & -> & Hx).
  destruct (contents_have_text _ _ Hb) as (bs & -> & Hbs).
  destruct (join_lines_total _ bs Hbs) as [t ->].
  destruct (content_written_out _ _ Hg) as (y & y' & -> & Hy).
  destruct (content_written_out _ _ Hm) as (z & z' & -> & Hz).
  rewrite Hx, Hy, Hz. eauto.
Qed.

(** Merging a mergeable partial keeps a ready registry ready. *)
Lemma merge_mergeable (d : jsval) (s : ComponentRegister) :
  truthy d = true -> mergeable d s = true -> ready s = true ->
  exists s', merge d s = Some s' /\ ready s' = true /\
             behind s' = behind s /\
             obj_keys (components s') = obj_keys (components s).
Proof.
  intros Td Hm Hr. unfold mergeable in Hm.
  apply andb_true_iff in Hm as [Hm Hw].
  apply andb_true_iff in Hm as [Hk Hc].
  unfold id_of in Hk.
  unfold content_has_text in Hc. unfold content_can_be_written in Hw.
  unfold merge. rewrite Td.
  destruct (get_prop _ (lit "id") d) as [id|]; [|discriminate].
  destruct (get_content (behind s) d) as [c|]; [|discriminate].
  destruct (to_key _ id) as [key|]; [|discriminate].
  unfold holds_object in Hk. unfold find.
  destruct (lookup key (components s)) as [[| | |o|n]|] eqn:L;
    try discriminate.
  cbn [set_content].
  assert (B : behind (with_shared (shared (behind s))
                        (with_components
                           (replace_value key
                              (VObj (obj_set (lit "content") c o))
                              (components s)) s)) = behind s)
    by (cbn; now destruct (behind s)).
  eexists. split; [reflexivity|].
  split; [|split; [exact B|apply keys_replace_value]].
  unfold ready in *. rewrite B.
  apply andb_true_iff in Hr as [Hr Hb].
  apply andb_true_iff in Hr as [Hr Hmd].
  apply andb_true_iff in Hr as [Ht Hg].
  assert (Hv : forall P : jsval -> bool,
             P c = true ->
             (fun v => match get_content (behind s) v with
                       | Some x => P x
                       | None => false
                       end) (VObj (obj_set (lit "content") c o)) = true).
  { intros P HP. cbn [get_content].
    now rewrite lookup_obj_set, str_eqb_refl. }
  rewrite !andb_true_iff. repeat split.
  - apply (chain_get_replace_value
             (content_can_be_written (behind s)) _ _ _ s);
      [apply (Hv (can_be_written (shared (behind s))) Hw)|exact Ht].
  - apply (chain_get_replace_value
             (content_can_be_written (behind s)) _ _ _ s);
      [apply (Hv (can_be_written (shared (behind s))) Hw)|exact Hg].
  - apply (chain_get_replace_value
             (content_can_be_written (behind s)) _ _ _ s);
      [apply (Hv (can_be_written (shared (behind s))) Hw)|exact Hmd].
  - cbn [components with_components with_shared].
    apply getType_replace_value; [|exact Hb].
    apply (Hv (has_text (shared (behind s))) Hc).
Qed.

Lemma quiet_returns (m : message) (s : ComponentRegister) :
  quiet m s = true -> result (handleMessage CURRENT_TITLE m s) = Returned.
Proof.
  destruct m as [d|d|d|d|]; simpl.
  - destruct (mstate_eqb (machine s) idle) eqn:Hi; simpl; [|reflexivity].
    intros H. apply andb_true_iff in H as [Hd Hr].
    unfold savePage.
    set (s0 := with_machine (send stateChart SUBMITTING (machine s)) s).
    assert (M : exists s1, merge d s0 = Some s1 /\ ready s1 = true).
    { destruct (truthy d) eqn:Td.
      - simpl in Hd.
        destruct (merge_mergeable d s0 Td Hd Hr) as (s1 & M & R & _).
        eauto.
      - exists s0. split; [|exact Hr]. unfold merge. now rewrite Td. }
    destruct M as (s1 & -> & R).
    destruct (assemble_total s1 R) as [snap ->]. reflexivity.
  - unfold register, id_of.
    destruct (get_prop _ (lit "id") d) as [id|]; [|discriminate].
    destruct (to_key _ id); [reflexivity|discriminate].
  - unfold unregister, register, id_of.
    destruct (to_key _ d); [|discriminate].
    cbn [behind with_components].
    destruct (get_prop _ (lit "id") d) as [id|]; [|discriminate].
    destruct (to_key _ id); [reflexivity|discriminate].
  - reflexivity.
  - discriminate.
Qed.

(** For the messages that are no SAVE the condition is necessary too. *)
Lemma returns_quiet (m : message) (s : ComponentRegister) :
  is_save m = false ->
  result (handleMessage CURRENT_TITLE m s) = Returned -> quiet m s = true.
Proof.
  destruct m as [d|d|d|d|]; simpl; try discriminate; intros _.
  - unfold register, id_of.
    destruct (get_prop _ (lit "id") d) as [id|]; [|discriminate].
    destruct (to_key _ id); [reflexivity|discriminate].
  - unfold unregister, register, id_of.
    destruct (to_key _ d); [|discriminate].
    cbn [behind with_components].
    destruct (get_prop _ (lit "id") d) as [id|]; [|discriminate].
    destruct (to_key _ id); [reflexivity|discriminate].
  - reflexivity.
Qed.

End SavePageFacts.

(** ** Claims about the save coordinator *)

(** C2 (the code departs from it): a write that completes with a
    failing status is to be handled like a network failure, by moving
    from submitting to error.  On the sample page a SAVE issues the
    write; when the write is answered with status 500 the machine is
    still in submitting, where RESET does nothing and every later SAVE
    is dropped, whereas a rejected write moves it to error. *)
Theorem rejected_write_leaves_submitting :
  forall (CURRENT_TITLE : jsval) (updateMRU : jsval -> bool),
    let o := handleMessage CURRENT_TITLE (SAVE VUndefined)
               {| components := Sample.page; behind := plain;
                  machine := idle |} in
    let s := settle updateMRU (Sample.page_snapshot CURRENT_TITLE)
               (Resolved 500) (after o) in
    writes o = [Sample.page_snapshot CURRENT_TITLE] /\
    machine (after o) = submitting /\
    machine s = submitting /\
    send stateChart RESET (machine s) = submitting /\
    handleMessage CURRENT_TITLE (SAVE VUndefined) s =
      {| after := s; writes := []; result := Returned |} /\
    machine (settle updateMRU (Sample.page_snapshot CURRENT_TITLE)
               Rejected (after o)) = error.
Proof. intros. repeat split. Qed.

(** C3: a SAVE is acted on only in idle.  When a first SAVE has issued
    its write, whatever messages follow before the write settles, a
    further SAVE finds the machine in submitting and is dropped: it
    leaves the state and the registry as they are and issues nothing,
    so that exactly one write has been issued in all. *)
Theorem second_save_is_dropped :
  forall (CURRENT_TITLE : jsval) (s : ComponentRegister)
         (first second : jsval) (between : list message),
    machine s = idle ->
    result (handleMessage CURRENT_TITLE (SAVE first) s) = Returned ->
    let s1 := fst (deliver CURRENT_TITLE (SAVE first :: between) s) in
    machine s1 = submitting /\
    handleMessage CURRENT_TITLE (SAVE second) s1 =
      {| after := s1; writes := []; result := Returned |} /\
    length (snd (deliver CURRENT_TITLE
                   (SAVE first :: between ++ [SAVE second]) s)) = 1.
Proof.
  intros CT s first second between Hidle Hret s1.
  assert (Hsub : machine (after (handleMessage CT (SAVE first) s))
                 = submitting).
  { rewrite save_in_idle by assumption.
    now rewrite savePage_machine, Hidle. }
  assert (Hw : exists snap, writes (handleMessage CT (SAVE first) s) = [snap]).
  { rewrite save_in_idle in * by assumption.
    destruct (savePage_writes CT first s) as [[_ H]|[H _]];
      [assumption|congruence]. }
  destruct Hw as [snap Hw].
  assert (H1 : machine s1 = submitting /\
               snd (deliver CT (SAVE first :: between) s) = [snap]).
  { subst s1. cbn [deliver].
    destruct (deliver_submitting CT between _ Hsub) as [Hm Hn].
    destruct (deliver CT between
                (after (handleMessage CT (SAVE first) s))) as [s' ws].
    cbn [fst snd] in *. subst ws. rewrite Hw. now split. }
  destruct H1 as [Hm1 Hws].
  assert (Hdrop : handleMessage CT (SAVE second) s1 =
                  {| after := s1; writes := []; result := Returned |}).
  { apply save_outside_idle. congruence. }
  repeat split; try assumption.
  change (SAVE first :: between ++ [SAVE second])
    with ((SAVE first :: between) ++ [SAVE second]).
  rewrite deliver_app. cbn [snd]. rewrite Hws.
  fold s1. cbn [deliver]. rewrite Hdrop. reflexivity.
Qed.

Lemma second_save_is_dropped_witness :
  length (snd (deliver VUndefined
                 (SAVE VUndefined
                    :: [REGISTER (Sample.component "block-3" "third")]
                    ++ [SAVE (Sample.component "block-1" "again")])
                 {| components := Sample.page; behind := plain;
                    machine := idle |})) = 1.
Proof.
  apply (second_save_is_dropped VUndefined
           {| components := Sample.page; behind := plain; machine := idle |}
           VUndefined (Sample.component "block-1" "again")
           [REGISTER (Sample.component "block-3" "third")]);
    reflexivity.
Defined.

(** C4 (the code departs from it): handling UNREGISTER(id) is to remove
    that component and change nothing else.  On the sample page
    UNREGISTER("block-1") removes block-1 and then, running on into the
    REGISTER case, files the id string itself under the new key
    "undefined". *)
Theorem unregister_adds_a_key :
  forall (CURRENT_TITLE : jsval),
    let s := {| components := Sample.page; behind := plain;
                machine := idle |} in
    let o := handleMessage CURRENT_TITLE (UNREGISTER (VStr (lit "block-1"))) s in
    result o = Returned /\
    lookup (lit "block-1") (components (after o)) = None /\
    lookup (lit "undefined") (components s) = None /\
    lookup (lit "undefined") (components (after o))
      = Some (VStr (lit "block-1")) /\
    obj_keys (components (after o)) =
      List.map lit ["title"; "block-2"; "tag"; "metadata"; "undefined"]%string.
Proof. intros. repeat split. Qed.

(** C5, as the claim states it, fails: a SAVE whose partial names an id
    that is not registered makes the handler throw a TypeError, after
    the machine has moved to submitting. *)
Lemma save_of_unknown_id_throws :
  let o := handleMessage VUndefined (SAVE (Sample.component "ghost" "text"))
             {| components := Sample.page; behind := plain;
                machine := idle |} in
  result o = TypeError /\ machine (after o) = submitting /\ writes o = [].
Proof. repeat split. Qed.

(** C5, amended: the handler returns normally for a REGISTER whose data
    has a key to be filed under (it is neither undefined nor null, and
    its id is no object with a toString property of its own), for an
    UNREGISTER whose data can be made a key and has a key to be filed
    under, for a payload of any other type, for any SAVE outside idle,
    and in idle for a SAVE whose partial is absent, or names a
    component object that the registry holds as its own and has a
    content that can be turned into a string and written out, while
    the content of title, tag and metadata can be read and written out
    and the content of every block can be read and turned into a
    string; and however the write settles, the callbacks only move the
    state machine. *)
Theorem handler_returns_when_quiet :
  forall (CURRENT_TITLE : jsval) (updateMRU : jsval -> bool)
         (m : message) (s : ComponentRegister),
    quiet m s = true ->
    result (handleMessage CURRENT_TITLE m s) = Returned /\
    forall snap r,
      components (settle updateMRU snap r
                    (after (handleMessage CURRENT_TITLE m s)))
      = components (after (handleMessage CURRENT_TITLE m s)).
Proof.
  intros CT mru m s H. split.
  - now apply quiet_returns.
  - intros snap r. apply settle_components.
Qed.

Lemma handler_returns_when_quiet_witness :
  result (handleMessage VUndefined
            (SAVE (Sample.component "block-1" "again"))
            {| components := Sample.page; behind := plain;
               machine := idle |}) = Returned.
Proof.
  apply (handler_returns_when_quiet VUndefined (fun _ => true)
           (SAVE (Sample.component "block-1" "again"))
           {| components := Sample.page; behind := plain; machine := idle |}).
  reflexivity.
Defined.

(** C10: a SAVE handled in idle whose partial names a registered
    component object overwrites that component's content with the
    partial's; the write that is issued carries the constructed body
    of the merged registry, and the merged content stays in the
    registry however the write settles.  The partial's content is its
    own [content] property, unless it has none and [Object.prototype]
    has been given one. *)
Theorem merge_outlives_the_write :
  forall (CURRENT_TITLE : jsval) (updateMRU : jsval -> bool)
         (s : ComponentRegister) (partial component : props)
         (key : jsstr) (content : jsval),
    machine s = idle ->
    to_key (shared (behind s)) (obj_get (lit "id") partial) = Some key ->
    lookup key (components s) = Some (VObj component) ->
    get_content (behind s) (VObj partial) = Some content ->
    let o := handleMessage CURRENT_TITLE (SAVE (VObj partial)) s in
    let merged := VObj (obj_set (lit "content") content component) in
    lookup key (components (after o)) = Some merged /\
    (forall snap, In snap (writes o) ->
                  assemble CURRENT_TITLE (after o) = Some snap) /\
    (forall snap r,
        lookup key (components (settle updateMRU snap r (after o)))
        = Some merged) /\
    (object_content (behind s) = None ->
     content = obj_get (lit "content") partial).
Proof.
  intros CT mru s partial component key content Hidle K L C o merged.
  set (s0 := with_machine (send stateChart SUBMITTING (machine s)) s).
  assert (Hm : merge (VObj partial) s0 =
               Some (with_shared (shared (behind s))
                       (with_components
                          (replace_value key merged (components s)) s0))).
  { unfold merge. cbn [truthy get_prop]. change (behind s0) with (behind s).
    rewrite C, K. unfold find. change (components s0) with (components s).
    rewrite L. reflexivity. }
  assert (Hl : lookup key (components (after o)) = Some merged).
  { subst o. rewrite save_in_idle by assumption.
    unfold savePage. fold s0. rewrite Hm.
    destruct (assemble CT _);
      cbn [after components with_components with_shared];
      rewrite lookup_replace_value, str_eqb_refl, L; reflexivity. }
  split; [exact Hl|]. split; [|split].
  - subst o. rewrite save_in_idle by assumption.
    unfold savePage. fold s0. rewrite Hm.
    destruct (assemble CT _) as [sn|] eqn:A; cbn [writes after].
    + intros snap [<-|[]]. exact A.
    + intros snap [].
  - intros snap r.
    now rewrite (proj1 (settle_components mru snap r (after o))).
  - intros Hn. revert C. cbn [get_content]. rewrite Hn. unfold obj_get.
    destruct (lookup (lit "content") partial); now intros [= <-].
Qed.

Lemma merge_outlives_the_write_witness :
  lookup (lit "block-1")
    (components
       (settle (fun _ => true) (Sample.page_snapshot VUndefined) (Resolved 500)
          (after (handleMessage VUndefined
                    (SAVE (Sample.component "block-1" "again"))
                    {| components := Sample.page; behind := plain;
                       machine := idle |}))))
  = Some (Sample.component "block-1" "again").
Proof.
  apply (merge_outlives_the_write VUndefined (fun _ => true)
           {| components := Sample.page; behind := plain; machine := idle |}
           [(lit "id", VStr (lit "block-1"));
            (lit "content", VStr (lit "again"))]
           [(lit "id", VStr (lit "block-1"));
            (lit "content", VStr (lit "first"))]
           (lit "block-1") (VStr (lit "again")));
    reflexivity.
Defined.

(** ** Claims about the registry *)

Lemma refines_empty : refines [] Spec.empty.
Proof. split; reflexivity. Qed.

Lemma refines_getType (t : jsstr) (o : props) (r : registry) :
  refines o r -> getType t o = spec_getByPrefix t r.
Proof.
  intros [Hk Hl]. rewrite getType_flat_map. unfold spec_getByPrefix.
  rewrite flat_map_filter, <- Hk.
  apply flat_map_ext_on. intros k Hin.
  destruct (includes t k); [|reflexivity].
  rewrite <- Hl. unfold obj_get.
  destruct (lookup_key k o Hin) as [v ->]. reflexivity.
Qed.

Lemma refines_register (c : jsval) (k : jsstr) (s : ComponentRegister)
      (r : registry) :
  refines (components s) r -> ordinary (Register c) = true ->
  shared (behind s) = [] ->
  id_of [] c = Some k ->
  exists s', register c s = Some s' /\ behind s' = behind s /\
             refines (components s') (spec_register k c r).
Proof.
  intros [Hk Hl] Ho Hs Hid. simpl in Ho. rewrite Hid in Ho.
  apply andb_true_iff in Ho as [Hi Hp].
  unfold register. rewrite Hs. unfold id_of in Hid.
  destruct (get_prop [] (lit "id") c) as [x|]; [|discriminate].
  rewrite Hid. eexists. split; [reflexivity|].
  unfold assign, lands. rewrite Hp. cbn [orb].
  split; [reflexivity|]. cbn [components with_components].
  unfold obj_set, spec_register. rewrite <- Hk, mem_keys_lookup.
  destruct (lookup k (components s)) as [v0|] eqn:L; split; simpl.
  - apply keys_replace_value.
  - intros k'. rewrite lookup_replace_value, L, <- Hl.
    now destruct (str_eqb k' k).
  - destruct (array_index k); [discriminate|].
    unfold obj_keys. now rewrite map_app.
  - intros k'. destruct (array_index k); [discriminate|].
    rewrite lookup_app, <- Hl. simpl.
    destruct (str_eqb k' k) eqn:E'.
    + apply str_eqb_eq in E'. subst k'. now rewrite L.
    + now destruct (lookup k' (components s)).
Qed.

Lemma refines_unregister k (s : ComponentRegister) (r : registry) :
  refines (components s) r ->
  exists s', unregister (VStr k) s = Some s' /\ behind s' = behind s /\
             refines (components s') (spec_unregister k r).
Proof.
  intros [Hk Hl]. eexists. split; [reflexivity|]. split; [reflexivity|].
  unfold spec_unregister. split; simpl.
  - now rewrite keys_delete, Hk.
  - intros k'. now rewrite lookup_delete, Hl.
Qed.

Lemma refines_run (cs : list call) (s : ComponentRegister) (r : registry) :
  refines (components s) r -> forallb ordinary cs = true ->
  shared (behind s) = [] ->
  exists s', run cs s = Some s' /\ behind s' = behind s /\
             refines (components s') (spec_run cs r).
Proof.
  revert s r. induction cs as [|c cs IH]; intros s r R H Hs;
    cbn [run spec_run forallb] in *.
  - eauto.
  - apply andb_true_iff in H as [Hc Hcs].
    destruct c as [v|k].
    + destruct (id_of [] v) as [key|] eqn:Hid;
        [|simpl in Hc; rewrite Hid in Hc; discriminate].
      destruct (refines_register v key s r R Hc Hs Hid)
        as (s1 & -> & B1 & R1).
      destruct (IH s1 _ R1 Hcs) as (s' & Hrun & B' & R');
        [congruence|].
      exists s'. repeat split; [exact Hrun|congruence|apply R'|apply R'].
    + destruct (refines_unregister k s r R) as (s1 & -> & B1 & R1).
      destruct (IH s1 _ R1 Hcs) as (s' & Hrun & B' & R');
        [congruence|].
      exists s'. repeat split; [exact Hrun|congruence|apply R'|apply R'].
Qed.

(** C9, as the claim states it, fails: [Object.keys] lists keys that
    are array indices first and in ascending order, so after
    registering the ids 2 and then 1 the components come back as 1, 2
    and not in the order of their first insertion. *)
Lemma index_ids_come_back_sorted :
  exists s,
    run [Register (Sample.component "2" "second");
         Register (Sample.component "1" "first")] new_register = Some s /\
    getType [] (components s) =
      [Sample.component "1" "first"; Sample.component "2" "second"] /\
    spec_getByPrefix []
      (spec_run [Register (Sample.component "2" "second");
                 Register (Sample.component "1" "first")] Spec.empty) =
      [Sample.component "2" "second"; Sample.component "1" "first"] /\
    getType [] (components s) <>
    spec_getByPrefix []
      (spec_run [Register (Sample.component "2" "second");
                 Register (Sample.component "1" "first")] Spec.empty).
Proof.
  eexists. split; [reflexivity|].
  split; [reflexivity|]. split; [reflexivity|]. discriminate.
Qed.

(** C9, amended: for components filed under keys that are neither array
    indices nor [__proto__] (ids such as title, tag, metadata and
    block-N), after any sequence of register and unregister calls on a
    new instance the keys of the registry are the ids in the order of
    their first insertion and getType returns the matching components
    in that order; and registering under a key that is present
    overwrites the component and keeps every key in its place. *)
Theorem registry_keeps_first_insertion_order :
  forall (calls : list call),
    forallb ordinary calls = true ->
    exists s,
      run calls new_register = Some s /\
      obj_keys (components s) = order (spec_run calls Spec.empty) /\
      (forall t, getType t (components s)
                 = spec_getByPrefix t (spec_run calls Spec.empty)) /\
      (forall c k, id_of (shared (behind s)) c = Some k ->
                   In k (obj_keys (components s)) ->
                   exists s', register c s = Some s' /\
                              obj_keys (components s') = obj_keys (components s) /\
                              lookup k (components s') = Some c).
Proof.
  intros calls H.
  destruct (refines_run calls new_register Spec.empty refines_empty H eq_refl)
    as (s & Hrun & _ & R).
  exists s. split; [exact Hrun|]. split; [exact (proj1 R)|]. split.
  - intros t. now apply refines_getType.
  - intros c k Hid Hin. unfold register. unfold id_of in Hid.
    destruct (get_prop _ (lit "id") c) as [x|]; [|discriminate].
    rewrite Hid. eexists. split; [reflexivity|].
    destruct (lookup_key k (components s) Hin) as [v0 L].
    unfold assign, lands, has_own. rewrite L, orb_true_r. cbn [orb].
    cbn [components with_components]. now apply obj_set_present.
Qed.

Lemma registry_keeps_first_insertion_order_witness :
  exists s,
    run [Register (Sample.component "block-1" "one");
         Register (Sample.component "block-2" "two");
         Register (Sample.component "block-3" "three");
         Register (Sample.component "block-2" "two again")] new_register
      = Some s /\
    getType (lit "block") (components s) =
      [Sample.component "block-1" "one";
       Sample.component "block-2" "two again";
       Sample.component "block-3" "three"].
Proof.
  destruct (registry_keeps_first_insertion_order
              [Register (Sample.component "block-1" "one");
               Register (Sample.component "block-2" "two");
               Register (Sample.component "block-3" "three");
               Register (Sample.component "block-2" "two again")]
              eq_refl) as (s & Hrun & _ & Hget & _).
  exists s. split; [exact Hrun|]. rewrite Hget. reflexivity.
Defined.

(** ** The matcher *)

Lemma rmatch_str_i (A : Type) (x s : jsstr) (k : jsstr -> option A) (y : A) :
  rmatch (str_i x) s k = Some y <->
  exists t rest, s = t ++ rest /\ same_nocase x t /\ k rest = Some y.
Proof.
  unfold same_nocase. revert s.
  induction x as [|c x IH]; intros s; simpl.
  - split.
    + intros H. exists [], s. repeat split; [constructor|exact H].
    + intros (t & rest & -> & F & H). inversion F; subst. exact H.
  - split.
    + destruct s as [|d s]; [discriminate|].
      destruct (ci (N.eqb c) d) eqn:E; [|discriminate].
      intros H. apply IH in H as (t & rest & -> & F & H).
      exists (d :: t), rest. repeat split; [|exact H].
      now constructor.
    + intros (t & rest & -> & F & H). inversion F as [|? d ? t' Hc F']; subst.
      simpl. rewrite Hc. apply IH. eauto.
Qed.

Lemma rmatch_alternatives_sound (A : Type) (l : list jsstr) (s : jsstr)
      (k : jsstr -> option A) (y : A) :
  rmatch (alternatives_i l) s k = Some y ->
  exists e, In e l /\ rmatch (str_i e) s k = Some y.
Proof.
  induction l as [|x l IH]; simpl.
  - destruct s; discriminate.
  - destruct l as [|x' l'].
    + intros H. exists x. split; [now left|exact H].
    + cbn [rmatch].
      destruct (rmatch (str_i x) s k) eqn:E.
      * intros [= ->]. exists x. split; [now left|exact E].
      * intros H. destruct (IH H) as (e & He & Hm).
        exists e. split; [now right|exact Hm].
Qed.

Lemma rmatch_alternatives_complete (A : Type) (l : list jsstr) (s : jsstr)
      (k : jsstr -> option A) (e : jsstr) (y : A) :
  In e l -> rmatch (str_i e) s k = Some y ->
  exists y', rmatch (alternatives_i l) s k = Some y'.
Proof.
  induction l as [|x l IH]; simpl; [contradiction|].
  intros Hin Hm. destruct l as [|x' l'].
  - destruct Hin as [->|[]]. eauto.
  - cbn [rmatch]. destruct (rmatch (str_i x) s k) eqn:E; [eauto|].
    destruct Hin as [->|Hin]; [congruence|].
    now apply IH.
Qed.

(** What a loop over a class returns comes from the continuation, run
    on what is left after some of the input. *)
Lemma repeat_loop_unit_sound (A : Type) (p : N -> bool)
      (step : jsstr -> (jsstr -> option A) -> option A)
      (k : jsstr -> option A) (n : nat) (s : jsstr) (y : A) :
  (forall s k', step s k' =
                match s with
                | [] => None
                | c :: s' => if p c then k' s' else None
                end) ->
  repeat_loop step k n s = Some y ->
  exists pre t, s = pre ++ t /\ k t = Some y.
Proof.
  intros Hstep. revert s. induction n as [|n IH]; intros s; simpl.
  - intros H. exists [], s. auto.
  - rewrite Hstep. destruct s as [|c s].
    + intros H. exists [], []. auto.
    + destruct (p c).
      * destruct (Nat.ltb (length s) (length (c :: s))).
        -- destruct (repeat_loop step k n s) eqn:E.
           ++ intros [= ->]. destruct (IH _ E) as (pre & t & -> & H).
              exists (c :: pre), t. auto.
           ++ intros H. exists [], (c :: s). auto.
        -- intros H. exists [], (c :: s). auto.
      * intros H. exists [], (c :: s). auto.
Qed.

Lemma repeat_loop_class_sound (A : Type) (p : N -> bool)
      (k : jsstr -> option A) (n : nat) (s : jsstr) (y : A) :
  repeat_loop (rmatch (Cls p)) k n s = Some y ->
  exists pre t, s = pre ++ t /\ k t = Some y.
Proof.
  apply repeat_loop_unit_sound with (p := p). intros; reflexivity.
Qed.

(** A loop succeeds as soon as its continuation does on the spot. *)
Lemma repeat_loop_fallback (A : Type)
      (step : jsstr -> (jsstr -> option A) -> option A)
      (k : jsstr -> option A) (n : nat) (s : jsstr) (y : A) :
  k s = Some y -> exists y', repeat_loop step k n s = Some y'.
Proof.
  intros H. destruct n as [|n]; simpl; [eauto|].
  destruct (step s _); eauto.
Qed.

Lemma search_sound (r : regex) (s : jsstr) x :
  search r s = Some x ->
  exists pre t rest, s = pre ++ t /\ match_here r t = Some rest.
Proof.
  revert x. induction s as [|c s IH]; intros x; simpl.
  - destruct (match_here r []) eqn:E; [|discriminate].
    intros _. exists [], [], j. auto.
  - destruct (match_here r (c :: s)) eqn:E.
    + intros _. exists [], (c :: s), j. auto.
    + destruct (search r s) as [[[i m] rest]|]; [|discriminate].
      intros _. destruct (IH _ eq_refl) as (pre & t & rest' & -> & H).
      exists (c :: pre), t, rest'. auto.
Qed.

Lemma search_complete (r : regex) (pre t rest : jsstr) :
  match_here r t = Some rest -> exists x, search r (pre ++ t) = Some x.
Proof.
  intros H. induction pre as [|c pre [x IH]]; simpl.
  - destruct t; simpl; rewrite H; eauto.
  - destruct (match_here r (c :: pre ++ t)); [eauto|].
    rewrite IH. destruct x as [[i m] rest']. eauto.
Qed.

Lemma test_iff (r : regex) (s : jsstr) :
  test r s = true <->
  exists pre t rest, s = pre ++ t /\ match_here r t = Some rest.
Proof.
  unfold test. split.
  - destruct (search r s) eqn:E; [|discriminate].
    intros _. eapply search_sound; eauto.
  - intros (pre & t & rest & -> & H).
    destruct (search_complete r pre t rest H) as [x ->]. reflexivity.
Qed.

(** ** The image pattern *)

Lemma rmatch_Seq (A : Type) (a b : regex) (s : jsstr) (k : jsstr -> option A) :
  rmatch (Seq a b) s k = rmatch a s (fun s' => rmatch b s' k).
Proof. reflexivity. Qed.

Lemma rmatch_Star (A : Type) (a : regex) (s : jsstr) (k : jsstr -> option A) :
  rmatch (Star a) s k = repeat_loop (rmatch a) k (length s) s.
Proof. reflexivity. Qed.

Lemma rmatch_chr (A : Type) (c : N) (s : jsstr) (k : jsstr -> option A) (y : A) :
  rmatch (chr c) s k = Some y <-> exists s', s = c :: s' /\ k s' = Some y.
Proof.
  unfold chr. simpl. split.
  - destruct s as [|d s]; [discriminate|].
    destruct (N.eqb_spec c d); [|discriminate]. subst. eauto.
  - intros (s' & -> & H). now rewrite N.eqb_refl.
Qed.

Lemma rmatch_Eoi (s : jsstr) (y : jsstr) :
  rmatch Eoi s (fun rest => Some rest) = Some y <-> s = [] /\ y = [].
Proof.
  simpl. split.
  - destruct s; [|discriminate]. intros [= <-]. auto.
  - intros [-> ->]. reflexivity.
Qed.

(** A pattern [.*\.(e1|...|en)$] finds a match exactly in the texts
    that end with a dot and one of the alternatives. *)
Lemma dotted_suffix_pattern (exts : list jsstr) (url : jsstr) :
  test (Seq (Star (Cls is_dot))
            (Seq (chr 46) (Seq (alternatives_i exts) Eoi))) url = true <->
  exists pre t e, url = pre ++ 46%N :: t /\ In e exts /\ same_nocase e t.
Proof.
  rewrite test_iff. unfold match_here. split.
  - intros (pre & t & rest & -> & H).
    rewrite rmatch_Seq, rmatch_Star in H.
    apply repeat_loop_class_sound in H as (pre2 & t2 & -> & H).
    rewrite rmatch_Seq in H.
    apply rmatch_chr in H as (t3 & -> & H).
    rewrite rmatch_Seq in H.
    apply rmatch_alternatives_sound in H as (e & He & H).
    apply rmatch_str_i in H as (t & rest' & -> & F & H).
    apply rmatch_Eoi in H as [-> _].
    exists (pre ++ pre2), t, e. rewrite app_nil_r, <- app_assoc. auto.
  - intros (pre & t & e & -> & He & F).
    assert (H : exists y,
               rmatch (Seq (chr 46) (Seq (alternatives_i exts) Eoi))
                      (46%N :: t) (fun rest => Some rest) = Some y).
    { assert (Hs : rmatch (str_i e) t
                     (fun s' => rmatch Eoi s' (fun rest => Some rest))
                   = Some []).
      { apply rmatch_str_i. exists t, []. rewrite app_nil_r.
        split; [reflexivity|]. split; [exact F|]. now apply rmatch_Eoi. }
      destruct (rmatch_alternatives_complete _ exts t _ e [] He Hs) as [y Hy].
      exists y. rewrite rmatch_Seq. apply rmatch_chr.
      exists t. split; [reflexivity|]. now rewrite rmatch_Seq. }
    destruct H as [y H].
    destruct (repeat_loop_fallback _ (rmatch (Cls is_dot))
                (fun s' => rmatch (Seq (chr 46) (Seq (alternatives_i exts) Eoi))
                             s' (fun rest => Some rest))
                (length (46%N :: t)) (46%N :: t) y H) as [y' H'].
    exists pre, (46%N :: t), y'. split; [reflexivity|].
    now rewrite rmatch_Seq, rmatch_Star.
Qed.

Ltac ncases :=
  repeat match goal with
         | |- context [N.leb ?a ?b] => destruct (N.leb_spec a b)
         | |- context [N.ltb ?a ?b] => destruct (N.ltb_spec a b)
         | |- context [N.eqb ?a ?b] => destruct (N.eqb_spec a b)
         | H : context [N.leb ?a ?b] |- _ => destruct (N.leb_spec a b)
         | H : context [N.ltb ?a ?b] |- _ => destruct (N.ltb_spec a b)
         | H : context [N.eqb ?a ?b] |- _ => destruct (N.eqb_spec a b)
         end;
  cbn [andb orb negb] in *; try discriminate; try reflexivity; try lia.

Lemma ci_lower_letter (c d : N) :
  is_lower c = true -> ci (N.eqb c) d = N.eqb (ascii_lower d) c.
Proof.
  unfold ci, ascii_upper, ascii_lower, is_lower, is_upper, in_range.
  intros H. ncases.
Qed.

Lemma ascii_lower_of_lower (c : N) : is_lower c = true -> ascii_lower c = c.
Proof.
  unfold ascii_lower, is_lower, is_upper, in_range. intros H. ncases.
Qed.

Lemma ascii_lower_dot (c : N) : ascii_lower c = 46%N -> c = 46%N.
Proof.
  unfold ascii_lower, is_upper, in_range. intros H. ncases.
Qed.

Lemma same_nocase_lower (e t : jsstr) :
  Forall (fun c => is_lower c = true) e ->
  (same_nocase e t <-> List.map ascii_lower t = e).
Proof.
  unfold same_nocase. intros He. revert t.
  induction He as [|c e Hc He IH]; intros t.
  - split.
    + intros F. inversion F. reflexivity.
    + destruct t; [constructor|discriminate].
  - split.
    + intros F. inversion F as [|? d ? t' Hd F']; subst. simpl.
      rewrite ci_lower_letter in Hd by assumption.
      apply N.eqb_eq in Hd. rewrite Hd. f_equal. now apply IH.
    + destruct t as [|d t]; [discriminate|]. simpl. intros [= Hd Ht].
      constructor.
      * rewrite ci_lower_letter by assumption. now apply N.eqb_eq.
      * now apply IH.
Qed.

Lemma map_lower_of_lower (e : jsstr) :
  Forall (fun c => is_lower c = true) e -> List.map ascii_lower e = e.
Proof.
  induction 1 as [|c e Hc He IH]; simpl; [reflexivity|].
  now rewrite ascii_lower_of_lower, IH.
Qed.

Lemma image_extensions_lower (e : jsstr) :
  In e image_extensions -> Forall (fun c => is_lower c = true) e.
Proof.
  intros H. apply Forall_forall. intros c Hc.
  assert (A : forallb (forallb is_lower) image_extensions = true)
    by reflexivity.
  rewrite forallb_forall in A. specialize (A e H).
  rewrite forallb_forall in A. now apply A.
Qed.

Lemma starts_with_iff (p s : jsstr) :
  starts_with p s = true <-> exists rest, s = p ++ rest.
Proof.
  revert s. induction p as [|c p IH]; intros s; simpl.
  - split; eauto.
  - destruct s as [|d s].
    + split; [discriminate|]. intros [rest H]. discriminate.
    + rewrite andb_true_iff, N.eqb_eq, IH. split.
      * intros [-> [rest ->]]. eauto.
      * intros [rest [= -> ->]]. eauto.
Qed.

Lemma ends_with_iff (p s : jsstr) :
  ends_with p s = true <-> exists pre, s = pre ++ p.
Proof.
  unfold ends_with. rewrite starts_with_iff. split.
  - intros [rest H]. exists (rev rest).
    rewrite <- (rev_involutive s), H, rev_app_distr, rev_involutive.
    reflexivity.
  - intros [pre ->]. exists (rev pre). apply rev_app_distr.
Qed.

Lemma has_image_extension_iff (url : jsstr) :
  has_image_extension url = true <->
  exists pre t e,
    url = pre ++ 46%N :: t /\ In e image_extensions /\ same_nocase e t.
Proof.
  unfold has_image_extension, ends_with_nocase.
  rewrite existsb_exists. split.
  - intros (e & He & H). apply ends_with_iff in H as [pre' H].
    apply map_eq_app in H as (pre & suf & -> & _ & H).
    destruct suf as [|c t]; [discriminate|]. simpl in H.
    injection H as Hc Ht.
    apply ascii_lower_dot in Hc. subst c.
    exists pre, t, e. repeat split; [exact He|].
    pose proof (image_extensions_lower e He) as L.
    apply same_nocase_lower; [exact L|].
    now rewrite Ht, map_lower_of_lower.
  - intros (pre & t & e & -> & He & F).
    exists e. split; [exact He|]. apply ends_with_iff.
    pose proof (image_extensions_lower e He) as L.
    apply same_nocase_lower in F; [|exact L].
    exists (List.map ascii_lower pre).
    rewrite map_app. cbn [List.map].
    rewrite F, (map_lower_of_lower e L). reflexivity.
Qed.

(** ** Claims about the codec *)

(** C1 (the code departs from it): decoding the parsed encoding of a
    text is to give the text back, every hyperlink and every image
    being processed.  The text [[A]] [[B]] has no repeated span and no
    alias; its encoding is two anchors; on their tree [htmlToText]
    rewrites the first anchor and returns from inside the loop, so the
    second anchor stays and the tree reads [[A]] B.  In the same way an
    image that follows a link is never reached. *)
Theorem decode_stops_after_first_link :
  textToHtml 0 (lit "[[A]] [[B]]") =
    Some (anchor_html (lit "/A") (lit "A") ++ lit " "
            ++ anchor_html (lit "/B") (lit "B")) /\
  htmlToText 0 Sample.two_links =
    ([Text (lit "[[A]]"); Text (lit " ");
      Anchor (lit "https://wiki.example/B") (lit "/B") (lit "B")],
     O, Normal) /\
  tree_text (fst (fst (htmlToText 0 Sample.two_links))) = lit "[[A]] B" /\
  tree_text (fst (fst (htmlToText 0 Sample.two_links))) <> lit "[[A]] [[B]]" /\
  textToHtml 0 (lit "[[A]] https://x.com/a.png") =
    Some (anchor_html (lit "/A") (lit "A") ++ lit " <img src=" ++ dq
            ++ lit "https://x.com/a.png" ++ dq ++ lit ">") /\
  htmlToText 0
    [Anchor (lit "https://wiki.example/A") (lit "/A") (lit "A");
     Text (lit " "); Img (lit "https://x.com/a.png")] =
    ([Text (lit "[[A]]"); Text (lit " "); Img (lit "https://x.com/a.png")],
     O, Normal).
Proof.
  split; [vm_compute; reflexivity|].
  split; [vm_compute; reflexivity|].
  split; [vm_compute; reflexivity|].
  split; [vm_compute; discriminate|].
  split; vm_compute; reflexivity.
Qed.




(** C7, as the claim states it, fails: the pattern is tested on the
    whole URL.  A query string after an image path makes the test
    false, and a query string that ends like an image makes it true. *)
Lemma query_string_decides_the_image_test :
  path_is_image (lit "https://x.com/a.png?x=1") = true /\
  isSpecialtyUrl (lit "https://x.com/a.png?x=1") = false /\
  path_is_image (lit "https://x.com/page?file=a.png") = false /\
  isSpecialtyUrl (lit "https://x.com/page?file=a.png") = true.
Proof. repeat split; vm_compute; reflexivity. Qed.

(** C7, amended: isSpecialtyUrl(url) is true if and only if the URL as
    a whole, query string and fragment included, ends with a dot and
    one of the extensions jpg, jpeg, png, gif, webp, apng, avif, jfif,
    pjpeg, pjp, the case of ASCII letters aside. *)
Theorem image_test_is_a_suffix_test :
  forall url : jsstr, isSpecialtyUrl url = has_image_extension url.
Proof.
  intros url.
  pose proof (dotted_suffix_pattern image_extensions url) as P.
  pose proof (has_image_extension_iff url) as Q.
  unfold isSpecialtyUrl.
  change IMAGE_REGEXP
    with (Seq (Star (Cls is_dot))
              (Seq (chr 46) (Seq (alternatives_i image_extensions) Eoi))).
  destruct (test _ url), (has_image_extension url); try reflexivity.
  - symmetry. apply Q, P. reflexivity.
  - apply P, Q. reflexivity.
Qed.

(** ** Replacement of matched text *)

Lemma cut_from_nonempty (m s : jsstr) (skip : nat) : cut_from m s skip <> [].
Proof.
  revert skip. induction s as [|c s IH]; intros skip; simpl; [discriminate|].
  destruct skip as [|k]; [|apply IH].
  destruct (starts_with m (c :: s)); [discriminate|].
  destruct (cut_from m s 0); discriminate.
Qed.

Lemma join_cons_head (sep : jsstr) (c : N) (p : jsstr) (ps : list jsstr) :
  join sep ((c :: p) :: ps) = c :: join sep (p :: ps).
Proof. destruct ps; reflexivity. Qed.

Lemma join_nil_head (sep : jsstr) (ps : list jsstr) :
  ps <> [] -> join sep ([] :: ps) = sep ++ join sep ps.
Proof. destruct ps; [congruence|reflexivity]. Qed.

Lemma starts_with_length (m s : jsstr) :
  starts_with m s = true -> length m <= length s.
Proof.
  intros H. apply starts_with_iff in H as [rest ->].
  rewrite length_app. lia.
Qed.

Lemma starts_with_skipn (m s : jsstr) :
  starts_with m s = true -> s = m ++ skipn (length m) s.
Proof.
  intros H. apply starts_with_iff in H as [rest ->].
  rewrite skipn_app, skipn_all, Nat.sub_diag. reflexivity.
Qed.

(** The pieces put together again with [m] give what was cut. *)
Lemma join_cut_from (m s : jsstr) (skip : nat) :
  m <> [] -> skip <= length s ->
  join m (cut_from m s skip) = skipn skip s.
Proof.
  intros Hm. revert skip.
  induction s as [|c s IH]; intros skip Hs; simpl in *.
  - now destruct skip.
  - destruct skip as [|k]; [|apply IH; lia].
    destruct (starts_with m (c :: s)) eqn:E.
    + rewrite join_nil_head by apply cut_from_nonempty.
      pose proof (starts_with_length _ _ E) as L. simpl in L.
      pose proof (starts_with_skipn _ _ E) as S0.
      rewrite IH by lia.
      destruct m as [|d m']; [congruence|].
      simpl in S0 |- *. rewrite Nat.sub_0_r. symmetry. exact S0.
    + specialize (IH 0 (Nat.le_0_l _)). simpl in IH.
      destruct (cut_from m s 0) as [|p ps] eqn:C.
      * now apply cut_from_nonempty in C.
      * rewrite join_cons_head. now rewrite IH.
Qed.

Lemma get_substitution_plain (m before after repl : jsstr) :
  ~ In 36%N repl -> get_substitution m before after repl = repl.
Proof.
  induction repl as [|c r IH]; simpl; [reflexivity|].
  intros H. destruct (N.eqb_spec c 36) as [->|_].
  - exfalso. apply H. now left.
  - f_equal. apply IH. intros Hin. apply H. now right.
Qed.

Lemma replaceAll_from_cut (m repl before s : jsstr) (skip : nat) :
  m <> [] -> ~ In 36%N repl ->
  replaceAll_from m repl before s skip = join repl (cut_from m s skip).
Proof.
  intros Hm Hr. revert before skip.
  induction s as [|c s IH]; intros before skip.
  - simpl. destruct m; [congruence|reflexivity].
  - cbn [replaceAll_from cut_from].
    destruct skip as [|k]; [|apply IH].
    destruct (starts_with m (c :: s)) eqn:E.
    + rewrite join_nil_head by apply cut_from_nonempty.
      rewrite get_substitution_plain by assumption.
      destruct m as [|d m']; [congruence|].
      rewrite IH. simpl. now rewrite Nat.sub_0_r.
    + rewrite IH.
      destruct (cut_from m s 0) as [|p ps] eqn:C.
      * now apply cut_from_nonempty in C.
      * now rewrite join_cons_head.
Qed.

Lemma replace_from_cut (m repl before s : jsstr) :
  m <> [] ->
  replace_from m repl before s =
  match cut_from m s 0 with
  | p0 :: p1 :: rest =>
      p0 ++ get_substitution m (before ++ p0) (join m (p1 :: rest)) repl
         ++ join m (p1 :: rest)
  | _ => s
  end.
Proof.
  intros Hm. revert before.
  induction s as [|c s IH]; intros before.
  - simpl. destruct m; [congruence|reflexivity].
  - cbn [replace_from cut_from].
    destruct (starts_with m (c :: s)) eqn:E.
    + pose proof (starts_with_length _ _ E) as L.
      assert (J : join m (cut_from m s (length m - 1))
                  = skipn (length m) (c :: s)).
      { destruct m as [|d m']; [congruence|]. simpl in L.
        rewrite join_cut_from by (simpl; (congruence || lia)).
        simpl. now rewrite Nat.sub_0_r. }
      destruct (cut_from m s (length m - 1)) as [|p1 rest] eqn:C.
      * now apply cut_from_nonempty in C.
      * rewrite J, app_nil_r. reflexivity.
    + rewrite IH.
      destruct (cut_from m s 0) as [|p0 [|p1 rest]]; try reflexivity.
      simpl. now rewrite <- app_assoc.
Qed.

(** [replace] rewrites the first occurrence and no other. *)
Lemma replace_first (m repl text : jsstr) :
  m <> [] -> replace m repl text = first_replaced m repl text.
Proof.
  intros Hm. unfold replace, first_replaced, cut.
  now rewrite replace_from_cut.
Qed.

(** [replaceAll] with a text free of dollars rewrites every occurrence. *)
Lemma replaceAll_every (m repl text : jsstr) :
  m <> [] -> ~ In 36%N repl ->
  replaceAll m repl text = all_replaced m repl text.
Proof.
  intros Hm Hr. unfold replaceAll, all_replaced, cut.
  now apply replaceAll_from_cut.
Qed.

Lemma In_skipn_In (n : nat) (l : jsstr) (x : N) : In x (skipn n l) -> In x l.
Proof.
  revert l. induction n as [|n IH]; intros l; simpl; [auto|].
  destruct l as [|c l]; [auto|]. intros H. right. now apply IH.
Qed.

Lemma In_removelast_In (l : jsstr) (x : N) : In x (removelast l) -> In x l.
Proof.
  induction l as [|c l IH]; simpl; [auto|].
  destruct l as [|d l]; [contradiction|].
  intros [->|H]; [now left|right; now apply IH].
Qed.

Lemma In_group1 (m : jsstr) (x : N) : In x (group1 m) -> In x m.
Proof.
  unfold group1. intros H.
  apply In_removelast_In, In_removelast_In, In_skipn_In in H. exact H.
Qed.

Lemma In_split_on (sep : N) (s p : jsstr) (x : N) :
  In p (split_on sep s) -> In x p -> In x s.
Proof.
  revert p. induction s as [|c s IH]; intros p; simpl.
  - intros [<-|[]] [].
  - destruct (N.eqb c sep).
    + intros [<-|H] Hx; [contradiction|]. right. eapply IH; eauto.
    + destruct (split_on sep s) as [|l ls] eqn:E.
      * intros [<-|[]] [->|[]]. now left.
      * intros [<-|H] Hx.
        -- destruct Hx as [->|Hx]; [now left|].
           right. apply (IH l); [now left|exact Hx].
        -- right. apply (IH p); [now right|exact Hx].
Qed.

Lemma hex_digit_no_dollar (q : N) : hex_digit q <> 36%N.
Proof. unfold hex_digit. destruct (N.ltb_spec q 10); lia. Qed.

Lemma pct_no_dollar (l : list N) : ~ In 36%N (flat_map pct l).
Proof.
  induction l as [|b l IH]; [simpl; auto|].
  cbn [flat_map pct app].
  intros [H|[H|[H|H]]]; try discriminate; try (now apply IH);
    now apply hex_digit_no_dollar in H.
Qed.

Lemma encodeURIComponent_no_dollar (s e : jsstr) :
  encodeURIComponent s = Some e -> ~ In 36%N e.
Proof.
  remember (length s) as n eqn:Hn.
  assert (Hle : length s <= n) by lia. clear Hn.
  revert s e Hle. induction n as [|n IH]; intros s e Hle.
  - destruct s; [|simpl in Hle; lia]. intros [= <-]. auto.
  - destruct s as [|c s]; [intros [= <-]; auto|].
    simpl in Hle. cbn [encodeURIComponent].
    destruct (uri_unreserved c) eqn:U.
    + destruct (encodeURIComponent s) as [e'|] eqn:E; [|discriminate].
      intros [= <-] [Hc|H].
      * subst c. vm_compute in U. discriminate.
      * eapply IH; [|exact E|exact H]. lia.
    + destruct (is_trail_surrogate c); [discriminate|].
      destruct (is_lead_surrogate c).
      * destruct s as [|d s']; [discriminate|].
        destruct (is_trail_surrogate d); [|discriminate].
        destruct (encodeURIComponent s') as [e'|] eqn:E; [|discriminate].
        intros [= <-] H. apply in_app_or in H as [H|H].
        -- now apply pct_no_dollar in H.
        -- eapply IH; [|exact E|exact H]. simpl in Hle. lia.
      * destruct (encodeURIComponent s) as [e'|] eqn:E; [|discriminate].
        intros [= <-] H. apply in_app_or in H as [H|H].
        -- now apply pct_no_dollar in H.
        -- eapply IH; [|exact E|exact H]. lia.
Qed.

Lemma anchor_html_no_dollar (href text : jsstr) :
  ~ In 36%N href -> ~ In 36%N text -> ~ In 36%N (anchor_html href text).
Proof.
  intros Hh Ht. unfold anchor_html. intros H.
  repeat (apply in_app_or in H as [H|H]);
    try contradiction;
    try (vm_compute in H; intuition discriminate).
Qed.

Lemma wiki_anchor_no_dollar (m a : jsstr) :
  ~ In 36%N m -> wiki_anchor m = Some a -> ~ In 36%N a.
Proof.
  intros Hm. unfold wiki_anchor.
  assert (G : forall x e t,
             encodeURIComponent x = Some e -> ~ In 36%N t ->
             ~ In 36%N (anchor_html (lit "/" ++ e) t)).
  { intros x e t E Ht. apply anchor_html_no_dollar; [|exact Ht].
    intros [H|H]; [discriminate|].
    now apply (encodeURIComponent_no_dollar x e E). }
  assert (Hg : ~ In 36%N (group1 m)).
  { intros H. apply Hm. now apply In_group1. }
  destruct (split_on 124 (group1 m)) as [|a0 [|a1 rest]] eqn:S.
  - destruct (encodeURIComponent (group1 m)) eqn:E; [|discriminate].
    intros [= <-]. eapply G; eauto.
  - destruct (encodeURIComponent (group1 m)) eqn:E; [|discriminate].
    intros [= <-]. eapply G; eauto.
  - destruct (encodeURIComponent a1) eqn:E; [|discriminate].
    intros [= <-]. eapply G; [exact E|].
    intros H. apply Hg. apply (In_split_on 124 (group1 m) a0); [|exact H].
    rewrite S. now left.
Qed.

Lemma wiki_step_replaceAll (text m : jsstr) :
  wiki_step (Some text) m =
  option_map (fun a => replaceAll m a text) (wiki_anchor m).
Proof.
  unfold wiki_step, wiki_anchor.
  destruct (split_on 124 (group1 m)) as [|a0 [|a1 rest]].
  - now destruct (encodeURIComponent (group1 m)).
  - now destruct (encodeURIComponent (group1 m)).
  - now destruct (encodeURIComponent a1).
Qed.

(** C8, as the claim states it, fails for wiki-links: [parseWikiLinks]
    calls [replaceAll].  In the line [[A]] [[A]] the turn for the first
    match rewrites both occurrences, where first-occurrence semantics
    would leave the second. *)
Lemma repeated_wiki_link_rewritten_at_once :
  matchAll WIKI_LINK_REGEXP 0 (lit "[[A]] [[A]]") = [lit "[[A]]"; lit "[[A]]"] /\
  wiki_step (Some (lit "[[A]] [[A]]")) (lit "[[A]]") =
    Some (anchor_html (lit "/A") (lit "A") ++ lit " "
            ++ anchor_html (lit "/A") (lit "A")) /\
  first_replaced (lit "[[A]]") (anchor_html (lit "/A") (lit "A"))
                 (lit "[[A]] [[A]]") =
    anchor_html (lit "/A") (lit "A") ++ lit " [[A]]" /\
  wiki_step (Some (lit "[[A]] [[A]]")) (lit "[[A]]") <>
    Some (first_replaced (lit "[[A]]") (anchor_html (lit "/A") (lit "A"))
            (lit "[[A]] [[A]]")).
Proof.
  split; [vm_compute; reflexivity|].
  split; [vm_compute; reflexivity|].
  split; [vm_compute; reflexivity|].
  vm_compute. discriminate.
Qed.

(** ** What a match is made of *)

Lemma repeat_loop_consumes (A : Type) (P : N -> Prop)
      (step : jsstr -> (jsstr -> option A) -> option A)
      (k : jsstr -> option A) :
  (forall s k' y, step s k' = Some y ->
                  exists t rest, s = t ++ rest /\ k' rest = Some y /\ Forall P t) ->
  forall n s y,
    repeat_loop step k n s = Some y ->
    exists t rest, s = t ++ rest /\ k rest = Some y /\ Forall P t.
Proof.
  intros Hstep. induction n as [|n IH]; intros s y; cbn [repeat_loop].
  - intros H. exists [], s. auto.
  - destruct (step s _) as [x|] eqn:E.
    + intros [= ->].
      apply Hstep in E as (t1 & rest1 & -> & Hk & F1).
      destruct (Nat.ltb (length rest1) (length (t1 ++ rest1)));
        [|discriminate].
      apply IH in Hk as (t2 & rest & -> & Hk & F2).
      exists (t1 ++ t2), rest. rewrite <- app_assoc.
      repeat split; [exact Hk|]. apply Forall_app. auto.
    + intros H. exists [], s. auto.
Qed.

(** Soundness of the matcher: a result comes from the continuation,
    run on what is left after a stretch of code units the pattern can
    take, and that stretch is not empty when the pattern never is. *)
Lemma rmatch_consumes (A : Type) (r : regex) :
  forall (s : jsstr) (k : jsstr -> option A) (y : A),
    rmatch r s k = Some y ->
    exists t rest,
      s = t ++ rest /\ k rest = Some y /\
      Forall (fun c => may_consume r c = true) t /\
      (never_empty r = true -> t <> []).
Proof.
  induction r as [p| |a IHa b IHb|a IHa b IHb|a IHa|n a IHa|];
    intros s k y; cbn [rmatch may_consume never_empty].
  - destruct s as [|c s]; [discriminate|].
    destruct (p c) eqn:E; [|discriminate].
    intros H. exists [c], s. repeat split; auto. discriminate.
  - intros H. exists [], s. repeat split; auto. discriminate.
  - intros H.
    apply IHa in H as (t1 & s1 & -> & H & F1 & N1).
    apply IHb in H as (t2 & rest & -> & H & F2 & N2).
    exists (t1 ++ t2), rest. rewrite <- app_assoc.
    repeat split; [exact H| |].
    + apply Forall_app. split.
      * eapply Forall_impl; [|exact F1]. intros c Hc. simpl in Hc.
        now rewrite Hc.
      * eapply Forall_impl; [|exact F2]. intros c Hc. simpl in Hc.
        rewrite Hc. apply orb_true_r.
    + intros Hne Happ. apply app_eq_nil in Happ as [-> ->].
      apply orb_true_iff in Hne as [Hne|Hne]; [now apply N1|now apply N2].
  - destruct (rmatch a s k) as [x|] eqn:E.
    + intros [= ->]. apply IHa in E as (t & rest & -> & H & F & Ne).
      exists t, rest. repeat split; [exact H| |].
      * eapply Forall_impl; [|exact F]. intros c Hc. simpl in Hc.
        now rewrite Hc.
      * intros Hne. apply andb_true_iff in Hne as [Hne _]. auto.
    + intros H. apply IHb in H as (t & rest & -> & H & F & Ne).
      exists t, rest. repeat split; [exact H| |].
      * eapply Forall_impl; [|exact F]. intros c Hc. simpl in Hc.
        rewrite Hc. apply orb_true_r.
      * intros Hne. apply andb_true_iff in Hne as [_ Hne]. auto.
  - intros H.
    apply (repeat_loop_consumes A (fun c => may_consume a c = true)) in H.
    + destruct H as (t & rest & -> & H & F).
      exists t, rest. repeat split; auto. discriminate.
    + intros s0 k' y0 H0.
      apply IHa in H0 as (t & rest & -> & H0 & F & _). eauto.
  - intros H.
    apply (repeat_loop_consumes A (fun c => may_consume a c = true)) in H.
    + destruct H as (t & rest & -> & H & F).
      exists t, rest. repeat split; auto. discriminate.
    + intros s0 k' y0 H0.
      apply IHa in H0 as (t & rest & -> & H0 & F & _). eauto.
  - destruct s; [|discriminate].
    intros H. exists [], []. repeat split; auto. discriminate.
Qed.

Lemma matched_text_app (t rest : jsstr) : matched_text (t ++ rest) rest = t.
Proof.
  unfold matched_text. rewrite length_app, Nat.add_sub.
  rewrite firstn_app, Nat.sub_diag, firstn_all. simpl. apply app_nil_r.
Qed.

Lemma match_here_consumes (r : regex) (s rest : jsstr) :
  match_here r s = Some rest ->
  Forall (fun c => may_consume r c = true) (matched_text s rest) /\
  (never_empty r = true -> matched_text s rest <> []).
Proof.
  unfold match_here. intros H.
  apply rmatch_consumes in H as (t & rest' & -> & [= ->] & F & Ne).
  now rewrite matched_text_app.
Qed.

Lemma search_consumes (r : regex) (s : jsstr) i m rest :
  search r s = Some (i, m, rest) ->
  Forall (fun c => may_consume r c = true) m /\
  (never_empty r = true -> m <> []).
Proof.
  revert i. induction s as [|c s IH]; intros i; simpl.
  - destruct (match_here r []) eqn:E; [|discriminate].
    intros [= <- <- <-]. now apply match_here_consumes.
  - destruct (match_here r (c :: s)) eqn:E.
    + intros [= <- <- <-]. now apply match_here_consumes.
    + destruct (search r s) as [[[i' m'] rest']|]; [|discriminate].
      intros [= <- <- <-]. now apply (IH i').
Qed.

Lemma matches_from_consume (r : regex) (fuel : nat) (s m : jsstr) :
  In m (matches_from fuel r s) ->
  Forall (fun c => may_consume r c = true) m /\
  (never_empty r = true -> m <> []).
Proof.
  revert s. induction fuel as [|fuel IH]; intros s; simpl; [contradiction|].
  destruct (search r s) as [[[i m'] rest]|] eqn:E; [|contradiction].
  intros [<-|H].
  - eapply search_consumes; eauto.
  - destruct m' as [|c m'].
    + destruct rest as [|d rest]; [contradiction|]. eapply IH; eauto.
    + eapply IH; eauto.
Qed.

(** Every match [matchAll] yields is made of code units the pattern can
    take, and is not empty when the pattern never is. *)
Lemma matchAll_consume (r : regex) (lastIndex : nat) (s m : jsstr) :
  In m (matchAll r lastIndex s) ->
  Forall (fun c => may_consume r c = true) m /\
  (never_empty r = true -> m <> []).
Proof.
  unfold matchAll. destruct (Nat.ltb (length s) lastIndex); [contradiction|].
  apply matches_from_consume.
Qed.

Ltac btrue H :=
  match type of H with
  | (_ || _) = true =>
      apply orb_true_iff in H; destruct H as [H|H]; btrue H
  | (_ && _) = true =>
      let H' := fresh H in
      apply andb_true_iff in H; destruct H as [H H']; btrue H; btrue H'
  | N.eqb _ _ = true => apply N.eqb_eq in H
  | N.leb _ _ = true => apply N.leb_le in H
  | N.ltb _ _ = true => apply N.ltb_lt in H
  | false = true => discriminate H
  | _ => idtac
  end.

(** A code unit of a wiki-link match is no dollar and no surrogate. *)
Lemma wiki_unit (c : N) :
  may_consume WIKI_LINK_REGEXP c = true ->
  c <> 36%N /\ is_lead_surrogate c = false /\ is_trail_surrogate c = false.
Proof.
  intros H.
  assert (B : (c <= 65279)%N /\ c <> 36%N /\
              ~ (55296 <= c <= 57343)%N).
  { change (may_consume WIKI_LINK_REGEXP c)
      with ((N.eqb 91 c || (N.eqb 91 c || false))
            || ((wiki_char c || wiki_char c)
                || (N.eqb 93 c || (N.eqb 93 c || false)))) in H.
    unfold wiki_char, is_alnum, is_lower, is_upper, is_digit, is_space,
      in_range in H.
    change (one_of (lit "?-':_(|)") c)
      with (existsb (N.eqb c) [63; 45; 39; 58; 95; 40; 124; 41]%N) in H.
    unfold one_of in H. cbn [existsb] in H.
    btrue H; lia. }
  destruct B as (B1 & B2 & B3).
  unfold is_lead_surrogate, is_trail_surrogate, in_range.
  repeat split; [exact B2| |]; ncases.
Qed.

Lemma wiki_match_units (line m : jsstr) :
  In m (matchAll WIKI_LINK_REGEXP 0 line) ->
  m <> [] /\
  Forall (fun c => c <> 36%N /\ is_lead_surrogate c = false
                   /\ is_trail_surrogate c = false) m.
Proof.
  intros H. apply matchAll_consume in H as [F Ne]. split.
  - now apply Ne.
  - eapply Forall_impl; [|exact F]. intros c. apply wiki_unit.
Qed.

Lemma encodeURIComponent_total (s : jsstr) :
  Forall (fun c => is_lead_surrogate c = false
                   /\ is_trail_surrogate c = false) s ->
  exists e, encodeURIComponent s = Some e.
Proof.
  induction 1 as [|c s [Hl Ht] _ [e IH]]; simpl; [eauto|].
  rewrite Hl, Ht, IH. destruct (uri_unreserved c); simpl; eauto.
Qed.

Lemma wiki_anchor_total (m : jsstr) :
  Forall (fun c => is_lead_surrogate c = false
                   /\ is_trail_surrogate c = false) m ->
  exists a, wiki_anchor m = Some a.
Proof.
  intros F. rewrite Forall_forall in F. unfold wiki_anchor.
  assert (G : forall p,
             (forall c, In c p -> In c m) ->
             exists e, encodeURIComponent p = Some e).
  { intros p Hp. apply encodeURIComponent_total, Forall_forall. auto. }
  destruct (split_on 124 (group1 m)) as [|a0 [|a1 rest]] eqn:S.
  - destruct (G (group1 m)) as [e ->]; [apply In_group1|]. simpl. eauto.
  - destruct (G (group1 m)) as [e ->]; [apply In_group1|]. simpl. eauto.
  - destruct (G a1) as [e ->]; [|simpl; eauto].
    intros c Hc. apply In_group1.
    apply (In_split_on 124 (group1 m) a1); [|exact Hc].
    rewrite S. right. now left.
Qed.

(** [parseWikiLinks] never throws: no text of a match makes
    [encodeURIComponent] fail. *)
Lemma parseWikiLinks_total (text : jsstr) :
  exists t, parseWikiLinks text = Some t.
Proof.
  unfold parseWikiLinks.
  assert (G : forall l fs,
             (forall m, In m l -> exists a, wiki_anchor m = Some a) ->
             exists t, fold_left wiki_step l (Some fs) = Some t).
  { induction l as [|m l IH]; intros fs Hl; cbn [fold_left]; [eauto|].
    rewrite wiki_step_replaceAll.
    destruct (Hl m) as [a ->]; [now left|]. simpl.
    apply IH. intros m' Hm'. apply Hl. now right. }
  apply G. intros m Hm.
  apply wiki_match_units in Hm as [_ F].
  apply wiki_anchor_total.
  eapply Forall_impl; [|exact F]. intros c (_ & H1 & H2). auto.
Qed.

(** X1: [textToHtml] never throws: it returns a text for every input
    and every lastIndex of the URL pattern. *)
Lemma textToHtml_total (lastIndex : nat) (text : jsstr) :
  exists html, textToHtml lastIndex text = Some html.
Proof.
  unfold textToHtml.
  assert (G : forall lines,
             exists l, sequence (List.map (encodeLine lastIndex) lines)
                       = Some l).
  { induction lines as [|x lines [l IH]]; simpl; [eauto|].
    unfold encodeLine at 1.
    destruct (parseWikiLinks_total x) as [t ->]. simpl.
    rewrite IH. simpl. eauto. }
  destruct (G (split_lines text)) as [l ->]. simpl. eauto.
Qed.

(** C8, amended: whatever the line, a turn of the URL loop and a turn
    of the email loop rewrite the first occurrence of the matched text
    in the text at hand and leave every later occurrence in place,
    while a turn of the wiki-link loop rewrites every occurrence of the
    matched text at once; the occurrences are those at which cutting
    the text and joining the pieces with the matched text gives the
    text back. *)
Theorem replacement_per_span_kind :
  forall (lastIndex : nat) (line text m : jsstr),
    (In m (matchAll URL_REGEXP lastIndex line) ->
     url_step text m = first_replaced m (url_anchor m) text /\
     join m (cut m text) = text) /\
    (In m (matchAll EMAIL_REGEXP 0 line) ->
     email_step text m = first_replaced m (email_anchor m) text /\
     join m (cut m text) = text) /\
    (In m (matchAll WIKI_LINK_REGEXP 0 line) ->
     (exists a, wiki_anchor m = Some a /\
                wiki_step (Some text) m = Some (all_replaced m a text)) /\
     join m (cut m text) = text).
Proof.
  intros li line text m.
  assert (J : m <> [] -> join m (cut m text) = text).
  { intros Hm. unfold cut.
    rewrite join_cut_from by (assumption || lia). reflexivity. }
  split; [|split].
  - intros H. apply matchAll_consume in H as [_ Ne].
    specialize (Ne eq_refl). split; [|auto].
    unfold url_step, url_anchor.
    destruct (isSpecialtyUrl m); now apply replace_first.
  - intros H. apply matchAll_consume in H as [_ Ne].
    specialize (Ne eq_refl). split; [|auto].
    unfold email_step, email_anchor. now apply replace_first.
  - intros H. apply wiki_match_units in H as [Ne F]. split; [|auto].
    destruct (wiki_anchor_total m) as [a Ha].
    { eapply Forall_impl; [|exact F]. intros c (_ & H1 & H2). auto. }
    exists a. split; [exact Ha|].
    rewrite wiki_step_replaceAll, Ha. simpl. f_equal.
    apply replaceAll_every; [exact Ne|].
    apply (wiki_anchor_no_dollar m); [|exact Ha].
    rewrite Forall_forall in F. intros Hin.
    now destruct (F _ Hin) as [Hc _].
Qed.

Lemma replacement_per_span_kind_witness :
  url_step (lit "http://a.com http://a.com") (lit "http://a.com") =
    anchor_html (lit "http://a.com") (lit "http://a.com")
      ++ lit " http://a.com".
Proof.
  destruct (replacement_per_span_kind 0
              (lit "http://a.com http://a.com")
              (lit "http://a.com http://a.com") (lit "http://a.com"))
    as ([H _] & _).
  - vm_compute. now left.
  - rewrite H. vm_compute. reflexivity.
Defined.

(** ** Lines the passes leave alone *)

Lemma rmatch_Alt_or (A : Type) (a b : regex) (s : jsstr)
      (k : jsstr -> option A) (y : A) :
  rmatch (Alt a b) s k = Some y ->
  rmatch a s k = Some y \/ rmatch b s k = Some y.
Proof.
  cbn [rmatch]. destruct (rmatch a s k); [intros [= ->]; now left|now right].
Qed.

Lemma match_here_nil (r : regex) (rest : jsstr) :
  never_empty r = true -> match_here r [] = Some rest -> False.
Proof.
  intros Hn H. unfold match_here in H.
  apply rmatch_consumes in H as (t & rest' & E & _ & _ & Ne).
  symmetry in E. apply app_eq_nil in E as [-> _]. now apply Ne.
Qed.

(** No match without a code unit every match must hold. *)
Lemma matchAll_needs (r : regex) (P : jsstr -> Prop) :
  (forall t rest, match_here r t = Some rest -> P t) ->
  (forall pre t, P t -> P (pre ++ t)) ->
  forall lastIndex s, ~ P s -> (forall n, P (skipn n s) -> P s) ->
                      matchAll r lastIndex s = [].
Proof.
  intros Hm Hp li s Hs Hk. unfold matchAll.
  destruct (Nat.ltb (length s) li); [reflexivity|].
  cbn [matches_from].
  destruct (search r (skipn li s)) as [x|] eqn:E; [|reflexivity].
  exfalso. apply search_sound in E as (pre & t & rest & E & H).
  apply Hs, (Hk li). rewrite E. apply Hp. eapply Hm; eauto.
Qed.

Lemma matchAll_needs_unit (r : regex) (x : N) :
  (forall t rest, match_here r t = Some rest -> In x t) ->
  forall lastIndex s, ~ In x s -> matchAll r lastIndex s = [].
Proof.
  intros Hm li s Hs.
  apply (matchAll_needs r (fun t => In x t)); auto.
  - intros pre t H. apply in_or_app. now right.
  - intros n. apply In_skipn_In.
Qed.

Lemma wiki_match_head (t rest : jsstr) :
  match_here WIKI_LINK_REGEXP t = Some rest -> exists t', t = 91%N :: t'.
Proof.
  unfold match_here, WIKI_LINK_REGEXP.
  change (str (lit "[[")) with (Seq (chr 91) (Seq (chr 91) Eps)).
  rewrite !rmatch_Seq. intros H.
  apply rmatch_chr in H as (t' & -> & _). eauto.
Qed.

Lemma no_bracket_no_wiki_match (lastIndex : nat) (s : jsstr) :
  ~ In 91%N s -> matchAll WIKI_LINK_REGEXP lastIndex s = [].
Proof.
  apply matchAll_needs_unit. intros t rest H.
  apply wiki_match_head in H as [t' ->]. now left.
Qed.

Lemma email_match_at (t rest : jsstr) :
  match_here EMAIL_REGEXP t = Some rest -> In 64%N t.
Proof.
  unfold match_here, EMAIL_REGEXP. rewrite rmatch_Seq. intros H.
  apply rmatch_consumes in H as (t1 & r1 & -> & H & _).
  rewrite rmatch_Seq in H. apply rmatch_chr in H as (t' & -> & _).
  apply in_or_app. right. now left.
Qed.

Lemma no_at_no_email_match (lastIndex : nat) (s : jsstr) :
  ~ In 64%N s -> matchAll EMAIL_REGEXP lastIndex s = [].
Proof. apply matchAll_needs_unit, email_match_at. Qed.

Lemma ci_dot (d : N) : ci (N.eqb 46) d = true -> d = 46%N.
Proof.
  unfold ci, ascii_upper, ascii_lower, is_lower, is_upper, in_range.
  intros H. revert H. ncases.
Qed.

Lemma url_match_has (t rest : jsstr) :
  match_here URL_REGEXP t = Some rest -> In 58%N t \/ In 46%N t.
Proof.
  unfold match_here, URL_REGEXP. rewrite rmatch_Seq. intros H.
  apply rmatch_Alt_or in H as [H|H].
  - left. rewrite rmatch_Seq in H.
    apply rmatch_consumes in H as (t1 & r1 & -> & H & _).
    change (str (lit "://")) with (Seq (chr 58) (Seq (chr 47) (Seq (chr 47) Eps))) in H.
    rewrite rmatch_Seq in H. apply rmatch_chr in H as (t' & -> & _).
    apply in_or_app. right. now left.
  - right.
    assert (G : forall w, rmatch (str_i (w ++ [46%N])) t
                   (fun s' => rmatch
                      (Seq (Star (Alt url_paren (Cls url_char)))
                           (Alt url_paren (Cls url_last_char))) s'
                      (fun rest => Some rest)) = Some rest -> In 46%N t).
    { intros w Hw. apply rmatch_str_i in Hw as (t1 & r1 & -> & F & _).
      unfold same_nocase in F. apply in_or_app. left.
      clear -F. revert t1 F. induction w as [|c w IH]; intros t1 F; simpl in F.
      - inversion F as [|? d ? ? Hd ?]; subst. apply ci_dot in Hd.
        subst. now left.
      - inversion F; subst. right. now apply IH. }
    apply rmatch_Alt_or in H as [H|H].
    + apply (G (lit "www")). exact H.
    + apply (G (lit "ftp")). exact H.
Qed.

Lemma no_colon_dot_no_url_match (lastIndex : nat) (s : jsstr) :
  ~ In 58%N s -> ~ In 46%N s -> matchAll URL_REGEXP lastIndex s = [].
Proof.
  intros H1 H2.
  apply (matchAll_needs URL_REGEXP (fun t => In 58%N t \/ In 46%N t)).
  - apply url_match_has.
  - intros pre t [H|H]; [left|right]; apply in_or_app; now right.
  - tauto.
  - intros n [H|H]; [left|right]; eapply In_skipn_In; eauto.
Qed.

Lemma plain_unit_spec (s : jsstr) :
  forallb plain_unit s = true ->
  ~ In 91%N s /\ ~ In 58%N s /\ ~ In 46%N s /\ ~ In 64%N s.
Proof.
  intros H. rewrite forallb_forall in H.
  repeat split; intros Hin; apply H in Hin; discriminate.
Qed.

Lemma encodeLine_plain (lastIndex : nat) (line : jsstr) :
  forallb plain_unit line = true -> encodeLine lastIndex line = Some line.
Proof.
  intros H. apply plain_unit_spec in H as (H1 & H2 & H3 & H4).
  unfold encodeLine, parseWikiLinks, parseURLs, parseEmails.
  rewrite no_bracket_no_wiki_match by assumption. cbn [fold_left option_map].
  rewrite no_colon_dot_no_url_match by assumption. cbn [fold_left].
  rewrite no_at_no_email_match by assumption. reflexivity.
Qed.

(** ** Plain text and a single wiki-link *)

Lemma In_split_lines (s p : jsstr) (x : N) :
  In p (split_lines s) -> In x p -> In x s.
Proof.
  revert p. induction s as [|c s IH]; intros p; simpl.
  - intros [<-|[]] [].
  - destruct (N.eqb c 10).
    + intros [<-|H] Hx; [contradiction|]. right. eapply IH; eauto.
    + destruct (split_lines s) as [|l ls] eqn:E.
      * intros [<-|[]] [->|[]]. now left.
      * intros [<-|H] Hx.
        -- destruct Hx as [->|Hx]; [now left|].
           right. apply (IH l); [now left|exact Hx].
        -- right. apply (IH p); [now right|exact Hx].
Qed.

(** X3: a text without bracket, colon, dot or at sign is encoded by
    putting a line break tag between its lines, whatever the lastIndex
    of the URL pattern. *)
Lemma textToHtml_plain (lastIndex : nat) (text : jsstr) :
  forallb plain_unit text = true ->
  textToHtml lastIndex text = Some (join (lit "<br>") (split_lines text)).
Proof.
  intros H. unfold textToHtml.
  assert (G : forall lines,
             (forall l, In l lines -> forallb plain_unit l = true) ->
             sequence (List.map (encodeLine lastIndex) lines) = Some lines).
  { induction lines as [|l lines IH]; intros Hl; simpl; [reflexivity|].
    rewrite encodeLine_plain by (apply Hl; now left).
    rewrite IH; [reflexivity|]. intros l' Hl'. apply Hl. now right. }
  rewrite G; [reflexivity|].
  intros l Hl. apply forallb_forall. intros x Hx.
  rewrite forallb_forall in H. apply H. eapply In_split_lines; eauto.
Qed.

(** A greedy loop over a class takes a whole stretch of the class when
    what follows does not start with a member and is accepted. *)
Lemma repeat_loop_greedy (A : Type) (p : N -> bool)
      (k : jsstr -> option A) (t rest : jsstr) (y : A) :
  Forall (fun c => p c = true) t ->
  (forall c r, rest = c :: r -> p c = false) ->
  k rest = Some y ->
  forall n, length t <= n ->
            repeat_loop (rmatch (Cls p)) k n (t ++ rest) = Some y.
Proof.
  intros Ft Hr Hk. induction Ft as [|c t Hc Ft IH]; intros n Hn.
  - simpl. destruct n as [|n]; cbn [repeat_loop]; [exact Hk|].
    cbn [rmatch]. destruct rest as [|d r]; [exact Hk|].
    rewrite (Hr d r eq_refl). exact Hk.
  - destruct n as [|n]; [simpl in Hn; lia|].
    cbn [repeat_loop app rmatch]. rewrite Hc.
    assert (L : Nat.ltb (length (t ++ rest)) (length (c :: t ++ rest)) = true).
    { apply Nat.ltb_lt. simpl. lia. }
    rewrite L. rewrite IH by (simpl in Hn; lia). reflexivity.
Qed.

Lemma rmatch_str (A : Type) (x rest : jsstr) (k : jsstr -> option A) :
  rmatch (str x) (x ++ rest) k = k rest.
Proof.
  induction x as [|c x IH]; simpl; [reflexivity|].
  rewrite N.eqb_refl. exact IH.
Qed.

Lemma rmatch_Cls_cons (A : Type) (p : N -> bool) (c : N) (s : jsstr)
      (k : jsstr -> option A) :
  rmatch (Cls p) (c :: s) k = if p c then k s else None.
Proof. reflexivity. Qed.

Lemma wiki_match_here (c rest : jsstr) :
  c <> [] -> Forall (fun u => wiki_char u = true) c ->
  match_here WIKI_LINK_REGEXP (wiki_link c ++ rest) = Some rest.
Proof.
  intros Hc F. unfold match_here, WIKI_LINK_REGEXP, wiki_link.
  rewrite rmatch_Seq. rewrite <- !app_assoc. rewrite rmatch_str.
  rewrite rmatch_Seq. unfold plus. rewrite rmatch_Seq.
  destruct c as [|c0 c]; [congruence|].
  inversion F as [|? ? H0 F']; subst.
  cbn [app]. rewrite rmatch_Cls_cons, H0, rmatch_Star.
  apply repeat_loop_greedy.
  - exact F'.
  - intros d r E. change (lit "]]") with [93%N; 93%N] in E.
    injection E as <- _. reflexivity.
  - apply rmatch_str.
  - rewrite length_app. lia.
Qed.

Lemma wiki_match_here_none (d : N) (s : jsstr) :
  d <> 91%N -> match_here WIKI_LINK_REGEXP (d :: s) = None.
Proof.
  intros H. destruct (match_here WIKI_LINK_REGEXP (d :: s)) eqn:E;
    [|reflexivity].
  apply wiki_match_head in E as [t' [= ->]]. congruence.
Qed.

Lemma search_here (r : regex) (s rest : jsstr) :
  match_here r s = Some rest ->
  search r s = Some (O, matched_text s rest, rest).
Proof. intros H. destruct s; simpl; rewrite H; reflexivity. Qed.

Lemma search_wiki_after_plain (pre m rest : jsstr) :
  ~ In 91%N pre ->
  match_here WIKI_LINK_REGEXP (m ++ rest) = Some rest ->
  search WIKI_LINK_REGEXP (pre ++ m ++ rest) = Some (length pre, m, rest).
Proof.
  intros Hp Hm. induction pre as [|d pre IH]; simpl.
  - rewrite (search_here _ _ _ Hm), matched_text_app. reflexivity.
  - rewrite wiki_match_here_none by (intros ->; apply Hp; now left).
    rewrite IH; [reflexivity|]. intros H. apply Hp. now right.
Qed.

Lemma search_none_wiki (s : jsstr) :
  ~ In 91%N s -> search WIKI_LINK_REGEXP s = None.
Proof.
  intros H. destruct (search WIKI_LINK_REGEXP s) eqn:E; [|reflexivity].
  apply search_sound in E as (pre & t & rest & -> & Hm).
  apply wiki_match_head in Hm as [t' ->].
  exfalso. apply H. apply in_or_app. right. now left.
Qed.

Lemma matches_from_none (r : regex) (fuel : nat) (s : jsstr) :
  search r s = None -> matches_from fuel r s = [].
Proof. intros H. destruct fuel; simpl; [reflexivity|now rewrite H]. Qed.

Lemma matchAll_wiki_one (pre c post : jsstr) :
  ~ In 91%N pre -> ~ In 91%N post ->
  c <> [] -> Forall (fun u => wiki_char u = true) c ->
  matchAll WIKI_LINK_REGEXP 0 (pre ++ wiki_link c ++ post) = [wiki_link c].
Proof.
  intros Hpre Hpost Hc F. unfold matchAll.
  cbn [Nat.ltb Nat.leb skipn matches_from].
  rewrite (search_wiki_after_plain pre (wiki_link c) post Hpre
             (wiki_match_here c post Hc F)).
  f_equal.
  change (wiki_link c) with (91%N :: 91%N :: c ++ lit "]]").
  cbv iota. apply matches_from_none, search_none_wiki, Hpost.
Qed.

Lemma cut_from_skip (m x s : jsstr) :
  cut_from m (x ++ s) (length x) = cut_from m s 0.
Proof. induction x as [|c x IH]; simpl; [reflexivity|exact IH]. Qed.

Lemma cut_from_plain (m' s : jsstr) :
  ~ In 91%N s -> cut_from (91%N :: m') s 0 = [s].
Proof.
  induction s as [|c s IH]; intros H; [reflexivity|].
  cbn [cut_from starts_with].
  destruct (N.eqb_spec 91 c) as [<-|_]; [exfalso; apply H; now left|].
  cbn [andb]. rewrite IH; [reflexivity|]. intros Hin. apply H. now right.
Qed.

Lemma cut_from_after_plain (m' pre s : jsstr) :
  ~ In 91%N pre ->
  cut_from (91%N :: m') (pre ++ s) 0 =
  match cut_from (91%N :: m') s 0 with
  | p :: ps => (pre ++ p) :: ps
  | [] => [pre]
  end.
Proof.
  induction pre as [|c pre IH]; intros H.
  - simpl. destruct (cut_from (91%N :: m') s 0) eqn:E; [|reflexivity].
    now apply cut_from_nonempty in E.
  - cbn [app cut_from starts_with].
    destruct (N.eqb_spec 91 c) as [<-|_]; [exfalso; apply H; now left|].
    cbn [andb]. rewrite IH by (intros Hin; apply H; now right).
    destruct (cut_from (91%N :: m') s 0); reflexivity.
Qed.

Lemma starts_with_app (m s : jsstr) : starts_with m (m ++ s) = true.
Proof. apply starts_with_iff. eauto. Qed.

Lemma cut_one_occurrence (m' pre post : jsstr) :
  ~ In 91%N pre -> ~ In 91%N post ->
  cut (91%N :: m') (pre ++ (91%N :: m') ++ post) = [pre; post].
Proof.
  intros Hpre Hpost. unfold cut.
  rewrite cut_from_after_plain by assumption.
  assert (E : cut_from (91%N :: m') ((91%N :: m') ++ post) 0 = [[]; post]).
  { cbn [app cut_from].
    change (91%N :: m' ++ post) with ((91%N :: m') ++ post).
    rewrite starts_with_app. cbn [length Nat.sub].
    rewrite Nat.sub_0_r, cut_from_skip, cut_from_plain by assumption.
    reflexivity. }
  rewrite E, app_nil_r. reflexivity.
Qed.

Lemma group1_wiki_link (c : jsstr) : group1 (wiki_link c) = c.
Proof.
  unfold group1, wiki_link.
  change (skipn 2 (lit "[[" ++ c ++ lit "]]")) with (c ++ [93%N; 93%N]).
  change (c ++ [93%N; 93%N]) with (c ++ [93%N] ++ [93%N]).
  rewrite app_assoc, removelast_last, removelast_last. reflexivity.
Qed.

Lemma split_on_absent (sep : N) (s : jsstr) :
  ~ In sep s -> split_on sep s = [s].
Proof.
  induction s as [|c s IH]; intros H; simpl; [reflexivity|].
  destruct (N.eqb_spec c sep) as [->|_]; [exfalso; apply H; now left|].
  rewrite IH; [reflexivity|]. intros Hin. apply H. now right.
Qed.

Lemma split_on_first (sep : N) (a t : jsstr) :
  ~ In sep a -> split_on sep (a ++ sep :: t) = a :: split_on sep t.
Proof.
  induction a as [|c a IH]; intros H; simpl.
  - now rewrite N.eqb_refl.
  - destruct (N.eqb_spec c sep) as [->|_]; [exfalso; apply H; now left|].
    rewrite IH; [reflexivity|]. intros Hin. apply H. now right.
Qed.

Lemma hex_digit_cases (q : N) :
  (hex_digit q = 48 + q /\ q < 10)%N \/ (hex_digit q = 55 + q /\ 10 <= q)%N.
Proof. unfold hex_digit. destruct (N.ltb_spec q 10); auto. Qed.


Lemma hex_digit_no_span_unit (q x : N) : span_unit x -> hex_digit q <> x.
Proof.
  intros Hx H.
  destruct (hex_digit_cases q) as [[E L]|[E L]];
    rewrite E in H; destruct Hx as [-> | [-> | ->]]; lia.
Qed.

Lemma pct_no_span_unit (l : list N) (x : N) :
  span_unit x -> ~ In x (flat_map pct l).
Proof.
  intros Hx. induction l as [|b l IH]; [simpl; auto|].
  cbn [flat_map pct app].
  intros [H|[H|[H|H]]]; try (now apply IH).
  - destruct Hx as [-> | [-> | ->]]; discriminate.
  - now apply hex_digit_no_span_unit in H.
  - now apply hex_digit_no_span_unit in H.
Qed.

(** A dot, a colon or an at sign in an encoded component was in the
    text that was encoded, and is a unit the encoding leaves alone. *)
Lemma encodeURIComponent_span_unit (s e : jsstr) (x : N) :
  span_unit x -> encodeURIComponent s = Some e -> In x e ->
  In x s /\ x = 46%N.
Proof.
  intros Hx.
  remember (length s) as n eqn:Hn.
  assert (Hle : length s <= n) by lia. clear Hn.
  revert s e Hle. induction n as [|n IH]; intros s e Hle.
  - destruct s; [|simpl in Hle; lia]. intros [= <-] [].
  - destruct s as [|c s]; [intros [= <-] []|].
    simpl in Hle. cbn [encodeURIComponent].
    destruct (uri_unreserved c) eqn:U.
    + destruct (encodeURIComponent s) as [e'|] eqn:E; [|discriminate].
      intros [= <-] [Hc|H].
      * subst c. split; [now left|].
        destruct Hx as [-> | [-> | ->]]; [reflexivity| |];
          vm_compute in U; discriminate.
      * destruct (IH s e') as [H1 H2]; auto; [lia|]. split; [now right|auto].
    + destruct (is_trail_surrogate c); [discriminate|].
      destruct (is_lead_surrogate c).
      * destruct s as [|d s']; [discriminate|].
        destruct (is_trail_surrogate d); [|discriminate].
        destruct (encodeURIComponent s') as [e'|] eqn:E; [|discriminate].
        intros [= <-] H. apply in_app_or in H as [H|H].
        -- now apply pct_no_span_unit in H.
        -- destruct (IH s' e') as [H1 H2]; auto; [simpl in Hle; lia|].
           split; [right; now right|auto].
      * destruct (encodeURIComponent s) as [e'|] eqn:E; [|discriminate].
        intros [= <-] H. apply in_app_or in H as [H|H].
        -- now apply pct_no_span_unit in H.
        -- destruct (IH s e') as [H1 H2]; auto; [lia|]. split; [now right|auto].
Qed.

Lemma anchor_html_span_unit (href text : jsstr) (x : N) :
  span_unit x -> In x (anchor_html href text) -> In x href \/ In x text.
Proof.
  intros Hx. unfold anchor_html. intros H.
  repeat (apply in_app_or in H as [H|H]); auto;
    exfalso; vm_compute in H;
    destruct Hx as [-> | [-> | ->]]; intuition discriminate.
Qed.

Lemma wiki_anchor_span_unit (m a : jsstr) (x : N) :
  span_unit x -> wiki_anchor m = Some a -> In x a -> In x m.
Proof.
  intros Hx. unfold wiki_anchor.
  assert (G : forall p e t,
             (forall u, In u p -> In u m) -> (forall u, In u t -> In u m) ->
             encodeURIComponent p = Some e ->
             In x (anchor_html (lit "/" ++ e) t) -> In x m).
  { intros p e t Hp Ht E H.
    apply anchor_html_span_unit in H as [H|H]; [|auto|exact Hx].
    destruct H as [H|H].
    - exfalso. destruct Hx as [-> | [-> | ->]]; discriminate.
    - apply Hp. eapply encodeURIComponent_span_unit; eauto. }
  destruct (split_on 124 (group1 m)) as [|a0 [|a1 rest]] eqn:S.
  - destruct (encodeURIComponent (group1 m)) eqn:E; [|discriminate].
    intros [= <-]. eapply (G (group1 m) _ (group1 m)); eauto using In_group1.
  - destruct (encodeURIComponent (group1 m)) eqn:E; [|discriminate].
    intros [= <-]. eapply (G (group1 m) _ (group1 m)); eauto using In_group1.
  - destruct (encodeURIComponent a1) eqn:E; [|discriminate].
    intros [= <-]. eapply (G a1 _ a0); [| |exact E].
    + intros u Hu. apply In_group1.
      apply (In_split_on 124 (group1 m) a1); [|exact Hu].
      rewrite S. right. now left.
    + intros u Hu. apply In_group1.
      apply (In_split_on 124 (group1 m) a0); [|exact Hu].
      rewrite S. now left.
Qed.

Lemma link_unit_spec (c : jsstr) :
  forallb link_unit c = true ->
  Forall (fun u => wiki_char u = true) c /\ ~ In 58%N c /\ ~ In 124%N c.
Proof.
  intros H. rewrite forallb_forall in H. repeat split.
  - apply Forall_forall. intros u Hu. apply H in Hu. unfold link_unit in Hu.
    apply andb_true_iff in Hu as [Hu _].
    now apply andb_true_iff in Hu as [Hu _].
  - intros Hin. apply H in Hin. discriminate.
  - intros Hin. apply H in Hin. discriminate.
Qed.

Lemma wiki_char_units (c : jsstr) (x : N) :
  Forall (fun u => wiki_char u = true) c ->
  wiki_char x = false -> ~ In x c.
Proof.
  intros F Hx Hin. rewrite Forall_forall in F. apply F in Hin. congruence.
Qed.

Lemma In_wiki_link (c : jsstr) (x : N) :
  In x (wiki_link c) -> x = 91%N \/ x = 93%N \/ In x c.
Proof.
  unfold wiki_link. intros H.
  apply in_app_or in H as [H|H].
  - left. vm_compute in H. intuition.
  - apply in_app_or in H as [H|H]; [auto|].
    right. left. vm_compute in H. intuition.
Qed.

(** A wiki-link between stretches of plain text: the pass rewrites the
    link and the later passes find nothing to do. *)
Lemma link_in_plain_text (lastIndex : nat) (pre c post a : jsstr) :
  forallb plain_unit pre = true -> forallb plain_unit post = true ->
  c <> [] -> Forall (fun u => wiki_char u = true) c -> ~ In 58%N c ->
  wiki_anchor (wiki_link c) = Some a ->
  encodeLine lastIndex (pre ++ wiki_link c ++ post) = Some (pre ++ a ++ post).
Proof.
  intros Hpre Hpost Hc F Hcolon Ha.
  apply plain_unit_spec in Hpre as (P1 & P2 & P3 & P4).
  apply plain_unit_spec in Hpost as (Q1 & Q2 & Q3 & Q4).
  assert (Hm : forall x, wiki_char x = false -> x <> 91%N -> x <> 93%N ->
                         ~ In x (wiki_link c)).
  { intros x Hx H1 H2 Hin.
    apply In_wiki_link in Hin as [->|[->|Hin]]; try congruence.
    now apply (wiki_char_units c x). }
  assert (Hw : parseWikiLinks (pre ++ wiki_link c ++ post)
               = Some (pre ++ a ++ post)).
  { unfold parseWikiLinks. rewrite matchAll_wiki_one by assumption.
    cbn [fold_left]. rewrite wiki_step_replaceAll, Ha. cbn [option_map].
    f_equal. rewrite replaceAll_every.
    - unfold all_replaced.
      change (wiki_link c) with (91%N :: 91%N :: c ++ lit "]]").
      rewrite cut_one_occurrence by assumption. reflexivity.
    - discriminate.
    - apply (wiki_anchor_no_dollar (wiki_link c)); [|exact Ha].
      apply Hm; [reflexivity|discriminate|discriminate]. }
  assert (Hu : forall x, span_unit x -> ~ In x a).
  { intros x Hx Hin.
    apply (wiki_anchor_span_unit _ _ x Hx Ha) in Hin.
    apply In_wiki_link in Hin as [->|[->|Hin]].
    - destruct Hx as [H|[H|H]]; discriminate.
    - destruct Hx as [H|[H|H]]; discriminate.
    - destruct Hx as [-> | [-> | ->]].
      + now apply (wiki_char_units c 46%N).
      + contradiction.
      + now apply (wiki_char_units c 64%N). }
  assert (Hfree : forall x, span_unit x -> ~ In x pre -> ~ In x post ->
                            ~ In x (pre ++ a ++ post)).
  { intros x Hx H1 H2 Hin.
    apply in_app_or in Hin as [Hin|Hin]; [contradiction|].
    apply in_app_or in Hin as [Hin|Hin]; [|contradiction].
    now apply (Hu x Hx). }
  unfold encodeLine. rewrite Hw. cbn [option_map]. f_equal.
  unfold parseURLs, parseEmails.
  rewrite no_colon_dot_no_url_match.
  - cbn [fold_left]. rewrite no_at_no_email_match; [reflexivity|].
    apply Hfree; [right; now right|assumption|assumption].
  - apply Hfree; [right; now left|assumption|assumption].
  - apply Hfree; [now left|assumption|assumption].
Qed.

Lemma link_unit_encodes (c : jsstr) :
  Forall (fun u => wiki_char u = true) c ->
  exists e, encodeURIComponent c = Some e.
Proof.
  intros F. apply encodeURIComponent_total.
  eapply Forall_impl; [|exact F]. intros u Hu.
  assert (M : may_consume WIKI_LINK_REGEXP u = true).
  { change (may_consume WIKI_LINK_REGEXP u)
      with ((N.eqb 91 u || (N.eqb 91 u || false))
            || ((wiki_char u || wiki_char u)
                || (N.eqb 93 u || (N.eqb 93 u || false)))).
    rewrite Hu. now rewrite orb_true_r. }
  apply wiki_unit in M as (_ & H1 & H2). auto.
Qed.

(** A bare wiki-link amid plain text becomes an anchor on the encoded
    target, and nothing else of the line changes. *)
Lemma bare_link_encoded :
  forall (lastIndex : nat) (pre target post : jsstr),
    forallb plain_unit pre = true ->
    forallb plain_unit post = true ->
    target <> [] ->
    forallb link_unit target = true ->
    exists e,
      encodeURIComponent target = Some e /\
      encodeLine lastIndex (pre ++ wiki_link target ++ post) =
        Some (pre ++ anchor_html (lit "/" ++ e) target ++ post).
Proof.
  intros li pre c post Hpre Hpost Hc Hl.
  apply link_unit_spec in Hl as (F & Hcolon & Hbar).
  destruct (link_unit_encodes c F) as [e He].
  exists e. split; [exact He|].
  apply link_in_plain_text; try assumption.
  unfold wiki_anchor. rewrite group1_wiki_link.
  rewrite split_on_absent by assumption. now rewrite He.
Qed.

(** An aliased wiki-link amid plain text becomes an anchor on the
    encoded target that shows the alias. *)
Lemma aliased_link_encoded :
  forall (lastIndex : nat) (pre alias target post : jsstr),
    forallb plain_unit pre = true ->
    forallb plain_unit post = true ->
    forallb link_unit alias = true ->
    forallb link_unit target = true ->
    exists e,
      encodeURIComponent target = Some e /\
      encodeLine lastIndex
        (pre ++ wiki_link (alias ++ 124%N :: target) ++ post) =
        Some (pre ++ anchor_html (lit "/" ++ e) alias ++ post).
Proof.
  intros li pre al c post Hpre Hpost Hal Hl.
  apply link_unit_spec in Hl as (F & Hcolon & Hbar).
  apply link_unit_spec in Hal as (Fa & Hacolon & Habar).
  destruct (link_unit_encodes c F) as [e He].
  exists e. split; [exact He|].
  apply link_in_plain_text; try assumption.
  - destruct al; discriminate.
  - apply Forall_app. split; [exact Fa|]. constructor; [reflexivity|exact F].
  - intros Hin. apply in_app_or in Hin as [Hin|[Hin|Hin]];
      [contradiction|discriminate|contradiction].
  - unfold wiki_anchor. rewrite group1_wiki_link.
    rewrite split_on_first by assumption.
    rewrite split_on_absent by assumption. now rewrite He.
Qed.

(** ** Percent-encoding and its inverse *)

Section UriRoundTrip.
Import ZArith Zify.
Local Open Scope N_scope.

Ltac Zify.zify_post_hook ::= Z.to_euclidean_division_equations.

Lemma in_range_true (lo hi x : N) : lo <= x <= hi -> in_range lo hi x = true.
Proof.
  intros [H1 H2]. unfold in_range.
  apply andb_true_iff. split; now apply N.leb_le.
Qed.

Lemma in_range_false (lo hi x : N) :
  x < lo \/ hi < x -> in_range lo hi x = false.
Proof.
  intros H. unfold in_range. apply andb_false_iff.
  destruct H as [H|H]; [left|right]; apply N.leb_gt; exact H.
Qed.

Lemma in_range_spec (lo hi x : N) :
  in_range lo hi x = true <-> lo <= x <= hi.
Proof.
  unfold in_range. rewrite andb_true_iff, !N.leb_le. tauto.
Qed.

Lemma hex_val_hex_digit (q : N) : q < 16 -> hex_val (hex_digit q) = Some q.
Proof.
  intros H. unfold hex_val, hex_digit, is_digit.
  destruct (N.ltb_spec q 10).
  - rewrite in_range_true by lia. f_equal. lia.
  - rewrite in_range_false by lia. rewrite in_range_true by lia.
    f_equal. lia.
Qed.

Lemma read_pct_pct (b : N) (rest : jsstr) :
  b < 256 -> read_pct (pct b ++ rest) = Some (b, rest).
Proof.
  intros H. unfold pct, read_pct. cbn [app]. rewrite N.eqb_refl.
  rewrite !hex_val_hex_digit by lia. f_equal. f_equal. lia.
Qed.

Lemma decode_from_skip (x rest : jsstr) :
  decodeURIComponent_from (x ++ rest) (length x) =
  decodeURIComponent_from rest 0.
Proof. induction x as [|c x IH]; simpl; [reflexivity|exact IH]. Qed.

Lemma flat_map_pct_cons (b : N) (l : list N) (rest : jsstr) :
  flat_map pct (b :: l) ++ rest = pct b ++ (flat_map pct l ++ rest).
Proof. cbn [flat_map]. now rewrite <- app_assoc. Qed.

(** An escape sequence written by [encodeURIComponent] for a code
    point reads back as that code point. *)
Lemma decode_escape_utf8 (cp : N) (rest : jsstr) :
  cp < 1114112 -> ~ (55296 <= cp <= 57343) ->
  decode_escape (flat_map pct (utf8 cp) ++ rest) =
  Some (utf16 cp, length (flat_map pct (utf8 cp))).
Proof.
  intros Hmax Hsur. unfold utf8, decode_escape.
  destruct (N.ltb_spec cp 128) as [H1|H1].
  - rewrite flat_map_pct_cons, read_pct_pct by lia.
    destruct (N.ltb_spec cp 128); [|lia].
    unfold utf16. destruct (N.ltb_spec cp 65536); [|lia]. reflexivity.
  - destruct (N.ltb_spec cp 2048) as [H2|H2].
    + rewrite flat_map_pct_cons, read_pct_pct by lia.
      destruct (N.ltb_spec (192 + cp / 64) 128); [lia|].
      rewrite in_range_true by lia.
      cbn [read_cont]. rewrite flat_map_pct_cons, read_pct_pct by lia.
      rewrite in_range_true by lia.
      replace ((192 + cp / 64 - 192) * 64 + (128 + cp mod 64 - 128)) with cp
        by lia.
      destruct (N.leb_spec 128 cp); [|lia]. reflexivity.
    + destruct (N.ltb_spec cp 65536) as [H3|H3].
      * rewrite flat_map_pct_cons, read_pct_pct by lia.
        destruct (N.ltb_spec (224 + cp / 4096) 128); [lia|].
        rewrite in_range_false by lia. rewrite in_range_true by lia.
        cbn [read_cont]. rewrite flat_map_pct_cons, read_pct_pct by lia.
        rewrite in_range_true by lia.
        rewrite flat_map_pct_cons, read_pct_pct by lia.
        rewrite in_range_true by lia.
        replace (((224 + cp / 4096 - 224) * 64
                  + (128 + (cp / 64) mod 64 - 128)) * 64
                 + (128 + cp mod 64 - 128)) with cp by lia.
        destruct (N.leb_spec 2048 cp); [|lia].
        rewrite in_range_false by lia. reflexivity.
      * rewrite flat_map_pct_cons, read_pct_pct by lia.
        destruct (N.ltb_spec (240 + cp / 262144) 128); [lia|].
        rewrite in_range_false by lia. rewrite in_range_false by lia.
        rewrite in_range_true by lia.
        cbn [read_cont]. rewrite flat_map_pct_cons, read_pct_pct by lia.
        rewrite in_range_true by lia.
        rewrite flat_map_pct_cons, read_pct_pct by lia.
        rewrite in_range_true by lia.
        rewrite flat_map_pct_cons, read_pct_pct by lia.
        rewrite in_range_true by lia.
        replace ((((240 + cp / 262144 - 240) * 64
                   + (128 + (cp / 4096) mod 64 - 128)) * 64
                  + (128 + (cp / 64) mod 64 - 128)) * 64
                 + (128 + cp mod 64 - 128)) with cp by lia.
        rewrite in_range_true by lia. reflexivity.
Qed.

Lemma flat_map_pct_utf8_head (cp : N) :
  exists x, flat_map pct (utf8 cp) = 37 :: x.
Proof.
  unfold utf8.
  destruct (cp <? 128); [|destruct (cp <? 2048); [|destruct (cp <? 65536)]];
    cbn [flat_map pct app]; eauto.
Qed.

Lemma decode_from_utf8 (cp : N) (rest : jsstr) :
  cp < 1114112 -> ~ (55296 <= cp <= 57343) ->
  decodeURIComponent_from (flat_map pct (utf8 cp) ++ rest) 0 =
  option_map (app (utf16 cp)) (decodeURIComponent_from rest 0).
Proof.
  intros H1 H2.
  pose proof (decode_escape_utf8 cp rest H1 H2) as D.
  destruct (flat_map_pct_utf8_head cp) as [x E]. rewrite E in *.
  cbn [app decodeURIComponent_from]. rewrite N.eqb_refl.
  cbn [app] in D. rewrite D. cbn [length Nat.sub].
  rewrite Nat.sub_0_r, decode_from_skip. reflexivity.
Qed.


Lemma encodeURIComponent_cons (c : N) (s' : jsstr) :
  encodeURIComponent (c :: s') =
  if uri_unreserved c then option_map (cons c) (encodeURIComponent s')
  else if is_trail_surrogate c then None
  else if is_lead_surrogate c then
    match s' with
    | d :: s'' =>
        if is_trail_surrogate d then
          option_map
            (app (flat_map pct
                    (utf8 (65536 + (c - 55296) * 1024 + (d - 56320)))))
            (encodeURIComponent s'')
        else None
    | [] => None
    end
  else option_map (app (flat_map pct (utf8 c))) (encodeURIComponent s').
Proof. reflexivity. Qed.

Lemma Some_eq (A : Type) (a b : A) : Some a = Some b -> a = b.
Proof. congruence. Qed.

(** Decoding what [encodeURIComponent] wrote gives the text back. *)
Lemma decode_encode (s e : jsstr) :
  Forall (fun c => c < 65536) s ->
  encodeURIComponent s = Some e -> decodeURIComponent e = Some s.
Proof.
  unfold decodeURIComponent.
  remember (length s) as n eqn:Hn.
  assert (Hle : (length s <= n)%nat) by lia. clear Hn.
  revert s e Hle. induction n as [|n IH]; intros s e Hle F.
  - destruct s; [|simpl in Hle; lia]. intros [= <-]. reflexivity.
  - destruct s as [|c s]; [intros [= <-]; reflexivity|].
    simpl in Hle. inversion F as [|? ? Hc F']; subst.
    rewrite encodeURIComponent_cons.
    destruct (uri_unreserved c) eqn:U.
    + destruct (encodeURIComponent s) as [e'|] eqn:E; [|discriminate].
      cbn [option_map]. intros H. apply Some_eq in H. subst e. cbn [decodeURIComponent_from].
      destruct (N.eqb_spec c 37) as [->|_];
        [vm_compute in U; discriminate|].
      rewrite (IH s e') by (assumption || lia). reflexivity.
    + destruct (is_trail_surrogate c) eqn:T; [discriminate|].
      destruct (is_lead_surrogate c) eqn:L.
      * destruct s as [|d s']; [discriminate|].
        destruct (is_trail_surrogate d) eqn:Td; [|discriminate].
        destruct (encodeURIComponent s') as [e'|] eqn:E; [|discriminate].
        cbn [option_map]. intros H. apply Some_eq in H. subst e.
        apply in_range_spec in L. apply in_range_spec in Td.
        inversion F' as [|? ? Hd F'']; subst.
        rewrite decode_from_utf8 by lia.
        rewrite (IH s' e') by (assumption || (simpl in Hle; lia)).
        cbn [option_map]. f_equal. unfold utf16.
        destruct (N.ltb_spec (65536 + (c - 55296) * 1024 + (d - 56320)) 65536);
          [lia|].
        cbn [app]. f_equal; [lia|]. f_equal. lia.
      * destruct (encodeURIComponent s) as [e'|] eqn:E; [|discriminate].
        cbn [option_map]. intros H. apply Some_eq in H. subst e.
        assert (Hs : ~ (55296 <= c <= 57343)).
        { intros Hr. unfold is_trail_surrogate, is_lead_surrogate in *.
          destruct (N.le_gt_cases c 56319).
          - rewrite in_range_true in L by lia. discriminate.
          - rewrite in_range_true in T by lia. discriminate. }
        rewrite decode_from_utf8 by lia.
        rewrite (IH s e') by (assumption || lia).
        cbn [option_map]. unfold utf16.
        destruct (N.ltb_spec c 65536); [|lia]. reflexivity.
Qed.

End UriRoundTrip.

(** ** Decoding a tree *)

Lemma node_induction (P : node -> Prop) :
  (forall d, P (Text d)) ->
  (forall h p t, P (Anchor h p t)) ->
  (forall s, P (Img s)) ->
  (forall tag children, Forall P children -> P (Elem tag children)) ->
  forall n, P n.
Proof.
  intros Ht Ha Hi He. fix IH 1. intros [d|h p t|s|tag children].
  - apply Ht.
  - apply Ha.
  - apply Hi.
  - apply He. induction children as [|x children IHc]; constructor.
    + apply IH.
    + exact IHc.
Qed.

Lemma anchors_node_Elem (tag : jsstr) (children : list node)
      (st : nat * flow) :
  anchors_node (Elem tag children) st =
  (Elem tag (fst (anchors children st)), snd (anchors children st)).
Proof.
  cbn [anchors_node].
  match goal with
  | |- (let (_, _) := ?g children st in _) = _ =>
      assert (G : forall l s, g l s = anchors l s)
  end.
  { induction l as [|x l IHl]; intros s; [reflexivity|].
    cbn [anchors]. destruct (anchors_node x s) as [x' s1].
    rewrite IHl. reflexivity. }
  rewrite G. destruct (anchors children st). reflexivity.
Qed.

Lemma anchors_cons (x : node) (rest : list node) (st : nat * flow) :
  anchors (x :: rest) st =
  (fst (anchors_node x st) :: fst (anchors rest (snd (anchors_node x st))),
   snd (anchors rest (snd (anchors_node x st)))).
Proof.
  cbn [anchors]. destruct (anchors_node x st) as [x' s1]. cbn [fst snd].
  destruct (anchors rest s1). reflexivity.
Qed.

Lemma anchors_app (a b : list node) (st : nat * flow) :
  anchors (a ++ b) st =
  (fst (anchors a st) ++ fst (anchors b (snd (anchors a st))),
   snd (anchors b (snd (anchors a st)))).
Proof.
  revert st. induction a as [|x a IH]; intros st.
  - cbn [app anchors fst snd]. now destruct (anchors b st).
  - cbn [app]. rewrite !anchors_cons, IH. reflexivity.
Qed.

(** Once a turn has returned or thrown, the rest of the tree is left
    as it is. *)
Lemma anchors_node_stopped (n : node) :
  forall st, snd st <> Next -> anchors_node n st = (n, st).
Proof.
  induction n as [d|h p t|s|tag children IH] using node_induction;
    intros st Hst; try reflexivity.
  - cbn [anchors_node]. destruct (snd st); [congruence| |]; reflexivity.
  - rewrite anchors_node_Elem.
    assert (G : anchors children st = (children, st)).
    { revert st Hst. induction IH as [|x l Hx Hl IHl]; intros st Hst;
        [reflexivity|].
      rewrite anchors_cons, (Hx st Hst). cbn [fst snd].
      rewrite (IHl st Hst). reflexivity. }
    rewrite G. reflexivity.
Qed.

Lemma anchors_stopped (l : list node) (st : nat * flow) :
  snd st <> Next -> anchors l st = (l, st).
Proof.
  intros Hst. induction l as [|x l IH]; [reflexivity|].
  rewrite anchors_cons, (anchors_node_stopped x st Hst). cbn [fst snd].
  now rewrite IH.
Qed.

Lemma anchors_node_mailto (n : node) :
  forall lastIndex,
    only_mailto n = true ->
    anchors_node n (lastIndex, Next) = (mail_text n, (lastIndex, Next)).
Proof.
  induction n as [d|h p t|s|tag children IH] using node_induction;
    intros li H; try reflexivity.
  - cbn [anchors_node snd fst]. unfold anchor_turn.
    cbn [only_mailto] in H. rewrite H. reflexivity.
  - rewrite anchors_node_Elem. cbn [only_mailto mail_text] in *.
    assert (G : anchors children (li, Next)
                = (List.map mail_text children, (li, Next))).
    { induction IH as [|x l Hx Hl IHl]; [reflexivity|].
      cbn [forallb] in H. apply andb_true_iff in H as [H1 H2].
      rewrite anchors_cons, (Hx li H1). cbn [fst snd].
      rewrite (IHl H2). reflexivity. }
    rewrite G. reflexivity.
Qed.

Lemma anchors_mailto (l : list node) (lastIndex : nat) :
  forallb only_mailto l = true ->
  anchors l (lastIndex, Next) = (List.map mail_text l, (lastIndex, Next)).
Proof.
  induction l as [|x l IH]; intros H; [reflexivity|].
  cbn [forallb] in H. apply andb_true_iff in H as [H1 H2].
  rewrite anchors_cons, (anchors_node_mailto x lastIndex H1). cbn [fst snd].
  rewrite (IH H2). reflexivity.
Qed.

(** X6: on a tree whose anchors are all mailto links [htmlToText] runs
    to its end: every anchor becomes its text, then every image its
    source, and the lastIndex of the URL pattern is not touched. *)
Theorem mailto_tree_decoded :
  forall (lastIndex : nat) (el : list node),
    forallb only_mailto el = true ->
    htmlToText lastIndex el =
      (images (List.map mail_text el), lastIndex, Normal).
Proof.
  intros li el H. unfold htmlToText.
  rewrite (anchors_mailto el li H). reflexivity.
Qed.

Lemma search_none_url (s : jsstr) :
  ~ In 58%N s -> ~ In 46%N s -> search URL_REGEXP s = None.
Proof.
  intros H1 H2. destruct (search URL_REGEXP s) eqn:E; [|reflexivity].
  apply search_sound in E as (pre & t & rest & -> & Hm).
  apply url_match_has in Hm as [Hm|Hm]; exfalso;
    [apply H1|apply H2]; apply in_or_app; now right.
Qed.

Lemma test_g_url_plain (lastIndex : nat) (s : jsstr) :
  ~ In 58%N s -> ~ In 46%N s -> test_g URL_REGEXP lastIndex s = (false, O).
Proof.
  intros H1 H2. unfold test_g.
  destruct (Nat.ltb (length s) lastIndex); [reflexivity|].
  rewrite search_none_url; [reflexivity| |];
    intros Hin; apply In_skipn_In in Hin; contradiction.
Qed.

Lemma wiki_char_bmp (u : N) : wiki_char u = true -> (u < 65536)%N.
Proof.
  intros H.
  unfold wiki_char, is_alnum, is_lower, is_upper, is_digit, is_space,
    in_range in H.
  change (one_of (lit "?-':_(|)") u)
    with (existsb (N.eqb u) [63; 45; 39; 58; 95; 40; 124; 41]%N) in H.
  unfold one_of in H. cbn [existsb] in H.
  btrue H; lia.
Qed.

Lemma decode_path (target e : jsstr) :
  Forall (fun c => (c < 65536)%N) target ->
  encodeURIComponent target = Some e ->
  decodeURIComponent (lit "/" ++ e) = Some (lit "/" ++ target).
Proof.
  intros F E. pose proof (decode_encode target e F E) as D.
  unfold decodeURIComponent in *.
  change (lit "/" ++ e) with (47%N :: e).
  cbn [decodeURIComponent_from]. change (N.eqb 47 37) with false.
  cbv iota. rewrite D. reflexivity.
Qed.

(** One turn of the anchor loop on the anchor a wiki-link was encoded
    to: the link comes back, bare when the text is the target. *)
Lemma link_anchor_turn (lastIndex : nat) (href target text e : jsstr) :
  includes (lit "mailto:") href = false ->
  Forall (fun c => (c < 65536)%N) target ->
  encodeURIComponent target = Some e ->
  ~ In 58%N text -> ~ In 46%N text ->
  anchor_turn lastIndex href (lit "/" ++ e) text =
    if str_eqb target text
    then (Text (wiki_link text), (O, Return))
    else (Text (wiki_link (text ++ 124%N :: target)), (O, Next)).
Proof.
  intros Hm F E H1 H2. unfold anchor_turn.
  rewrite Hm, (decode_path target e F E).
  change (slice1 (lit "/" ++ target)) with target.
  rewrite test_g_url_plain by assumption.
  destruct (str_eqb target text); [reflexivity|].
  unfold wiki_link. f_equal. f_equal. rewrite <- app_assoc. reflexivity.
Qed.

Lemma link_unit_bmp (c : jsstr) :
  forallb link_unit c = true -> Forall (fun u => (u < 65536)%N) c.
Proof.
  intros H. apply link_unit_spec in H as (F & _ & _).
  eapply Forall_impl; [|exact F]. apply wiki_char_bmp.
Qed.

Lemma link_unit_no_dot (c : jsstr) :
  forallb link_unit c = true -> ~ In 58%N c /\ ~ In 46%N c.
Proof.
  intros H. apply link_unit_spec in H as (F & H1 & _). split; [exact H1|].
  now apply (wiki_char_units c 46%N).
Qed.

(** X4: a bare wiki-link amid plain text is encoded as an anchor on the
    encoded target, and [htmlToText] gives the link back from that
    anchor. *)
Theorem bare_link_round_trip :
  forall (lastIndex lastIndex' : nat) (href pre target post : jsstr),
    forallb plain_unit pre = true ->
    forallb plain_unit post = true ->
    target <> [] ->
    forallb link_unit target = true ->
    includes (lit "mailto:") href = false ->
    exists e,
      encodeURIComponent target = Some e /\
      encodeLine lastIndex (pre ++ wiki_link target ++ post)
        = Some (pre ++ anchor_html (lit "/" ++ e) target ++ post) /\
      htmlToText lastIndex' [Anchor href (lit "/" ++ e) target]
        = ([Text (wiki_link target)], O, Normal).
Proof.
  intros li li' href pre c post Hpre Hpost Hc Hl Hm.
  destruct (bare_link_encoded li pre c post Hpre Hpost Hc Hl)
    as (e & He & Henc).
  exists e. split; [exact He|]. split; [exact Henc|].
  destruct (link_unit_no_dot c Hl) as [H1 H2].
  unfold htmlToText. cbn [anchors anchors_node snd fst].
  rewrite (link_anchor_turn li' href c c e Hm (link_unit_bmp c Hl) He H1 H2).
  rewrite str_eqb_refl. reflexivity.
Qed.

(** X5: an aliased wiki-link amid plain text is encoded as an anchor on
    the encoded target that shows the alias; [htmlToText] gives the
    link back from that anchor, but without the target when the target
    is the alias. *)
Theorem aliased_link_round_trip :
  forall (lastIndex lastIndex' : nat) (href pre alias target post : jsstr),
    forallb plain_unit pre = true ->
    forallb plain_unit post = true ->
    forallb link_unit alias = true ->
    forallb link_unit target = true ->
    includes (lit "mailto:") href = false ->
    exists e,
      encodeURIComponent target = Some e /\
      encodeLine lastIndex
        (pre ++ wiki_link (alias ++ 124%N :: target) ++ post)
        = Some (pre ++ anchor_html (lit "/" ++ e) alias ++ post) /\
      htmlToText lastIndex' [Anchor href (lit "/" ++ e) alias]
        = ([Text (if str_eqb target alias then wiki_link alias
                  else wiki_link (alias ++ 124%N :: target))],
           O, Normal).
Proof.
  intros li li' href pre al c post Hpre Hpost Hal Hl Hm.
  destruct (aliased_link_encoded li pre al c post Hpre Hpost Hal Hl)
    as (e & He & Henc).
  exists e. split; [exact He|]. split; [exact Henc|].
  destruct (link_unit_no_dot al Hal) as [H1 H2].
  unfold htmlToText. cbn [anchors anchors_node snd fst].
  rewrite (link_anchor_turn li' href c al e Hm (link_unit_bmp c Hl) He H1 H2).
  destruct (str_eqb c al); reflexivity.
Qed.

(** The turn of an anchor that is no mailto link, whose pathname
    decodes, and whose text is a URL or the decoded pathname without
    its slash: the text replaces the anchor and the walk returns. *)
Lemma plain_link_turn (lastIndex : nat) (href pathname text decoded : jsstr) :
  includes (lit "mailto:") href = false ->
  decodeURIComponent pathname = Some decoded ->
  fst (test_g URL_REGEXP lastIndex text) = true \/ slice1 decoded = text ->
  anchor_turn lastIndex href pathname text =
    (Text (if fst (test_g URL_REGEXP lastIndex text)
           then text else wiki_link text),
     (snd (test_g URL_REGEXP lastIndex text), Return)).
Proof.
  intros Hm Hd Hor.
  unfold anchor_turn. rewrite Hm, Hd.
  destruct (test_g URL_REGEXP lastIndex text) as [b li'] eqn:E.
  cbn [fst snd] in *.
  destruct b; [reflexivity|].
  destruct Hor as [Hor|Hor]; [discriminate|].
  rewrite Hor, str_eqb_refl. reflexivity.
Qed.

(** X7: [htmlToText] ends at the first anchor that is neither a mailto
    link nor an aliased link: the mailto links before it are decoded,
    it is decoded, and everything after it is left as it was, anchors
    and images included. *)
Theorem walk_ends_at_first_plain_link :
  forall (lastIndex : nat) (pre rest : list node)
         (href pathname text decoded : jsstr),
    forallb only_mailto pre = true ->
    includes (lit "mailto:") href = false ->
    decodeURIComponent pathname = Some decoded ->
    fst (test_g URL_REGEXP lastIndex text) = true
      \/ slice1 decoded = text ->
    htmlToText lastIndex (pre ++ Anchor href pathname text :: rest) =
      (List.map mail_text pre
         ++ Text (if fst (test_g URL_REGEXP lastIndex text)
                  then text else wiki_link text) :: rest,
       snd (test_g URL_REGEXP lastIndex text), Normal).
Proof.
  intros li pre rest h p t d Hpre Hm Hd Hor.
  unfold htmlToText.
  rewrite anchors_app, (anchors_mailto pre li Hpre). cbn [fst snd].
  rewrite anchors_cons. cbn [anchors_node snd fst].
  rewrite (plain_link_turn li h p t d Hm Hd Hor). cbn [fst snd].
  rewrite anchors_stopped by (cbn; discriminate). reflexivity.
Qed.

Lemma decode_stray_percent (x : jsstr) :
  ~ In 37%N x -> decodeURIComponent (x ++ [37%N]) = None.
Proof.
  unfold decodeURIComponent. induction x as [|c x IH]; intros H.
  - reflexivity.
  - cbn [app decodeURIComponent_from].
    destruct (N.eqb_spec c 37) as [->|_]; [exfalso; apply H; now left|].
    rewrite IH; [reflexivity|]. intros Hin. apply H. now right.
Qed.

(** X8: an anchor that is no mailto link and whose pathname ends in a
    stray percent sign makes [htmlToText] throw a URIError: the mailto
    links before it are decoded, it and everything after it are left
    as they were. *)
Theorem bad_pathname_throws :
  forall (lastIndex : nat) (pre rest : list node) (href x text : jsstr),
    forallb only_mailto pre = true ->
    includes (lit "mailto:") href = false ->
    ~ In 37%N x ->
    htmlToText lastIndex (pre ++ Anchor href (x ++ [37%N]) text :: rest) =
      (List.map mail_text pre ++ Anchor href (x ++ [37%N]) text :: rest,
       lastIndex, URIError).
Proof.
  intros li pre rest h x t Hpre Hm Hx.
  unfold htmlToText.
  rewrite anchors_app, (anchors_mailto pre li Hpre). cbn [fst snd].
  rewrite anchors_cons. cbn [anchors_node snd fst].
  unfold anchor_turn. rewrite Hm, (decode_stray_percent x Hx).
  cbn [fst snd].
  rewrite anchors_stopped by (cbn; discriminate). reflexivity.
Qed.

Lemma skipn_short (n : nat) (l : jsstr) : length l <= n -> skipn n l = [].
Proof.
  revert l. induction n as [|n IH]; intros [|c l] H; simpl in *;
    try reflexivity; try lia. apply IH. lia.
Qed.

Lemma parseURLs_stale (lastIndex : nat) (line : jsstr) :
  length line <= lastIndex -> parseURLs lastIndex line = line.
Proof.
  intros H. unfold parseURLs, matchAll.
  destruct (Nat.ltb (length line) lastIndex); [reflexivity|].
  rewrite skipn_short by assumption. cbn [matches_from search].
  destruct (match_here URL_REGEXP []) eqn:E; [|reflexivity].
  exfalso. now apply (match_here_nil URL_REGEXP j).
Qed.

Lemma test_g_true_index (r : regex) (s : jsstr) :
  never_empty r = true -> fst (test_g r 0 s) = true ->
  0 < snd (test_g r 0 s).
Proof.
  intros Hn. unfold test_g. cbn [Nat.ltb Nat.leb skipn].
  destruct (search r s) as [[[i m] rest]|] eqn:E; [|discriminate].
  intros _. cbn [snd].
  apply search_consumes in E as [_ Ne]. specialize (Ne Hn).
  destruct m; [congruence|]. simpl. lia.
Qed.

(** X9: decoding a link whose text is a URL leaves the lastIndex of the
    shared URL pattern past the start, and with that lastIndex
    [parseURLs] links nothing in a line that is no longer than it. *)
Theorem url_link_leaves_lastIndex :
  forall (rest : list node) (href pathname text decoded : jsstr),
    includes (lit "mailto:") href = false ->
    decodeURIComponent pathname = Some decoded ->
    fst (test_g URL_REGEXP 0 text) = true ->
    exists lastIndex,
      0 < lastIndex /\
      htmlToText 0 (Anchor href pathname text :: rest)
        = (Text text :: rest, lastIndex, Normal) /\
      forall line, length line <= lastIndex ->
                   parseURLs lastIndex line = line.
Proof.
  intros rest h p t d Hm Hd Ht.
  exists (snd (test_g URL_REGEXP 0 t)). split; [|split].
  - now apply test_g_true_index.
  - unfold htmlToText. rewrite anchors_cons. cbn [anchors_node snd fst].
    rewrite (plain_link_turn 0 h p t d Hm Hd (or_introl Ht)), Ht.
    cbn [fst snd].
    rewrite anchors_stopped by (cbn; discriminate). reflexivity.
  - intros line. apply parseURLs_stale.
Qed.

(** ** The registry in every reachable world *)

Lemma sound_register (c : jsval) (s s' : ComponentRegister) :
  sound_registry (components s) -> register c s = Some s' ->
  sound_registry (components s').
Proof.
  intros [H1 H2]. unfold register.
  destruct (get_prop _ (lit "id") c) as [id|] eqn:E; [|discriminate].
  destruct (to_key _ id) as [key|]; [|discriminate].
  intros [= <-]. unfold assign.
  destruct (lands key s); [|destruct c; now split].
  cbn [components with_components]. split.
  - now apply NoDup_obj_set.
  - apply no_nullish_obj_set; [|assumption].
    eapply get_prop_some_not_nullish; eauto.
Qed.

Lemma sound_unregister (id : jsval) (s s' : ComponentRegister) :
  sound_registry (components s) -> unregister id s = Some s' ->
  sound_registry (components s').
Proof.
  intros [H1 H2]. unfold unregister.
  destruct (to_key _ id); [|discriminate]. intros [= <-].
  split; [now apply NoDup_obj_delete|now apply no_nullish_obj_delete].
Qed.

Lemma sound_merge (d : jsval) (s s' : ComponentRegister) :
  sound_registry (components s) -> merge d s = Some s' ->
  sound_registry (components s').
Proof.
  intros [H1 H2]. unfold merge. destruct (truthy d); [|now intros [= <-]].
  destruct (get_prop _ (lit "id") d) as [id|]; [|discriminate].
  destruct (get_content (behind s) d) as [c|]; [|discriminate].
  destruct (to_key _ id) as [key|]; [|discriminate].
  destruct (find key s) as [v|p v|[p|]| |v|];
    try discriminate;
    try (destruct v as [| | |o|n]; try discriminate);
    cbn [set_content]; intros [= <-]; try (now split);
    cbn [components with_components with_shared]; split;
    try (now rewrite keys_replace_value);
    now apply no_nullish_replace_value.
Qed.

Section ReachableFacts.
Variable CURRENT_TITLE : jsval.
Variable updateMRU : jsval -> bool.

Lemma sound_savePage (d : jsval) (s : ComponentRegister) :
  sound_registry (components s) ->
  sound_registry (components (after (savePage CURRENT_TITLE d s))).
Proof.
  intros H. unfold savePage.
  destruct (merge d _) as [s1|] eqn:M; [|exact H].
  assert (H' : sound_registry (components s1))
    by (eapply sound_merge; [|exact M]; exact H).
  destruct (assemble CURRENT_TITLE s1); exact H'.
Qed.

Lemma sound_handleMessage (m : message) (s : ComponentRegister) :
  sound_registry (components s) ->
  sound_registry (components (after (handleMessage CURRENT_TITLE m s))).
Proof.
  intros H. destruct m as [d|d|d|d|]; cbn [handleMessage].
  - destruct (mstate_eqb (machine s) idle); [|exact H].
    now apply sound_savePage.
  - destruct (register d s) as [s1|] eqn:R; [|exact H].
    eapply sound_register; eauto.
  - destruct (unregister d s) as [s1|] eqn:U; [|exact H].
    pose proof (sound_unregister d _ _ H U) as H'.
    destruct (register d s1) as [s2|] eqn:R; [|exact H'].
    eapply sound_register; eauto.
  - exact H.
  - exact H.
Qed.

Lemma reachable_sound (w : world) :
  reachable CURRENT_TITLE updateMRU w ->
  sound_registry (components (coordinator w)).
Proof.
  induction 1 as [|w w' Hr IH Hs].
  - split; [constructor|reflexivity].
  - destruct Hs as [w m|w snap rest r Hin|w]; cbn [coordinator].
    + now apply sound_handleMessage.
    + now rewrite (proj1 (settle_components updateMRU snap r _)).
    + exact IH.
Qed.

(** On a registry without a repeated key [getType] is a filter over
    the entries. *)
Lemma getType_filters_entries (type : jsstr) (cs : props) :
  NoDup (obj_keys cs) ->
  getType type cs =
    List.map snd (filter (fun kv => includes type (fst kv)) cs).
Proof.
  revert type cs. intros t cs Hn. rewrite getType_flat_map. unfold obj_keys.
  rewrite flat_map_concat_map, map_map, <- flat_map_concat_map.
  transitivity
    (flat_map (fun kv => if includes t (fst kv) then [snd kv] else []) cs).
  - apply flat_map_ext_on. intros [k v] Hin. simpl.
    unfold obj_get. now rewrite (NoDup_lookup cs k v Hn Hin).
  - clear Hn. induction cs as [|[k v] cs IH]; simpl; [reflexivity|].
    destruct (includes t k); simpl; now rewrite IH.
Qed.

(** X16: a SAVE never adds, removes or moves a key of the registry,
    whatever its partial, whether it returns or throws. *)
Theorem save_keeps_keys :
  forall (d : jsval) (s : ComponentRegister),
    obj_keys (components (after (handleMessage CURRENT_TITLE (SAVE d) s)))
    = obj_keys (components s).
Proof.
  intros d s. cbn [handleMessage].
  destruct (mstate_eqb (machine s) idle); [|reflexivity].
  unfold savePage. destruct (merge d _) as [s1|] eqn:M; [|reflexivity].
  apply merge_keys in M. destruct (assemble CURRENT_TITLE s1); exact M.
Qed.

Lemma save_of_unregistered_id (partial : jsval) (key : jsstr)
      (s : ComponentRegister) :
  machine s = idle ->
  truthy partial = true ->
  id_of (shared (behind s)) partial = Some key ->
  find key s = Missing ->
  handleMessage CURRENT_TITLE (SAVE partial) s =
    {| after := with_machine submitting s; writes := [];
       result := TypeError |}.
Proof.
  intros Hi Ht Hid F. rewrite save_in_idle by assumption.
  unfold savePage. rewrite Hi. change (send stateChart SUBMITTING idle)
    with submitting.
  unfold merge. rewrite Ht. unfold id_of in Hid.
  change (behind (with_machine submitting s)) with (behind s).
  destruct (get_prop _ (lit "id") partial) as [id|]; [|discriminate].
  rewrite Hid.
  change (find key (with_machine submitting s)) with (find key s).
  rewrite F.
  now destruct (get_content (behind s) partial).
Qed.

(** Once the machine is in submitting with nothing in flight, it stays
    so whatever happens. *)
Lemma blocked_step (w w' : world) :
  machine (coordinator w) = submitting -> inflight w = [] ->
  step CURRENT_TITLE updateMRU w w' ->
  machine (coordinator w') = submitting /\ inflight w' = [] /\
  issued w' = issued w.
Proof.
  intros Hm Hi Hs. destruct Hs as [w m|w snap rest r Hin|w];
    cbn [coordinator inflight issued].
  - assert (Hn : machine (coordinator w) <> idle) by congruence.
    rewrite (handle_writes_outside_idle CURRENT_TITLE m _ Hn),
      (handle_machine CURRENT_TITLE m _ Hn), Hi, !app_nil_r.
    repeat split; auto.
  - congruence.
  - cbn [machine with_machine]. rewrite Hm. repeat split; auto.
Qed.

Lemma blocked_for_good (w w' : world) :
  machine (coordinator w) = submitting -> inflight w = [] ->
  steps CURRENT_TITLE updateMRU w w' ->
  machine (coordinator w') = submitting /\ inflight w' = [] /\
  issued w' = issued w.
Proof.
  intros Hm Hi Hs.
  induction Hs as [w|w w1 w2 H1 H2 IH]; [repeat split; auto|].
  destruct (blocked_step w w1 Hm Hi H1) as (Hm1 & Hi1 & He1).
  destruct (IH Hm1 Hi1) as (Hm2 & Hi2 & He2).
  repeat split; congruence.
Qed.

(** X15: when the write in flight is answered with a status of 400 or
    more, the coordinator is blocked for good: whatever messages and
    events follow, the machine stays in submitting and no write is
    issued any more. *)
Theorem failing_status_blocks :
  forall w snap status w',
    reachable CURRENT_TITLE updateMRU w ->
    inflight w = [snap] ->
    (400 <= status)%N ->
    steps CURRENT_TITLE updateMRU
          {| coordinator := settle updateMRU snap (Resolved status)
                                   (coordinator w);
             inflight := []; issued := issued w |} w' ->
    machine (coordinator w') = submitting /\ issued w' = issued w.
Proof.
  intros w snap status w' Hr Hin Hst Hs.
  destruct (at_most_one_in_flight CURRENT_TITLE updateMRU w Hr)
    as [E|[_ Hm]]; [congruence|].
  apply blocked_for_good in Hs.
  - cbn [issued] in Hs. destruct Hs as (H1 & _ & H3). auto.
  - cbn [coordinator]. now rewrite settle_failing_status.
  - reflexivity.
Qed.

(** X14: in a reachable world the machine is in submitting while a
    write is in flight, at most one write is in flight, and a SAVE sent
    then is dropped: it returns, issues nothing and leaves the
    coordinator as it is. *)
Theorem write_in_flight_blocks_saves :
  forall (w : world) (partial : jsval),
    reachable CURRENT_TITLE updateMRU w ->
    inflight w <> [] ->
    length (inflight w) = 1 /\
    machine (coordinator w) = submitting /\
    handleMessage CURRENT_TITLE (SAVE partial) (coordinator w) =
      {| after := coordinator w; writes := []; result := Returned |}.
Proof.
  intros w d Hr Hne.
  destruct (at_most_one_in_flight CURRENT_TITLE updateMRU w Hr)
    as [E|[[snap E] Hm]]; [contradiction|].
  split; [now rewrite E|]. split; [exact Hm|].
  apply save_outside_idle. congruence.
Qed.

(** X12: the message UNREGISTER with a string id returns, issues
    nothing and leaves the machine alone; it removes the component of
    that id, files the id string itself under the key "undefined", and
    leaves every other key as it was. *)
Theorem unregister_message :
  forall (id : jsstr) (s : ComponentRegister),
    let o := handleMessage CURRENT_TITLE (UNREGISTER (VStr id)) s in
    result o = Returned /\ writes o = [] /\
    machine (after o) = machine s /\
    lookup (lit "undefined") (components (after o)) = Some (VStr id) /\
    (id <> lit "undefined" -> lookup id (components (after o)) = None) /\
    (forall k, k <> id -> k <> lit "undefined" ->
               lookup k (components (after o)) = lookup k (components s)).
Proof.
  intros id s. cbn. repeat split.
  - now rewrite lookup_obj_set, str_eqb_refl.
  - intros H. rewrite lookup_obj_set.
    apply str_eqb_neq in H. rewrite H.
    now rewrite lookup_delete, str_eqb_refl.
  - intros k H1 H2. rewrite lookup_obj_set.
    apply str_eqb_neq in H2. rewrite H2.
    rewrite lookup_delete.
    apply str_eqb_neq in H1. now rewrite H1.
Qed.

(** X10: [register] of a component that has a key to be filed under
    files it under that key, leaving the other keys and what lies
    behind the registry as they were, and [unregister] of that key
    then removes it; except that under the key [__proto__], when
    neither the registry nor its prototype object has such a property,
    a component object becomes the prototype of the registry and the
    keys stay as they were.  A component that has no key to be filed
    under makes [register] throw. *)
Theorem register_read_back :
  forall (component : jsval) (s : ComponentRegister),
    (id_of (shared (behind s)) component = None ->
     register component s = None) /\
    (forall k,
        id_of (shared (behind s)) component = Some k ->
        lands k s = true ->
        exists s',
          register component s = Some s' /\
          lookup k (components s') = Some component /\
          (forall k', k' <> k ->
                      lookup k' (components s') = lookup k' (components s)) /\
          behind s' = behind s /\
          machine s' = machine s /\
          exists s'',
            unregister (VStr k) s' = Some s'' /\
            lookup k (components s'') = None) /\
    (forall o,
        component = VObj o ->
        id_of (shared (behind s)) component = Some (lit "__proto__") ->
        lands (lit "__proto__") s = false ->
        register component s = Some (with_prototype o s)).
Proof.
  intros c s. unfold register, id_of.
  destruct (get_prop _ (lit "id") c) as [id|]; [|repeat split; discriminate].
  destruct (to_key _ id) as [key|]; [|repeat split; discriminate].
  split; [discriminate|]. split.
  - intros k [= ->] Hl. eexists. split; [reflexivity|].
    unfold assign. rewrite Hl. cbn [components behind machine with_components].
    repeat split.
    + now rewrite lookup_obj_set, str_eqb_refl.
    + intros k' Hk. rewrite lookup_obj_set.
      apply str_eqb_neq in Hk. now rewrite Hk.
    + eexists. split; [reflexivity|].
      cbn [components with_components].
      now rewrite lookup_delete, str_eqb_refl.
  - intros o -> [= ->] Hl. unfold assign. now rewrite Hl.
Qed.

(** X11: [unregister] removes the key that the id makes and no other,
    and does nothing on a registry without that key; an id that cannot
    be made a key makes it throw. *)
Theorem unregister_removes_one :
  forall (id : jsval) (s : ComponentRegister),
    (to_key (shared (behind s)) id = None -> unregister id s = None) /\
    (forall k,
        to_key (shared (behind s)) id = Some k ->
        exists s',
          unregister id s = Some s' /\
          lookup k (components s') = None /\
          (forall k', k' <> k ->
                      lookup k' (components s') = lookup k' (components s)) /\
          (lookup k (components s) = None -> s' = s) /\
          behind s' = behind s /\
          machine s' = machine s).
Proof.
  intros id s. unfold unregister.
  destruct (to_key _ id) as [key|]; [|split; [reflexivity|discriminate]].
  split; [discriminate|]. intros k [= ->].
  eexists. split; [reflexivity|].
  cbn [components behind machine with_components]. repeat split.
  - now rewrite lookup_delete, str_eqb_refl.
  - intros k' Hk. rewrite lookup_delete. apply str_eqb_neq in Hk.
    now rewrite Hk.
  - intros L. unfold with_components. rewrite (obj_delete_absent _ _ L).
    now destruct s.
Qed.

Lemma assemble_shape (s : ComponentRegister) (snap : snapshot) :
  assemble CURRENT_TITLE s = Some snap ->
  exists blocks texts,
    contents (behind s) (getType (lit "block") (components s)) = Some blocks /\
    sequence (List.map (join_text (shared (behind s))) blocks) = Some texts /\
    body snap = join [10%N] texts /\
    old_title snap = CURRENT_TITLE.
Proof.
  unfold assemble, join_lines.
  destruct (get_content (behind s) (chain_get (lit "title") s)) as [t|];
    [|discriminate].
  destruct (contents (behind s) (getType (lit "block") (components s)))
    as [bs|]; [|discriminate].
  destruct (sequence (List.map (join_text (shared (behind s))) bs))
    as [ts|] eqn:Hs; [|discriminate].
  cbn [option_map].
  destruct (get_content (behind s) (chain_get (lit "tag") s)) as [g|];
    [|discriminate].
  destruct (get_content (behind s) (chain_get (lit "metadata") s)) as [m|];
    [|discriminate].
  destruct (written_out _ t); [|discriminate].
  destruct (written_out _ g); [|discriminate].
  destruct (written_out _ m); [|discriminate].
  intros [= <-]. exists bs, ts. repeat split. exact Hs.
Qed.

(** X18: in a reachable world in idle where the content of title, tag
    and metadata can be read and written out and the content of every
    block can be read and turned into a string, nothing is in flight,
    and a SAVE without partial returns, moves the machine to submitting
    and issues one write, whose body is the text of the contents of the
    components that have block in their key, in registry order, joined
    by newlines. *)
Theorem reachable_save_issues_write :
  forall w,
    reachable CURRENT_TITLE updateMRU w ->
    machine (coordinator w) = idle ->
    ready (coordinator w) = true ->
    inflight w = [] /\
    exists snap blocks texts,
      handleMessage CURRENT_TITLE (SAVE VUndefined) (coordinator w) =
        {| after := with_machine submitting (coordinator w);
           writes := [snap]; result := Returned |} /\
      contents (behind (coordinator w))
        (List.map snd
           (filter (fun kv => includes (lit "block") (fst kv))
                   (components (coordinator w)))) = Some blocks /\
      sequence (List.map (join_text (shared (behind (coordinator w)))) blocks)
        = Some texts /\
      body snap = join [10%N] texts /\
      old_title snap = CURRENT_TITLE.
Proof.
  intros w Hr Hi Hrd.
  destruct (reachable_sound w Hr) as [Hn Hv].
  split.
  - destruct (at_most_one_in_flight CURRENT_TITLE updateMRU w Hr)
      as [E|[_ Hs]]; [exact E|congruence].
  - set (s0 := with_machine submitting (coordinator w)).
    assert (R0 : ready s0 = true) by exact Hrd.
    destruct (assemble_total CURRENT_TITLE s0 R0) as [snap A].
    destruct (assemble_shape _ _ A) as (bs & ts & Hc & Hs & Hb & Ho).
    exists snap, bs, ts.
    rewrite <- getType_filters_entries by assumption.
    repeat split; try assumption.
    rewrite save_in_idle by assumption.
    unfold savePage. rewrite Hi.
    change (send stateChart SUBMITTING idle) with submitting.
    fold s0. cbn [merge truthy]. rewrite A. reflexivity.
Qed.

(** X13: in every reachable world no key of the registry is repeated,
    no entry is undefined or null, and [getType] gives, in registry
    order, the entries whose key contains the type. *)
Theorem reachable_registry_sound :
  forall w, reachable CURRENT_TITLE updateMRU w ->
    NoDup (obj_keys (components (coordinator w))) /\
    (forall k v, lookup k (components (coordinator w)) = Some v ->
                 nullish v = false) /\
    (forall type,
        getType type (components (coordinator w)) =
          List.map snd (filter (fun kv => includes type (fst kv))
                               (components (coordinator w)))).
Proof.
  intros w Hr. destruct (reachable_sound w Hr) as [Hn Hv].
  split; [exact Hn|]. split.
  - intros k v L. apply lookup_In in L.
    unfold no_nullish_entry in Hv. rewrite forallb_forall in Hv.
    apply Hv in L. cbn [snd] in L. now destruct (nullish v).
  - intros t. now apply getType_filters_entries.
Qed.

Lemma reachable_arrive (ms : list message) (w : world) :
  reachable CURRENT_TITLE updateMRU w ->
  reachable CURRENT_TITLE updateMRU (arrive CURRENT_TITLE ms w).
Proof.
  revert w. induction ms as [|m ms IH]; intros w H; [exact H|].
  apply IH. eapply reach_step; [exact H|]. apply step_deliver.
Qed.

(** X17: in a reachable world in idle, a SAVE whose partial names a key
    that the lookup in the registry finds nothing for throws a
    TypeError after the machine has moved to submitting, and that
    blocks the coordinator for good: whatever follows, the machine
    stays in submitting and no write is issued. *)
Theorem unregistered_id_blocks :
  forall (partial : jsval) (key : jsstr) (w w' : world),
    reachable CURRENT_TITLE updateMRU w ->
    machine (coordinator w) = idle ->
    truthy partial = true ->
    id_of (shared (behind (coordinator w))) partial = Some key ->
    find key (coordinator w) = Missing ->
    handleMessage CURRENT_TITLE (SAVE partial) (coordinator w) =
      {| after := with_machine submitting (coordinator w);
         writes := []; result := TypeError |} /\
    (steps CURRENT_TITLE updateMRU
           (arrive1 CURRENT_TITLE (SAVE partial) w) w' ->
     machine (coordinator w') = submitting /\ issued w' = issued w).
Proof.
  intros d key w w' Hr Hi Ht Hid F.
  pose proof (save_of_unregistered_id d key (coordinator w) Hi Ht Hid F) as E.
  split; [exact E|]. intros Hs.
  assert (Hin : inflight w = []).
  { destruct (at_most_one_in_flight CURRENT_TITLE updateMRU w Hr)
      as [H|[_ H]]; [exact H|congruence]. }
  apply blocked_for_good in Hs.
  - destruct Hs as (H1 & _ & H3). split; [exact H1|].
    rewrite H3. unfold arrive1. cbn [issued]. rewrite E. cbn [writes].
    apply app_nil_r.
  - unfold arrive1. cbn [coordinator]. rewrite E. reflexivity.
  - unfold arrive1. cbn [inflight]. rewrite E, Hin. reflexivity.
Qed.

End ReachableFacts.

(** ** Page shortcuts *)

Section ScriptFacts.
Variable ranged : Type.
Variable collapse_and_select : ranged -> ranged.

Abbreviation keydown' := (Script.keydown collapse_and_select).

Lemma keydown_frame (ev : Script.target * jsstr) (p : Script.page ranged) :
  Script.linkto (keydown' ev p) = Script.linkto p /\
  (Script.edit_box p = Some true ->
   Script.edit_box (keydown' ev p) = Some true) /\
  (Script.edit_box p = None -> Script.edit_box (keydown' ev p) = None) /\
  (Script.pathname (keydown' ev p) = Script.pathname p \/
   Script.pathname (keydown' ev p) = lit "/search" \/
   Script.pathname (keydown' ev p) = lit "/new") /\
  (fst ev <> Script.OnBody ->
   Script.edit_box (keydown' ev p) = Script.edit_box p /\
   Script.pathname (keydown' ev p) = Script.pathname p).
Proof.
  destruct ev as [t key]. unfold Script.keydown. cbn [fst snd].
  destruct t; cbn [Script.document_onkeydown].
  - unfold Script.edit, Script.search, Script.jumpNew.
    destruct (str_eqb key (lit "e")).
    + destruct (Script.edit_box p) eqn:E; cbn; rewrite ?E;
        repeat split; auto; try congruence.
    + destruct (str_eqb key (lit "/")); [cbn; repeat split; auto; congruence|].
      destruct (str_eqb key (lit "n")); cbn; repeat split; auto; congruence.
  - unfold Script.field_onkeydown.
    destruct (Script.body_field p);
      [destruct (str_eqb key (lit "Home"));
       [|destruct (str_eqb key (lit "End"))]|];
      cbn; repeat split; auto.
  - repeat split; auto.
Qed.

Lemma keys_linkto (evs : list (Script.target * jsstr))
      (p : Script.page ranged) :
  Script.linkto (Script.keys collapse_and_select evs p) = Script.linkto p.
Proof.
  unfold Script.keys. revert p.
  induction evs as [|ev evs IH]; intros p; cbn [fold_left]; [reflexivity|].
  rewrite IH. apply keydown_frame.
Qed.


(** X20: [replaceLinkTo] never sets the link: it returns at once when
    the link exists and throws when it does not, leaving the page as it
    was; and no key pressed afterwards sets it either. *)
Theorem link_never_rewritten :
  forall (evs : list (Script.target * jsstr)) (p : Script.page ranged),
    fst (Script.replaceLinkTo p) = p /\
    (snd (Script.replaceLinkTo p) = false <-> Script.linkto p = None) /\
    Script.linkto
      (Script.keys collapse_and_select evs (fst (Script.replaceLinkTo p)))
    = Script.linkto p.
Proof.
  intros evs p. unfold Script.replaceLinkTo.
  destruct (Script.linkto p) eqn:E; cbn [fst snd]; repeat split;
    try discriminate; try congruence;
    rewrite <- E; apply keys_linkto.
Qed.

End ScriptFacts.

(** ** Sample lines and trees *)

(** X2: each pass leaves alone a line that lacks the unit its pattern
    needs: [parseWikiLinks] a line without an opening bracket,
    [parseURLs] a line without colon and dot, [parseEmails] a line
    without an at sign. *)
Theorem passes_leave_plain_lines :
  forall (lastIndex : nat) (line : jsstr),
    (~ In 91%N line -> parseWikiLinks line = Some line) /\
    (~ In 58%N line -> ~ In 46%N line -> parseURLs lastIndex line = line) /\
    (~ In 64%N line -> parseEmails line = line).
Proof.
  intros li line. unfold parseWikiLinks, parseURLs, parseEmails.
  split; [|split].
  - intros H. now rewrite no_bracket_no_wiki_match.
  - intros H1 H2. now rewrite no_colon_dot_no_url_match.
  - intros H. now rewrite no_at_no_email_match.
Qed.

Lemma passes_leave_plain_lines_witness :
  parseEmails (lit "see [[Home]] at https://x.com") =
    lit "see [[Home]] at https://x.com".
Proof.
  apply (passes_leave_plain_lines 0 (lit "see [[Home]] at https://x.com")).
  vm_compute. intuition discriminate.
Defined.

Lemma textToHtml_plain_witness :
  textToHtml 0 (lit "first line" ++ [10%N] ++ lit "second line") =
    Some (lit "first line<br>second line").
Proof.
  exact (textToHtml_plain 0 (lit "first line" ++ [10%N] ++ lit "second line")
           eq_refl).
Defined.

Lemma bare_link_round_trip_witness :
  exists e,
    encodeURIComponent (lit "Target Page") = Some e /\
    encodeLine 0 (lit "see " ++ wiki_link (lit "Target Page") ++ lit " now")
      = Some (lit "see " ++ anchor_html (lit "/" ++ e) (lit "Target Page")
                ++ lit " now") /\
    htmlToText 0
      [Anchor (lit "https://wiki.example/Target%20Page") (lit "/" ++ e)
              (lit "Target Page")]
    = ([Text (wiki_link (lit "Target Page"))], O, Normal).
Proof.
  apply (bare_link_round_trip 0 0
           (lit "https://wiki.example/Target%20Page")
           (lit "see ") (lit "Target Page") (lit " now")).
  - reflexivity.
  - reflexivity.
  - discriminate.
  - reflexivity.
  - reflexivity.
Defined.

Lemma aliased_link_round_trip_witness :
  exists e,
    encodeURIComponent (lit "home") = Some e /\
    encodeLine 0
      (lit "go " ++ wiki_link (lit "Home" ++ 124%N :: lit "home") ++ [])
      = Some (lit "go " ++ anchor_html (lit "/" ++ e) (lit "Home") ++ []) /\
    htmlToText 0
      [Anchor (lit "https://wiki.example/home") (lit "/" ++ e) (lit "Home")]
    = ([Text (wiki_link (lit "Home" ++ 124%N :: lit "home"))], O, Normal).
Proof.
  apply (aliased_link_round_trip 0 0
           (lit "https://wiki.example/home")
           (lit "go ") (lit "Home") (lit "home") []);
    reflexivity.
Defined.

Lemma mailto_tree_decoded_witness :
  htmlToText 0
    [Text (lit "mail ");
     Anchor (lit "mailto:me@x.com") (lit "me@x.com") (lit "me@x.com");
     Elem (lit "br") []; Img (lit "https://x.com/a.png")]
  = ([Text (lit "mail "); Text (lit "me@x.com"); Elem (lit "br") [];
      Text (lit "https://x.com/a.png")], O, Normal).
Proof.
  exact (mailto_tree_decoded 0
           [Text (lit "mail ");
            Anchor (lit "mailto:me@x.com") (lit "me@x.com") (lit "me@x.com");
            Elem (lit "br") []; Img (lit "https://x.com/a.png")] eq_refl).
Defined.

Lemma walk_ends_at_first_plain_link_witness :
  htmlToText 0
    ([Img (lit "https://x.com/a.png")]
       ++ Anchor (lit "https://wiki.example/A") (lit "/A") (lit "A")
       :: [Anchor (lit "https://wiki.example/B") (lit "/B") (lit "B")])
  = ([Img (lit "https://x.com/a.png"); Text (lit "[[A]]");
      Anchor (lit "https://wiki.example/B") (lit "/B") (lit "B")],
     O, Normal).
Proof.
  exact (walk_ends_at_first_plain_link 0
           [Img (lit "https://x.com/a.png")]
           [Anchor (lit "https://wiki.example/B") (lit "/B") (lit "B")]
           (lit "https://wiki.example/A") (lit "/A") (lit "A") (lit "/A")
           eq_refl eq_refl eq_refl (or_intror eq_refl)).
Defined.

Lemma bad_pathname_throws_witness :
  htmlToText 0
    ([] ++ Anchor (lit "https://wiki.example/100%") (lit "/100" ++ [37%N])
               (lit "100%") :: [Img (lit "https://x.com/a.png")])
  = ([Anchor (lit "https://wiki.example/100%") (lit "/100" ++ [37%N])
             (lit "100%");
      Img (lit "https://x.com/a.png")], O, URIError).
Proof.
  apply (bad_pathname_throws 0 [] [Img (lit "https://x.com/a.png")]
           (lit "https://wiki.example/100%") (lit "/100") (lit "100%")).
  - reflexivity.
  - reflexivity.
  - vm_compute. intuition discriminate.
Defined.

Lemma url_link_leaves_lastIndex_witness :
  exists lastIndex,
    0 < lastIndex /\
    htmlToText 0
      [Anchor (lit "https://x.com/a.html") (lit "/a.html")
              (lit "https://x.com/a.html")]
    = ([Text (lit "https://x.com/a.html")], lastIndex, Normal) /\
    forall line, length line <= lastIndex -> parseURLs lastIndex line = line.
Proof.
  apply (url_link_leaves_lastIndex []
           (lit "https://x.com/a.html") (lit "/a.html")
           (lit "https://x.com/a.html") (lit "/a.html"));
    vm_compute; reflexivity.
Defined.

(** ** Worlds of the sample page *)

Lemma register_read_back_witness :
  exists s',
    register (Sample.component "block-3" "third")
      {| components := Sample.page; behind := plain; machine := idle |}
      = Some s' /\
    lookup (lit "block-3") (components s')
      = Some (Sample.component "block-3" "third").
Proof.
  destruct (register_read_back (Sample.component "block-3" "third")
              {| components := Sample.page; behind := plain;
                 machine := idle |}) as (_ & H & _).
  destruct (H (lit "block-3") eq_refl eq_refl) as (s' & H1 & H2 & _).
  exists s'. split; [exact H1|exact H2].
Defined.

Lemma unregister_removes_one_witness :
  exists s',
    unregister (VStr (lit "ghost"))
      {| components := Sample.page; behind := plain; machine := idle |}
      = Some s' /\
    s' = {| components := Sample.page; behind := plain; machine := idle |}.
Proof.
  destruct (unregister_removes_one (VStr (lit "ghost"))
              {| components := Sample.page; behind := plain;
                 machine := idle |}) as (_ & H).
  destruct (H (lit "ghost") eq_refl) as (s' & H1 & _ & _ & H2 & _).
  exists s'. split; [exact H1|]. apply H2. reflexivity.
Defined.

Lemma unregister_message_witness :
  lookup (lit "block-1")
    (components
       (after (handleMessage VUndefined (UNREGISTER (VStr (lit "block-1")))
                 {| components := Sample.page; behind := plain;
                    machine := idle |}))) = None.
Proof.
  apply (unregister_message VUndefined (lit "block-1")
           {| components := Sample.page; behind := plain; machine := idle |}).
  discriminate.
Defined.

Lemma reachable_registry_sound_witness :
  getType (lit "block") (components (coordinator registered_world)) =
    [Sample.component "block-1" "first"; Sample.component "block-2" "second"].
Proof.
  destruct (reachable_registry_sound VUndefined (fun _ => true)
              registered_world) as (_ & _ & H).
  - apply reachable_arrive. constructor.
  - rewrite H. reflexivity.
Defined.

Lemma write_in_flight_blocks_saves_witness :
  handleMessage VUndefined (SAVE (Sample.component "block-1" "again"))
    (coordinator saving_world) =
  {| after := coordinator saving_world; writes := []; result := Returned |}.
Proof.
  apply (write_in_flight_blocks_saves VUndefined (fun _ => true)
           saving_world (Sample.component "block-1" "again")).
  - apply reachable_arrive. constructor.
  - discriminate.
Defined.

Lemma failing_status_blocks_witness :
  machine
    (settle (fun _ => true) (Sample.page_snapshot VUndefined) (Resolved 500)
       (coordinator saving_world)) = submitting /\
  issued {| coordinator :=
              settle (fun _ => true) (Sample.page_snapshot VUndefined)
                (Resolved 500) (coordinator saving_world);
            inflight := []; issued := issued saving_world |}
    = issued saving_world.
Proof.
  apply (failing_status_blocks VUndefined (fun _ => true) saving_world
           (Sample.page_snapshot VUndefined) 500%N
           {| coordinator :=
                settle (fun _ => true) (Sample.page_snapshot VUndefined)
                  (Resolved 500) (coordinator saving_world);
              inflight := []; issued := issued saving_world |}).
  - apply reachable_arrive. constructor.
  - reflexivity.
  - discriminate.
  - apply steps_refl.
Defined.

Lemma unregistered_id_blocks_witness :
  handleMessage VUndefined (SAVE (Sample.component "ghost" "text"))
    (coordinator registered_world) =
  {| after := with_machine submitting (coordinator registered_world);
     writes := []; result := TypeError |}.
Proof.
  apply (unregistered_id_blocks VUndefined (fun _ => true)
           (Sample.component "ghost" "text") (lit "ghost")
           registered_world registered_world).
  - apply reachable_arrive. constructor.
  - reflexivity.
  - reflexivity.
  - reflexivity.
  - reflexivity.
Defined.

Lemma reachable_save_issues_write_witness :
  inflight registered_world = [].
Proof.
  apply (reachable_save_issues_write VUndefined (fun _ => true)
           registered_world).
  - apply reachable_arrive. constructor.
  - reflexivity.
  - reflexivity.
Defined.

